(** * Shape inference engine of torch_glow: a shallow embedding

    The development follows [torch_glow/src/ShapeInferenceEngine.cpp].
    Shapes are [std::vector<int64_t>], modelled as [list Z]; the metadata
    store [shapeMap_] is a finite map from value identities to
    [VariableMeta]; every rule returns an [Expected] result. *)

From Stdlib Require Import ZArith Lia.
From stdpp Require Import base option list list_numbers gmap.

Local Open Scope Z_scope.

(** ** Results of the engine's functions *)

Module Engine.

(** The node kinds the dispatcher knows, and a catch-all for any other
    symbol of the IR. *)
Inductive NodeKind : Type :=
  | prim_Constant
  | aten_tanh | aten_relu | aten_sigmoid
  | aten_sub | aten_pow | aten_mul | aten_add
  | aten_mm | aten_addmm | aten_bmm
  | prim_FusedConcat
  | prim_ConstantChunk
  | other_kind (id : nat).

(** Every [MAKE_ERR] / [RETURN_ERR_IF_NOT] site of the source carries a
    message; the sites are classified by the kind of failure they report,
    and the numbers formatted into the message are kept. *)
Inductive ErrorKind : Type :=
  | ArityMismatch
  | UnsupportedOperator (k : NodeKind)
  | UnsupportedInputKind
  | RankMismatch
  | ShapeMismatch
  | DimOutOfRange.

Record Error : Type := MAKE_ERR { err_kind : ErrorKind; err_args : list Z }.

(** Executions that leave the defined behaviour of the C++ program or
    that stop the process: an [operator[]] outside the bounds of a vector,
    a signed overflow, a division by zero, a failed [CHECK] or assertion. *)
Inductive Fault : Type :=
  | OutOfRange
  | SignedOverflow
  | DivisionByZero
  | CheckFailed.

Inductive Expected (A : Type) : Type :=
  | Value (a : A)
  | Failure (e : Error)
  | Fatal (f : Fault).
Arguments Value {A} a.
Arguments Failure {A} e.
Arguments Fatal {A} f.

#[global] Instance Expected_ret : MRet Expected := @Value.
#[global] Instance Expected_bind : MBind Expected := λ A B f m,
  match m with
  | Value a => f a
  | Failure e => Failure e
  | Fatal u => Fatal u
  end.
#[global] Instance Expected_fmap : FMap Expected := λ A B f m,
  match m with
  | Value a => Value (f a)
  | Failure e => Failure e
  | Fatal u => Fatal u
  end.

(** ** Machine integers *)

Definition INT_MAX : Z := 2147483647.
Definition INT64_MAX : Z := 9223372036854775807.
Definition INT64_MIN : Z := -9223372036854775808.
Definition SIZE_MOD : Z := 18446744073709551616.

(** Conversion of an integer to [size_t] (modulo 2^64). *)
Definition to_size_t (z : Z) : Z := z mod SIZE_MOD.

(** Conversion of a [size_t] back to [int64_t] (two's complement). *)
Definition to_int64 (z : Z) : Z :=
  (z + 9223372036854775808) mod SIZE_MOD - 9223372036854775808.

(** The result of a signed 64-bit operation whose mathematical value is
    [z]: overflow is undefined behaviour. *)
Definition int64 (z : Z) : Expected Z :=
  if bool_decide (INT64_MIN ≤ z ≤ INT64_MAX) then Value z
  else Fatal SignedOverflow.

(** Signed division, truncating towards zero. *)
Definition div64 (a b : Z) : Expected Z :=
  if bool_decide (b = 0) then Fatal DivisionByZero else int64 (Z.quot a b).

(** ** Vectors *)

(** [v.size()] *)
Definition vec_size {A} (v : list A) : Z := Z.of_nat (length v).

(** [v[idx]] for reading, [idx] a [size_t]; an index past the end is
    outside the defined behaviour. *)
Definition vec_at {A} (v : list A) (idx : Z) : Expected A :=
  if bool_decide (idx < vec_size v) then
    match v !! Z.to_nat idx with
    | Some x => Value x
    | None => Fatal OutOfRange
    end
  else Fatal OutOfRange.

(** [v[idx] = x], [idx] a [size_t]. *)
Definition vec_set {A} (v : list A) (idx : Z) (x : A) : Expected (list A) :=
  if bool_decide (idx < vec_size v) then Value (<[Z.to_nat idx := x]> v)
  else Fatal OutOfRange.

(** [i++] on an [int] counter. *)
Definition int_incr (i : Z) : Expected Z :=
  if bool_decide (i < INT_MAX) then Value (i + 1) else Fatal SignedOverflow.

(** [for (int i = lo; ...; i++) body], run for [n] iterations over a
    state, leaving at the first error. *)
Fixpoint for_loop {S} (body : Z → S → Expected S) (i : Z) (n : nat) (s : S)
    : Expected S :=
  match n with
  | O => Value s
  | S n' => s' ← body i s; i' ← int_incr i; for_loop body i' n' s'
  end.

(** ** Metadata *)

Record VariableMeta : Type := mkMeta { shape : list Z; intValue : list Z }.

(** [using MetaStack = std::vector<VariableMeta>] *)
Abbreviation MetaStack := (list VariableMeta).

(** A metadata entry that carries a shape only. *)
Definition ofShape (s : list Z) : VariableMeta := mkMeta s [].

(** ** binaryOp *)

(** The test [i >= d || t[d + j] == 1] with its short circuit. *)
Definition absent_or_one (t : list Z) (d i j : Z) : Expected bool :=
  if bool_decide (d ≤ i) then Value true
  else x ← vec_at t (to_size_t (d + j)); Value (bool_decide (x = 1)).

(** The size the loop body chooses for iteration [i]. *)
Definition binaryOp_pick (t0 t1 : list Z) (i : Z) : Expected Z :=
  let d0 := vec_size t0 in
  let d1 := vec_size t1 in
  let j := -1 - i in
  c0 ← absent_or_one t0 d0 i j;
  if (c0 : bool) then vec_at t1 (to_size_t (d1 + j))
  else
    c1 ← absent_or_one t1 d1 i j;
    if (c1 : bool) then vec_at t0 (to_size_t (d0 + j))
    else
      b ← vec_at t1 (to_size_t (d1 + j));
      a ← vec_at t0 (to_size_t (d0 + j));
      if bool_decide (b ≠ a) then Failure (MAKE_ERR ShapeMismatch [a; b])
      else vec_at t1 (to_size_t (d1 + j)).

(** One iteration of the loop: choose the size, store it at
    [shape[dim + j]]. *)
Definition binaryOp_body (t0 t1 : list Z) (dim : Z) (i : Z) (shape : list Z)
    : Expected (list Z) :=
  y ← binaryOp_pick t0 t1 i;
  vec_set shape (to_size_t (dim + (-1 - i))) y.

Definition binaryOp (varibableMetas : MetaStack) : Expected (list Z) :=
  if bool_decide (vec_size varibableMetas ≠ 2 ∧ vec_size varibableMetas ≠ 3)
  then Failure (MAKE_ERR ArityMismatch [])
  else
    t0 ← shape <$> vec_at varibableMetas 0;
    t1 ← shape <$> vec_at varibableMetas 1;
    let d0 := vec_size t0 in
    let d1 := vec_size t1 in
    if bool_decide (d1 = 1) then Value t0
    else
      let dim := Z.max d0 d1 in
      for_loop (binaryOp_body t0 t1 dim) 0 (Z.to_nat dim)
               (replicate (Z.to_nat dim) 0).

(** ** mm *)

Definition mm (varibableMetas : MetaStack) : Expected (list Z) :=
  if bool_decide (vec_size varibableMetas ≠ 2)
  then Failure (MAKE_ERR ArityMismatch [])
  else
    t0 ← shape <$> vec_at varibableMetas 0;
    t1 ← shape <$> vec_at varibableMetas 1;
    if bool_decide (¬ (vec_size t1 = 2 ∧ vec_size t0 = 2))
    then Failure (MAKE_ERR RankMismatch [])
    else
      a ← vec_at t0 1;
      b ← vec_at t1 0;
      if bool_decide (a ≠ b) then Failure (MAKE_ERR ShapeMismatch [a; b])
      else
        x ← vec_at t0 0;
        y ← vec_at t1 1;
        Value [x; y].

(** ** bmm *)

Definition bmm (varibableMetas : MetaStack) : Expected (list Z) :=
  if bool_decide (vec_size varibableMetas ≠ 2)
  then Failure (MAKE_ERR ArityMismatch [])
  else
    t0 ← shape <$> vec_at varibableMetas 0;
    t1 ← shape <$> vec_at varibableMetas 1;
    if bool_decide (¬ (vec_size t0 = 3 ∧ vec_size t1 = 3))
    then Failure (MAKE_ERR RankMismatch [])
    else
      a0 ← vec_at t0 0;
      b0 ← vec_at t1 0;
      if bool_decide (a0 ≠ b0) then Failure (MAKE_ERR ShapeMismatch [])
      else
        a2 ← vec_at t0 2;
        b1 ← vec_at t1 1;
        if bool_decide (a2 ≠ b1) then Failure (MAKE_ERR ShapeMismatch [a2; b1])
        else
          x ← vec_at t0 0;
          y ← vec_at t0 1;
          z ← vec_at t1 2;
          Value [x; y; z].

(** ** addmm *)

Definition addmm (varibableMetas : MetaStack) : Expected (list Z) :=
  if bool_decide (¬ (3 ≤ vec_size varibableMetas))
  then Failure (MAKE_ERR ArityMismatch [vec_size varibableMetas])
  else
    t0 ← vec_at varibableMetas 0;
    t1 ← vec_at varibableMetas 1;
    t2 ← vec_at varibableMetas 2;
    t ← (if bool_decide (vec_size (shape t2) = 1) then Value t1
         else s ← mm [t1; t2]; Value (mkMeta s []));
    binaryOp [t0; t].

(** ** constantChunk *)

(** [dim += n] for an [int64_t dim] and a [size_t n]: the sum is taken
    in [size_t] and converted back. *)
Definition add_size_t (dim n : Z) : Z :=
  to_int64 (to_size_t (to_size_t dim + n)).

(** The body of the loop over the chunks. *)
Definition constantChunk_body (t : list Z) (chunks dim c r : Z) (i : Z)
    (outShapes : list (list Z)) : Expected (list (list Z)) :=
  shape' ← vec_set t (to_size_t dim)
             (if bool_decide (i = chunks - 1) then r else c);
  Value (outShapes ++ [shape']).

Definition constantChunk (varibableMetas : MetaStack) (chunks dim : Z)
    : Expected (list (list Z)) :=
  if bool_decide (vec_size varibableMetas ≠ 1)
  then Failure (MAKE_ERR ArityMismatch [vec_size varibableMetas])
  else
    t ← shape <$> vec_at varibableMetas 0;
    let dim :=
      if bool_decide (dim < 0) then add_size_t dim (vec_size t) else dim in
    if bool_decide (¬ (to_size_t dim < vec_size t ∧ 0 ≤ dim))
    then Failure (MAKE_ERR DimOutOfRange [])
    else
      s ← vec_at t (to_size_t dim);
      n ← int64 (s + chunks);
      n ← int64 (n - 1);
      c ← div64 n chunks;
      k ← int64 (chunks - 1);
      p ← int64 (c * k);
      r ← int64 (s - p);
      for_loop (constantChunk_body t chunks dim c r) 0 (Z.to_nat chunks) [].

(** ** fusedConcat *)

(** The loop over the dimensions [j] of input [ti]. *)
Definition fusedConcat_inner (ti : list Z) (dim : Z) (j : Z) (shape' : list Z)
    : Expected (list Z) :=
  if bool_decide (j = dim) then
    a ← vec_at shape' (to_size_t dim);
    b ← vec_at ti (to_size_t dim);
    s ← int64 (a + b);
    vec_set shape' (to_size_t dim) s
  else
    a ← vec_at shape' (to_size_t j);
    b ← vec_at ti (to_size_t j);
    if bool_decide (¬ (a = b)) then Failure (MAKE_ERR ShapeMismatch [dim])
    else Value shape'.

(** The loop over the inputs [i >= 1]. *)
Definition fusedConcat_outer (varibableMetas : MetaStack) (inDims dim : Z)
    (i : Z) (shape' : list Z) : Expected (list Z) :=
  ti ← shape <$> vec_at varibableMetas (to_size_t i);
  if bool_decide (¬ (to_size_t inDims = vec_size ti))
  then Failure (MAKE_ERR RankMismatch [])
  else for_loop (fusedConcat_inner ti dim) 0 (Z.to_nat inDims) shape'.

Definition fusedConcat (varibableMetas : MetaStack) (dim : Z)
    : Expected (list Z) :=
  if bool_decide (¬ (1 ≤ vec_size varibableMetas))
  then Failure (MAKE_ERR ArityMismatch [vec_size varibableMetas])
  else if bool_decide (vec_size varibableMetas = 1)
  then shape <$> vec_at varibableMetas 0
  else
    shape' ← shape <$> vec_at varibableMetas 0;
    let inDims := to_int64 (vec_size shape') in
    dim ← (if bool_decide (dim < 0) then int64 (dim + inDims) else Value dim);
    if bool_decide (¬ (dim < inDims ∧ 0 ≤ dim))
    then Failure (MAKE_ERR DimOutOfRange [])
    else
      for_loop (fusedConcat_outer varibableMetas inDims dim) 1
               (Z.to_nat (vec_size varibableMetas - 1)) shape'.

(** ** The graph and the inputs of a pass *)

(** A [const torch::jit::Value *], the key of the store. *)
Definition ValueRef : Type := nat.

(** The type of a value of the IR, as far as [primConstant] tells the
    cases apart. *)
Inductive TypeKind : Type :=
  | FloatType | IntType | BoolType | NoneType | TensorType | OtherType.

(** An attribute of a node: an integer ([node->i]), a tensor, of which
    only the sizes matter ([node->t]), or a float. *)
Inductive Attr : Type :=
  | attr_int (z : Z)
  | attr_tensor (sizes : list Z)
  | attr_float.

Record Node : Type := mkNode {
  kind : NodeKind;
  inputs : list ValueRef;
  outputs : list ValueRef;
  (** the type of [output()], read for constants *)
  output_type : TypeKind;
  attr_value : option Attr;
  attr_chunks : option Attr;
  attr_dim : option Attr
}.

Record Graph : Type := mkGraph {
  g_inputs : list ValueRef;
  g_nodes : list Node;
  g_outputs : list ValueRef
}.

(** [node->i(name)]: the attribute must be there and be an integer. *)
Definition node_i (a : option Attr) : Expected Z :=
  match a with
  | Some (attr_int z) => Value z
  | _ => Fatal CheckFailed
  end.

(** [node->t(name).sizes()] *)
Definition node_t (a : option Attr) : Expected (list Z) :=
  match a with
  | Some (attr_tensor sizes) => Value sizes
  | _ => Fatal CheckFailed
  end.

(** [node->output()]: the node must have exactly one output. *)
Definition node_output (node : Node) : Expected ValueRef :=
  match outputs node with
  | [o] => Value o
  | _ => Fatal CheckFailed
  end.

(** A concrete input of the pass, by its runtime category. *)
Inductive IValue : Type :=
  | IVTensor (sizes : list Z)
  | IVBool (b : bool)
  | IVInt (z : Z)
  | IVIntList (l : list Z)
  | IVOther.

(** Modelled from the spec: [IValue::toInt] is declared by the tensor
    library, not by this repository; the materializer stores what it
    returns as the value of a boolean or integer input, a boolean being
    0 or 1. Called on the two categories the materializer has tested for. *)
Definition toInt (v : IValue) : Expected Z :=
  match v with
  | IVInt z => Value z
  | IVBool b => Value (Z.b2z b)
  | _ => Fatal CheckFailed
  end.

(** ** The engine's state *)

Record State : Type := mkState {
  shapeMap_ : gmap ValueRef VariableMeta;
  outputShape_ : list (list Z)
}.

(** A member function of the engine: it reads and updates the state and
    returns a result; the state it leaves is there after an error too. *)
Definition Pass (A : Type) : Type := State → Expected A * State.

#[global] Instance Pass_ret : MRet Pass := λ A a st, (Value a, st).
#[global] Instance Pass_bind : MBind Pass := λ A B f m st,
  match m st with
  | (Value a, st') => f a st'
  | (Failure e, st') => (Failure e, st')
  | (Fatal u, st') => (Fatal u, st')
  end.

(** A computation that does not touch the state. *)
Definition lift {A} (m : Expected A) : Pass A := λ st, (m, st).

(** The entry [shapeMap_[k]]: [operator[]] makes an empty one when the
    key is new. *)
Definition entry (m : gmap ValueRef VariableMeta) (k : ValueRef)
    : VariableMeta :=
  default (mkMeta [] []) (m !! k).

(** [shapeMap_[k].shape = s] *)
Definition set_shape (k : ValueRef) (s : list Z) : Pass unit := λ st,
  (Value tt,
   mkState (<[k := mkMeta s (intValue (entry (shapeMap_ st) k))]> (shapeMap_ st))
           (outputShape_ st)).

(** [shapeMap_[k].intValue = v] *)
Definition set_intValue (k : ValueRef) (v : list Z) : Pass unit := λ st,
  (Value tt,
   mkState (<[k := mkMeta (shape (entry (shapeMap_ st) k)) v]> (shapeMap_ st))
           (outputShape_ st)).

(** A loop [for (int i = lo; ...; i++)] over the engine's state. *)
Fixpoint pass_loop (body : Z → Pass unit) (i : Z) (n : nat) : Pass unit :=
  match n with
  | O => mret tt
  | S n' => body i;; i' ← lift (int_incr i); pass_loop body i' n'
  end.

(** A loop [for (auto x : l)] over the engine's state. *)
Fixpoint pass_each {A} (body : A → Pass unit) (l : list A) : Pass unit :=
  match l with
  | [] => mret tt
  | x :: l' => body x;; pass_each body l'
  end.

(** ** getNodeInputShape *)

Definition getNodeInputShape (node : Node) : Pass MetaStack := λ st,
  (mapM (λ input,
           match shapeMap_ st !! input with
           | Some m => Value m
           | None => Fatal CheckFailed
           end) (inputs node),
   st).

(** ** primConstant *)

Definition primConstant (node : Node) : Expected (list Z) :=
  _ ← node_output node;
  match output_type node with
  | FloatType => Value [1]
  | IntType => v ← node_i (attr_value node); Value [v]
  | BoolType => v ← node_i (attr_value node); Value [v]
  | NoneType => Value []
  | TensorType => node_t (attr_value node)
  | OtherType => Value []
  end.

(** ** shapeOnNode *)

(** The [switch] over the kind of the node. *)
Definition shapeOnNode_rule (node : Node) (inputMetas : MetaStack)
    : Expected (list (list Z)) :=
  match kind node with
  | prim_Constant => v ← primConstant node; Value [v]
  | aten_tanh | aten_relu | aten_sigmoid =>
      if bool_decide (¬ (vec_size inputMetas = 1))
      then Failure (MAKE_ERR ArityMismatch [])
      else m ← vec_at inputMetas 0; Value [shape m]
  | aten_sub | aten_pow | aten_mul | aten_add =>
      v ← binaryOp inputMetas; Value [v]
  | aten_mm => v ← mm inputMetas; Value [v]
  | aten_addmm => v ← addmm inputMetas; Value [v]
  | aten_bmm => v ← bmm inputMetas; Value [v]
  | prim_FusedConcat =>
      dim ← node_i (attr_dim node);
      v ← fusedConcat inputMetas dim; Value [v]
  | prim_ConstantChunk =>
      chunks ← node_i (attr_chunks node);
      dim ← node_i (attr_dim node);
      constantChunk inputMetas chunks dim
  | other_kind _ => Failure (MAKE_ERR (UnsupportedOperator (kind node)) [])
  end.

(** The part that puts the outputs into the map. *)
Definition shapeOnNode_store (node : Node)
    (outputShapesOrValues : list (list Z)) : Pass unit :=
  match kind node with
  | prim_Constant =>
      out ← lift (node_output node);
      match output_type node with
      | TensorType =>
          v ← lift (vec_at outputShapesOrValues 0);
          set_shape out v
      | _ =>
          set_shape out [1];;
          v ← lift (vec_at outputShapesOrValues 0);
          set_intValue out v
      end
  | _ =>
      pass_loop (λ i,
                   out ← lift (vec_at (outputs node) (to_size_t i));
                   v ← lift (vec_at outputShapesOrValues (to_size_t i));
                   set_shape out v)
                0 (length (outputs node))
  end.

Definition shapeOnNode (node : Node) : Pass unit :=
  inputMetas ← getNodeInputShape node;
  outputShapesOrValues ← lift (shapeOnNode_rule node inputMetas);
  shapeOnNode_store node outputShapesOrValues.

(** ** getGraphIntputShape *)

Definition getGraphIntputShape_body (graph_ : Graph) (inputs_ : list IValue)
    (i : Z) : Pass unit :=
  gInName ← lift (vec_at (g_inputs graph_) (to_size_t i));
  set_shape gInName [];;
  set_intValue gInName [];;
  input ← lift (vec_at inputs_ (to_size_t i));
  match input with
  | IVTensor sizes =>
      (* one [emplace_back] for each size, onto the empty shape *)
      set_shape gInName sizes
  | IVBool _ | IVInt _ =>
      set_shape gInName [1];;
      v ← lift (toInt input);
      set_intValue gInName [v]
  | IVIntList ptIntList =>
      set_shape gInName [vec_size ptIntList; 1];;
      set_intValue gInName ptIntList
  | IVOther => lift (Failure (MAKE_ERR UnsupportedInputKind []))
  end.

Definition getGraphIntputShape (graph_ : Graph) (inputs_ : list IValue)
    : Pass unit :=
  pass_loop (getGraphIntputShape_body graph_ inputs_) 0 (length inputs_).

(** ** generateGraphOutputShape *)

Definition generateGraphOutputShape (graph_ : Graph) : Pass unit :=
  pass_each (λ output st,
               match shapeMap_ st !! output with
               | Some m =>
                   (Value tt,
                    mkState (shapeMap_ st) (outputShape_ st ++ [shape m]))
               | None => (Fatal CheckFailed, st)
               end) (g_outputs graph_).

(** ** run *)

Definition run (graph_ : Graph) (inputs_ : list IValue) : Pass unit :=
  if bool_decide (¬ (vec_size inputs_ = vec_size (g_inputs graph_)))
  then lift (Failure (MAKE_ERR ArityMismatch []))
  else
    getGraphIntputShape graph_ inputs_;;
    pass_each shapeOnNode (g_nodes graph_);;
    generateGraphOutputShape graph_.

(** The state of a fresh engine. *)
Definition init : State := mkState ∅ [].

End Engine.

Import Engine.

(** * Notions used in the statements *)

(** The element [i] places from the end of [t], if [t] is that long. *)
Definition from_end (t : list Z) (i : Z) : option Z :=
  if bool_decide (i < vec_size t) then t !! Z.to_nat (vec_size t - 1 - i)
  else None.

(** What the loop body chooses at [i], by the sizes the two operands
    have [i] places from their ends. *)
Definition pick_of (a b : option Z) : Expected Z :=
  match a, b with
  | None, Some y => Value y
  | None, None => Fatal OutOfRange
  | Some x, None => if bool_decide (x = 1) then Fatal OutOfRange else Value x
  | Some x, Some y =>
      if bool_decide (x = 1) then Value y
      else if bool_decide (y = 1) then Value x
      else if bool_decide (y ≠ x) then Failure (MAKE_ERR ShapeMismatch [x; y])
      else Value y
  end.

(** A dimension index with a negative one counted from the end of a
    shape of the given rank. *)
Definition normalize_dim (dim rank : Z) : Z :=
  if bool_decide (dim < 0) then dim + rank else dim.

(** The quotient rounded up, for a positive divisor. *)
Definition ceil_div (a b : Z) : Z := - ((- a) / b).

(** The size a shape has at dimension [d], 0 where it has none. *)
Definition size_at (d : nat) (t : list Z) : Z := default 0 (t !! d).

(** The sum over a list of shapes of their sizes at dimension [d]. *)
Definition total_at (d : nat) (ts : list (list Z)) : Z :=
  foldr (λ t acc, size_at d t + acc) 0 ts.

(** The shape of chunk [k] of a split into [chunks] at dimension [d],
    by the formulas of [constantChunk] for [c] and [r]. *)
Definition chunk_shape (t : list Z) (d : nat) (s chunks k : Z) : list Z :=
  let c := Z.quot (s + chunks - 1) chunks in
  let r := s - c * (chunks - 1) in
  <[d := if bool_decide (k = chunks - 1) then r else c]> t.

(** A later input of a concatenation at dimension [d] goes with the
    first input [t0]: it has the same rank and the same sizes but at [d]. *)
Definition compatible (t0 : list Z) (d : nat) (ti : list Z) : Prop :=
  length ti = length t0 ∧ ∀ j : nat, j ≠ d → ti !! j = t0 !! j.

(** The metadata of a concrete input, by its runtime category; none
    for a category the engine does not take. *)
Definition meta_of_input (v : IValue) : option VariableMeta :=
  match v with
  | IVTensor sizes => Some (mkMeta sizes [])
  | IVBool b => Some (mkMeta [1] [Z.b2z b])
  | IVInt z => Some (mkMeta [1] [z])
  | IVIntList l => Some (mkMeta [Z.of_nat (length l); 1] l)
  | IVOther => None
  end.

(** A member function that leaves the collected output shapes alone. *)
Definition keeps_outputs {A} (m : Pass A) : Prop :=
  ∀ st r st', m st = (r, st') → outputShape_ st' = outputShape_ st.

(** A shape without a negative size. *)
Definition nonneg (t : list Z) : Prop := Forall (λ z, 0 ≤ z) t.

(** The invariant of the store and of the collected outputs: no shape
    has a negative size. *)
Definition store_nonneg (st : State) : Prop :=
  (∀ k m, shapeMap_ st !! k = Some m → nonneg (shape m)) ∧
  Forall nonneg (outputShape_ st).

(** The tensor constant of a node, if it has one, has no negative size. *)
Definition const_nonneg (node : Node) : Prop :=
  ∀ sizes, attr_value node = Some (attr_tensor sizes) → nonneg sizes.

(** The tensor inputs of a pass have no negative size. *)
Definition inputs_nonneg (inputs_ : list IValue) : Prop :=
  ∀ sizes, IVTensor sizes ∈ inputs_ → nonneg sizes.

(** A split of a dimension of size [s] into [chunks >= 1] chunks leaves
    a last chunk that is not negative. *)
Definition chunks_fit (s chunks : Z) : Prop :=
  ceil_div s chunks * (chunks - 1) ≤ s.

(** A node that is a split with a chunk count of 1 or more, in the
    state it is processed in, splits a dimension that its chunks fit, its
    [dim] being an [int64_t] and the rank of its input within
    [INT64_MAX]. *)
Definition split_fits (st : State) (node : Node) : Prop :=
  kind node = prim_ConstantChunk →
  ∀ (k : ValueRef) (m : VariableMeta) (chunks dim : Z),
    inputs node = [k] → shapeMap_ st !! k = Some m →
    attr_chunks node = Some (attr_int chunks) →
    attr_dim node = Some (attr_int dim) →
    1 ≤ chunks →
    INT64_MIN ≤ dim ≤ INT64_MAX ∧ vec_size (shape m) ≤ INT64_MAX ∧
    chunks_fit (size_at (Z.to_nat (normalize_dim dim (vec_size (shape m))))
                        (shape m)) chunks.

(** Every split among the nodes fits, each in the state the nodes
    before it leave. *)
Fixpoint splits_fit (nodes : list Node) (st : State) : Prop :=
  match nodes with
  | [] => True
  | node :: rest =>
      split_fits st node ∧
      ∀ st', shapeOnNode node st = (Value tt, st') → splits_fit rest st'
  end.

(** A member function that keeps an invariant of the state, whatever
    its result. *)
Definition preserves {A} (P : State → Prop) (m : Pass A) : Prop :=
  ∀ st r st', P st → m st = (r, st') → P st'.

(** [getGraphOutputShape]: the output shapes the engine has collected. *)
Definition getGraphOutputShape (st : State) : list (list Z) := outputShape_ st.

(** The map after [shapeMap_[o].shape = v] for each output [o] and its
    shape [v], in order. *)
Definition store_shapes (os : list ValueRef) (vs : list (list Z))
    (m : gmap ValueRef VariableMeta) : gmap ValueRef VariableMeta :=
  foldl (λ m ov, <[ov.1 := mkMeta ov.2 (intValue (entry m ov.1))]> m) m
        (zip os vs).

(** * Properties *)

(** ** The result monad *)

Section Results.
Context {A B : Type}.

Lemma bind_Value (m : Expected A) (f : A → Expected B) (b : B) :
  (m ≫= f) = Value b ↔ ∃ a, m = Value a ∧ f a = Value b.
Proof.
  destruct m as [a| |]; simpl; split.
  - eauto.
  - intros (a' & Ha & Hf). congruence.
  - discriminate.
  - intros (a' & Ha & _). discriminate.
  - discriminate.
  - intros (a' & Ha & _). discriminate.
Qed.

Lemma fmap_Value (m : Expected A) (f : A → B) (b : B) :
  f <$> m = Value b ↔ ∃ a, m = Value a ∧ b = f a.
Proof.
  destruct m as [a| |]; simpl; split; try discriminate.
  - intros [= <-]. eauto.
  - intros (a' & [= <-] & ->). reflexivity.
  - intros (a' & Ha & _). discriminate.
  - intros (a' & Ha & _). discriminate.
Qed.

End Results.

Section MapM.
Context {A B : Type}.

(** Two runs of [mapM] over the same list that both succeed agree as
    soon as the two functions agree wherever both succeed. *)
Lemma mapM_Value_agree (f g : A → Expected B) (l : list A) (k1 k2 : list B) :
  (∀ x a b, x ∈ l → f x = Value a → g x = Value b → a = b) →
  mapM f l = Value k1 → mapM g l = Value k2 → k1 = k2.
Proof.
  revert k1 k2. induction l as [|x l IH]; intros k1 k2 Hfg H1 H2.
  - simpl in H1, H2. congruence.
  - simpl in H1, H2.
    apply bind_Value in H1 as (a & Ha & H1).
    apply bind_Value in H1 as (k1' & Hk1 & H1).
    apply bind_Value in H2 as (b & Hb & H2).
    apply bind_Value in H2 as (k2' & Hk2 & H2).
    injection H1 as <-. injection H2 as <-.
    f_equal.
    + eapply Hfg; eauto. left.
    + apply IH; auto. intros y a' b' Hy. apply Hfg. by right.
Qed.

Lemma mapM_ext_in (f g : A → Expected B) (l : list A) :
  (∀ x, x ∈ l → f x = g x) → mapM f l = mapM g l.
Proof.
  induction l as [|x l IH]; intros Hfg; [done|].
  cbn [mapM]. rewrite (Hfg x) by left.
  rewrite IH; [done|]. intros y Hy. apply Hfg. by right.
Qed.

Lemma mapM_Value_length (f : A → Expected B) (l : list A) (k : list B) :
  mapM f l = Value k → length k = length l.
Proof.
  revert k. induction l as [|x l IH]; intros k H; simpl in H.
  - by injection H as <-.
  - apply bind_Value in H as (a & Ha & H).
    apply bind_Value in H as (k' & Hk & H).
    injection H as <-. simpl. f_equal. auto.
Qed.

Lemma mapM_Value_lookup (f : A → Expected B) (l : list A) (k : list B) :
  mapM f l = Value k →
  ∀ (n : nat) x, l !! n = Some x → ∃ y, k !! n = Some y ∧ f x = Value y.
Proof.
  revert k. induction l as [|x l IH]; intros k H n x' Hn; simpl in H.
  - by rewrite lookup_nil in Hn.
  - apply bind_Value in H as (a & Ha & H).
    apply bind_Value in H as (k' & Hk & H).
    injection H as <-. destruct n as [|n]; simpl in *.
    + injection Hn as <-. eauto.
    + eauto.
Qed.
End MapM.

(** ** Machine integers and vectors *)

Section Machine.

Lemma to_size_t_small (z : Z) : 0 ≤ z < SIZE_MOD → to_size_t z = z.
Proof. intros H. unfold to_size_t. by apply Z.mod_small. Qed.

Lemma to_size_t_neg (z : Z) : - SIZE_MOD ≤ z < 0 → to_size_t z = z + SIZE_MOD.
Proof.
  intros H. unfold to_size_t.
  replace z with ((z + SIZE_MOD) + (-1) * SIZE_MOD) at 1 by lia.
  rewrite Z_mod_plus_full. apply Z.mod_small. lia.
Qed.

Lemma to_int64_small (z : Z) : 0 ≤ z ≤ INT64_MAX → to_int64 z = z.
Proof.
  intros H. unfold to_int64, INT64_MAX, SIZE_MOD in *.
  rewrite Z.mod_small by lia. lia.
Qed.

Lemma to_int64_high (z : Z) :
  INT64_MAX < z < SIZE_MOD → to_int64 z = z - SIZE_MOD.
Proof.
  intros H. unfold to_int64, INT64_MAX, SIZE_MOD in *.
  replace (z + 9223372036854775808)
    with ((z + 9223372036854775808 - 18446744073709551616)
          + 1 * 18446744073709551616) by lia.
  rewrite Z_mod_plus_full. rewrite Z.mod_small by lia. lia.
Qed.

(** [dim += n] gives the sum, for a negative [dim] and a size [n]. *)
Lemma add_size_t_neg (dim n : Z) :
  INT64_MIN ≤ dim < 0 → 0 ≤ n ≤ INT64_MAX → add_size_t dim n = dim + n.
Proof.
  intros Hdim Hn. unfold add_size_t.
  rewrite (to_size_t_neg dim) by (unfold INT64_MIN, SIZE_MOD in *; lia).
  destruct (decide (dim + n < 0)) as [Hneg|Hpos].
  - rewrite to_size_t_small by (unfold INT64_MIN, INT64_MAX, SIZE_MOD in *; lia).
    rewrite to_int64_high by (unfold INT64_MIN, INT64_MAX, SIZE_MOD in *; lia).
    lia.
  - replace (dim + SIZE_MOD + n) with ((dim + n) + 1 * SIZE_MOD) by lia.
    unfold to_size_t at 1. rewrite Z_mod_plus_full.
    rewrite Z.mod_small by (unfold INT64_MIN, INT64_MAX, SIZE_MOD in *; lia).
    apply to_int64_small. unfold INT64_MIN, INT64_MAX in *. lia.
Qed.

Lemma int64_ok (z : Z) : INT64_MIN ≤ z ≤ INT64_MAX → int64 z = Value z.
Proof. intros H. unfold int64. by rewrite bool_decide_eq_true_2. Qed.

Lemma int64_Value (z r : Z) :
  int64 z = Value r → r = z ∧ INT64_MIN ≤ z ≤ INT64_MAX.
Proof. unfold int64. case_bool_decide; [|discriminate]. by intros [= <-]. Qed.

Lemma int_incr_ok (i : Z) : i < INT_MAX → int_incr i = Value (i + 1).
Proof. intros H. unfold int_incr. by rewrite bool_decide_eq_true_2. Qed.

Context {A : Type}.
Implicit Types v : list A.

Lemma vec_at_Value v (idx : Z) (x : A) :
  0 ≤ idx → vec_at v idx = Value x ↔ v !! Z.to_nat idx = Some x.
Proof.
  intros Hidx. unfold vec_at, vec_size. case_bool_decide as Hlt.
  - destruct (v !! Z.to_nat idx); split; congruence.
  - split; [discriminate|]. intros Hx. apply lookup_lt_Some in Hx. lia.
Qed.

Lemma vec_at_nat v (n : nat) :
  vec_at v (Z.of_nat n) =
    match v !! n with Some x => Value x | None => Fatal OutOfRange end.
Proof.
  unfold vec_at, vec_size. rewrite Nat2Z.id. case_bool_decide as Hlt; [done|].
  rewrite lookup_ge_None_2; [done|lia].
Qed.

Lemma vec_at_Z v (z : Z) :
  0 ≤ z →
  vec_at v z =
    match v !! Z.to_nat z with Some x => Value x | None => Fatal OutOfRange end.
Proof.
  intros Hz. rewrite <- (Z2Nat.id z) at 1 by done. apply vec_at_nat.
Qed.

Lemma vec_at_no_Failure v (idx : Z) (e : Error) : vec_at v idx ≠ Failure e.
Proof.
  unfold vec_at. case_bool_decide; [|done]. by destruct (v !! Z.to_nat idx).
Qed.

Lemma vec_at_ge v (idx : Z) : vec_size v ≤ idx → vec_at v idx = Fatal OutOfRange.
Proof. intros H. unfold vec_at. rewrite bool_decide_eq_false_2; [done|lia]. Qed.

Lemma vec_set_ok v (n : nat) (x : A) :
  (n < length v)%nat → vec_set v (Z.of_nat n) x = Value (<[n := x]> v).
Proof.
  intros H. unfold vec_set, vec_size.
  rewrite bool_decide_eq_true_2 by lia. by rewrite Nat2Z.id.
Qed.

(** The index [d + j], for [j = -1 - i], of the element [i] places from
    the end: inside the vector when [i < d], far outside otherwise. *)
Lemma from_end_in v (i : Z) :
  0 ≤ i < vec_size v → vec_size v ≤ INT_MAX →
  to_size_t (vec_size v + (-1 - i)) = vec_size v - 1 - i.
Proof.
  intros Hi Hd. rewrite to_size_t_small; unfold INT_MAX, SIZE_MOD in *; lia.
Qed.

Lemma from_end_out v (i : Z) :
  vec_size v ≤ i ≤ INT_MAX →
  vec_at v (to_size_t (vec_size v + (-1 - i))) = Fatal OutOfRange.
Proof.
  intros Hi. apply vec_at_ge. rewrite to_size_t_neg.
  - unfold INT_MAX, SIZE_MOD in *. lia.
  - unfold vec_size, INT_MAX, SIZE_MOD in *. lia.
Qed.

Lemma from_end_read v (i : Z) :
  0 ≤ i < vec_size v → vec_size v ≤ INT_MAX →
  ∃ x, v !! Z.to_nat (vec_size v - 1 - i) = Some x ∧
       vec_at v (to_size_t (vec_size v + (-1 - i))) = Value x.
Proof.
  intros Hi Hd. rewrite from_end_in by done.
  destruct (lookup_lt_is_Some_2 v (Z.to_nat (vec_size v - 1 - i))) as [x Hx].
  { unfold vec_size in *. lia. }
  exists x. split; [done|]. apply vec_at_Value; [lia|done].
Qed.
End Machine.

(** ** Loops *)

Section Loops.
Context {S : Type}.

(** A loop over an [int] counter that runs to its end has not taken
    the counter past [INT_MAX]. *)
Lemma for_loop_Value_bound (body : Z → S → Expected S) (i : Z) (n : nat)
    (s s' : S) :
  for_loop body i n s = Value s' → n = 0%nat ∨ i + Z.of_nat n ≤ INT_MAX.
Proof.
  revert i s. induction n as [|n IH]; intros i s H; [by left|right].
  simpl in H.
  apply bind_Value in H as (s1 & _ & H).
  apply bind_Value in H as (i' & Hi & H).
  unfold int_incr in Hi. case_bool_decide as Hlt; [|discriminate].
  injection Hi as <-.
  apply IH in H as [->|H]; lia.
Qed.

(** A loop of [n1 + n2] iterations is one of [n1] followed by one of
    [n2]. *)
Lemma for_loop_app (body : Z → S → Expected S) (i : Z) (n1 n2 : nat) (s : S) :
  for_loop body i (n1 + n2) s =
    s1 ← for_loop body i n1 s; for_loop body (i + Z.of_nat n1) n2 s1.
Proof.
  revert i s. induction n1 as [|n1 IH]; intros i s.
  - simpl. f_equal. lia.
  - cbn [Nat.add for_loop].
    destruct (body i s) as [s'| |]; [|reflexivity..]. cbn [mbind Expected_bind].
    unfold int_incr. case_bool_decide; [|reflexivity]. cbn [mbind Expected_bind].
    rewrite IH. do 2 f_equal. lia.
Qed.
End Loops.

(** ** binaryOp *)

Section BinaryOp.

Lemma binaryOp_body_eq (t0 t1 : list Z) (dim i : Z) (sh : list Z) :
  binaryOp_body t0 t1 dim i sh =
    y ← binaryOp_pick t0 t1 i; vec_set sh (to_size_t (dim + (-1 - i))) y.
Proof. reflexivity. Qed.

(** The loop fills the result from its end: after the iterations
    [i .. i+n-1] the first [n] places hold the chosen sizes in reverse
    order of choice. *)
Lemma binaryOp_loop (t0 t1 : list Z) (n : nat) (i : Z) (sh : list Z) :
  0 ≤ i → i + Z.of_nat n ≤ INT_MAX → vec_size sh = i + Z.of_nat n →
  for_loop (binaryOp_body t0 t1 (i + Z.of_nat n)) i n sh =
    ys ← mapM (binaryOp_pick t0 t1) (seqZ i (Z.of_nat n));
    Value (reverse ys ++ drop n sh).
Proof.
  revert i sh. induction n as [|n IH]; intros i sh Hi Hmax Hlen.
  - simpl. by rewrite drop_0.
  - rewrite seqZ_cons by lia. cbn [for_loop mapM].
    rewrite binaryOp_body_eq.
    destruct (binaryOp_pick t0 t1 i) as [y| |]; [|reflexivity..]. cbn [mbind Expected_bind].
    replace (to_size_t (i + Z.of_nat (Datatypes.S n) + (-1 - i)))
      with (Z.of_nat n).
    2:{ rewrite to_size_t_small; unfold INT_MAX, SIZE_MOD in *; lia. }
    rewrite vec_set_ok by (unfold vec_size in Hlen; lia).
    cbn [mbind Expected_bind].
    rewrite int_incr_ok by lia. cbn [mbind Expected_bind].
    replace (i + Z.of_nat (Datatypes.S n)) with ((i + 1) + Z.of_nat n) by lia.
    rewrite IH; [|lia|lia|unfold vec_size in *; rewrite length_insert; lia].
    replace (Z.pred (Z.of_nat (Datatypes.S n))) with (Z.of_nat n) by lia.
    replace (Z.succ i) with (i + 1) by lia.
    destruct (mapM (binaryOp_pick t0 t1) (seqZ (i + 1) (Z.of_nat n)))
      as [ys| |]; [|reflexivity..].
    cbn [mbind Expected_bind mret Expected_ret]. f_equal.
    rewrite reverse_cons, <- app_assoc. f_equal.
    rewrite insert_take_drop by (unfold vec_size in Hlen; lia).
    rewrite drop_app_length'; [done|].
    rewrite length_take. unfold vec_size in Hlen. lia.
Qed.

Lemma binaryOp_two (m0 m1 : VariableMeta) :
  binaryOp [m0; m1] =
    if bool_decide (vec_size (shape m1) = 1) then Value (shape m0)
    else
      let dim := Z.max (vec_size (shape m0)) (vec_size (shape m1)) in
      for_loop (binaryOp_body (shape m0) (shape m1) dim) 0 (Z.to_nat dim)
               (replicate (Z.to_nat dim) 0).
Proof. reflexivity. Qed.

(** The rule on two operands, without the loop. *)
Lemma binaryOp_unfold_Value (m0 m1 : VariableMeta) (s : list Z) :
  vec_size (shape m1) ≠ 1 →
  binaryOp [m0; m1] = Value s →
  let dim := Z.max (vec_size (shape m0)) (vec_size (shape m1)) in
  dim ≤ INT_MAX ∧
  ∃ ys, mapM (binaryOp_pick (shape m0) (shape m1)) (seqZ 0 dim) = Value ys ∧
        s = reverse ys.
Proof.
  intros Hd1 H dim. rewrite binaryOp_two in H.
  rewrite bool_decide_eq_false_2 in H by done. cbv zeta in H. fold dim in H.
  assert (Hdim : dim ≤ INT_MAX).
  { apply for_loop_Value_bound in H as [H|H]; unfold INT_MAX in *; lia. }
  split; [done|].
  assert (Hn : 0 + Z.of_nat (Z.to_nat dim) = dim) by (unfold dim, vec_size; lia).
  rewrite <- Hn in H at 1.
  rewrite binaryOp_loop in H.
  - rewrite Z2Nat.id in H by (unfold dim, vec_size; lia).
    apply bind_Value in H as (ys & Hys & H). exists ys. split; [done|].
    injection H as <-.
    rewrite drop_ge; [by rewrite app_nil_r|]. by rewrite length_replicate.
  - done.
  - lia.
  - unfold vec_size. rewrite length_replicate. lia.
Qed.

Lemma from_end_Some (t : list Z) (i : Z) :
  0 ≤ i < vec_size t → ∃ x, from_end t i = Some x.
Proof.
  intros Hi. unfold from_end. rewrite bool_decide_eq_true_2 by lia.
  apply lookup_lt_is_Some_2. unfold vec_size in *. lia.
Qed.

Lemma from_end_elem (t : list Z) (i x : Z) : from_end t i = Some x → x ∈ t.
Proof.
  unfold from_end. case_bool_decide; [|done]. apply list_elem_of_lookup_2.
Qed.

Lemma absent_or_one_from_end (t : list Z) (i : Z) :
  0 ≤ i ≤ INT_MAX → vec_size t ≤ INT_MAX →
  absent_or_one t (vec_size t) i (-1 - i) =
    Value (match from_end t i with Some x => bool_decide (x = 1) | None => true end)
  ∧ vec_at t (to_size_t (vec_size t + (-1 - i))) =
      match from_end t i with Some x => Value x | None => Fatal OutOfRange end.
Proof.
  intros Hi Hd. unfold absent_or_one, from_end.
  destruct (decide (i < vec_size t)) as [Hlt|Hge].
  - rewrite (bool_decide_eq_false_2 (vec_size t ≤ i)) by lia.
    rewrite (bool_decide_eq_true_2 (i < vec_size t)) by done.
    destruct (from_end_read t i) as (x & Hx & ->); [lia|done|].
    by rewrite Hx.
  - rewrite (bool_decide_eq_true_2 (vec_size t ≤ i)) by lia.
    rewrite (bool_decide_eq_false_2 (i < vec_size t)) by done.
    by rewrite from_end_out by lia.
Qed.

Lemma binaryOp_pick_eq (t0 t1 : list Z) (i : Z) :
  0 ≤ i ≤ INT_MAX → vec_size t0 ≤ INT_MAX → vec_size t1 ≤ INT_MAX →
  binaryOp_pick t0 t1 i = pick_of (from_end t0 i) (from_end t1 i).
Proof.
  intros Hi H0 H1. unfold binaryOp_pick. cbv zeta.
  destruct (absent_or_one_from_end t0 i Hi H0) as [-> ->].
  destruct (absent_or_one_from_end t1 i Hi H1) as [-> ->].
  destruct (from_end t0 i) as [x|], (from_end t1 i) as [y|]; simpl;
    repeat case_bool_decide; simpl; try done; congruence.
Qed.

(** The rule on two operands in closed form: a second operand of rank
    1 gives the first operand back; otherwise the sizes are chosen from the
    last dimension outwards, the first error among the choices being the
    result. *)
Lemma binaryOp_closed_form (m0 m1 : VariableMeta) :
  let t0 := shape m0 in
  let t1 := shape m1 in
  let dim := Z.max (vec_size t0) (vec_size t1) in
  dim ≤ INT_MAX →
  binaryOp [m0; m1] =
    if bool_decide (vec_size t1 = 1) then Value t0
    else ys ← mapM (λ i, pick_of (from_end t0 i) (from_end t1 i)) (seqZ 0 dim);
         Value (reverse ys).
Proof.
  cbv zeta. intros Hdim. rewrite binaryOp_two.
  case_bool_decide as Hscalar; [done|]. cbv zeta.
  set (dim := Z.max (vec_size (shape m0)) (vec_size (shape m1))) in *.
  assert (Hn : 0 + Z.of_nat (Z.to_nat dim) = dim) by (unfold dim, vec_size; lia).
  rewrite <- Hn at 1. rewrite binaryOp_loop; [|done|lia|].
  - rewrite Z2Nat.id by (unfold dim, vec_size; lia).
    rewrite (mapM_ext_in (binaryOp_pick (shape m0) (shape m1))
               (λ i, pick_of (from_end (shape m0) i) (from_end (shape m1) i))).
    + destruct (mapM _ (seqZ 0 dim)) as [ys| |] eqn:Hys; [|done..].
      cbn [mbind Expected_bind]. f_equal.
      rewrite drop_ge; [by rewrite app_nil_r|]. by rewrite length_replicate.
    + intros i Hi. apply elem_of_seqZ in Hi.
      apply binaryOp_pick_eq; unfold dim in *; lia.
  - unfold vec_size. rewrite length_replicate. lia.
Qed.

(** The choice does not depend on the order of the operands, when it
    is made in both orders. *)
Lemma pick_of_comm (a b : option Z) (x y : Z) :
  pick_of a b = Value x → pick_of b a = Value y → x = y.
Proof.
  destruct a as [u|], b as [v|]; simpl; repeat case_bool_decide;
    intros Hx Hy; simplify_eq; done.
Qed.

(** The rule on two operands of which the second is no scalar: the
    result is read from the choices, made from the last dimension
    outwards. *)
Lemma binaryOp_Value_lookup (m0 m1 : VariableMeta) (s : list Z) :
  vec_size (shape m1) ≠ 1 →
  binaryOp [m0; m1] = Value s →
  let dim := Z.max (vec_size (shape m0)) (vec_size (shape m1)) in
  vec_size s = dim ∧
  ∀ i, 0 ≤ i < dim →
    ∃ y, s !! Z.to_nat (dim - 1 - i) = Some y ∧
         pick_of (from_end (shape m0) i) (from_end (shape m1) i) = Value y.
Proof.
  intros Hd1 H dim.
  apply binaryOp_unfold_Value in H as (Hdim & ys & Hys & ->); [|done].
  fold dim in Hdim, Hys.
  pose proof (mapM_Value_length _ _ _ Hys) as Hlen.
  rewrite length_seqZ in Hlen.
  split. { unfold vec_size. rewrite length_reverse. unfold dim, vec_size in *. lia. }
  intros i Hi.
  destruct (mapM_Value_lookup _ _ _ Hys (Z.to_nat i) i) as (y & Hy & Hp).
  { rewrite lookup_seqZ. lia. }
  exists y. split.
  - rewrite reverse_lookup by lia. rewrite <- Hy. f_equal. lia.
  - rewrite <- Hp. symmetry. apply binaryOp_pick_eq; unfold dim in *; lia.
Qed.
End BinaryOp.

Section BinaryOpClaims.

(** The second operand of rank 1 is taken for a scalar: the first
    operand's shape is the result, whatever it is. *)
Lemma binaryOp_scalar (m0 m1 : VariableMeta) :
  vec_size (shape m1) = 1 → binaryOp [m0; m1] = Value (shape m0).
Proof. intros H. rewrite binaryOp_two. by rewrite bool_decide_eq_true_2. Qed.

(** The optional third input takes no part. *)
Lemma binaryOp_three (m0 m1 m2 : VariableMeta) :
  binaryOp [m0; m1; m2] = binaryOp [m0; m1].
Proof. reflexivity. Qed.

Example binaryOp_broadcast_example :
  binaryOp [ofShape [5; 1; 3]; ofShape [4; 3]] = Value [5; 4; 3].
Proof. by vm_compute. Qed.

Example binaryOp_scalar_example :
  binaryOp [ofShape [2; 3]; ofShape [3]] = Value [2; 3].
Proof. by vm_compute. Qed.

Example binaryOp_mismatch_example :
  binaryOp [ofShape [2; 3]; ofShape [2; 4]]
    = Failure (MAKE_ERR ShapeMismatch [3; 4]).
Proof. by vm_compute. Qed.

(** C1 (the code at the failing input): the first operand [1,2,3] has
    size 1 in the dimension the second operand [2,3] lacks; the loop takes
    the first branch on the size 1 and reads the second operand before its
    first element, where the claim gives the result [1,2,3]. *)
Theorem binaryOp_lacking_dim_against_one :
  binaryOp [ofShape [1; 2; 3]; ofShape [2; 3]] = Fatal OutOfRange.
Proof. vm_compute. reflexivity. Qed.

(** C2 (as stated, refuted): the shapes [1] and [5] are accepted in both
    orders and the two results differ. *)
Lemma binaryOp_comm_counterexample :
  binaryOp [ofShape [1]; ofShape [5]] = Value [1] ∧
  binaryOp [ofShape [5]; ofShape [1]] = Value [5] ∧
  ¬ (∀ (A B : VariableMeta) (sa sb : list Z),
       binaryOp [A; B] = Value sa → binaryOp [B; A] = Value sb → sa = sb).
Proof.
  split; [by vm_compute|]. split; [by vm_compute|].
  intros H.
  specialize (H (ofShape [1]) (ofShape [5]) [1] [5] eq_refl eq_refl).
  discriminate H.
Qed.

(** C2 (amended): for two shapes of which neither has rank 1, if the
    binary elementwise rule succeeds in both argument orders, the two
    results are equal. *)
Theorem binaryOp_comm (A B : VariableMeta) (sa sb : list Z) :
  vec_size (shape A) ≠ 1 → vec_size (shape B) ≠ 1 →
  binaryOp [A; B] = Value sa → binaryOp [B; A] = Value sb → sa = sb.
Proof.
  intros HA HB Hab Hba.
  apply binaryOp_Value_lookup in Hab as [Hla Hab]; [|done].
  apply binaryOp_Value_lookup in Hba as [Hlb Hba]; [|done].
  rewrite Z.max_comm in Hlb, Hba.
  set (dim := Z.max (vec_size (shape A)) (vec_size (shape B))) in *.
  apply list_eq_same_length with (Z.to_nat dim);
    [unfold vec_size in *; lia..|].
  intros n x y Hn Hx Hy.
  destruct (Hab (dim - 1 - Z.of_nat n)) as (x' & Hx' & Hpx); [lia|].
  destruct (Hba (dim - 1 - Z.of_nat n)) as (y' & Hy' & Hpy); [lia|].
  replace (Z.to_nat (dim - 1 - (dim - 1 - Z.of_nat n))) with n in Hx', Hy' by lia.
  simplify_eq. eapply pick_of_comm; eauto.
Qed.

Lemma binaryOp_comm_witness :
  vec_size (shape (ofShape [5; 1; 3])) ≠ 1 ∧
  vec_size (shape (ofShape [4; 3])) ≠ 1 ∧
  binaryOp [ofShape [5; 1; 3]; ofShape [4; 3]] = Value [5; 4; 3] ∧
  binaryOp [ofShape [4; 3]; ofShape [5; 1; 3]] = Value [5; 4; 3] ∧
  [5; 4; 3] = [5; 4; 3].
Proof.
  assert (H1 : vec_size (shape (ofShape [5; 1; 3])) ≠ 1) by (vm_compute; discriminate).
  assert (H2 : vec_size (shape (ofShape [4; 3])) ≠ 1) by (vm_compute; discriminate).
  assert (H3 : binaryOp [ofShape [5; 1; 3]; ofShape [4; 3]] = Value [5; 4; 3])
    by (vm_compute; reflexivity).
  assert (H4 : binaryOp [ofShape [4; 3]; ofShape [5; 1; 3]] = Value [5; 4; 3])
    by (vm_compute; reflexivity).
  split; [exact H1|]. split; [exact H2|]. split; [exact H3|]. split; [exact H4|].
  exact (binaryOp_comm _ _ _ _ H1 H2 H3 H4).
Defined.

End BinaryOpClaims.

(** ** mm and addmm *)

Section MatrixProduct.

Lemma mm_two (m0 m1 : VariableMeta) :
  mm [m0; m1] =
    if bool_decide (¬ (vec_size (shape m1) = 2 ∧ vec_size (shape m0) = 2))
    then Failure (MAKE_ERR RankMismatch [])
    else
      a ← vec_at (shape m0) 1;
      b ← vec_at (shape m1) 0;
      if bool_decide (a ≠ b) then Failure (MAKE_ERR ShapeMismatch [a; b])
      else x ← vec_at (shape m0) 0; y ← vec_at (shape m1) 1; Value [x; y].
Proof. reflexivity. Qed.

(** C6: the matrix-product rule fails with ArityMismatch unless it is
    given exactly 2 inputs, fails with RankMismatch unless both shapes
    have rank 2, fails with ShapeMismatch unless the first operand's
    second dimension equals the second operand's first dimension, and
    otherwise returns [t0[0], t1[1]]; mm([2,3],[3,4]) = [2,4] and
    mm([2,3],[4,5]) fails with ShapeMismatch. *)
Theorem mm_spec :
  (∀ metas : MetaStack,
     length metas ≠ 2%nat → mm metas = Failure (MAKE_ERR ArityMismatch [])) ∧
  (∀ m0 m1 : VariableMeta,
     ¬ (length (shape m0) = 2%nat ∧ length (shape m1) = 2%nat) →
     mm [m0; m1] = Failure (MAKE_ERR RankMismatch [])) ∧
  (∀ (m0 m1 : VariableMeta) (a0 a1 b0 b1 : Z),
     shape m0 = [a0; a1] → shape m1 = [b0; b1] → a1 ≠ b0 →
     mm [m0; m1] = Failure (MAKE_ERR ShapeMismatch [a1; b0])) ∧
  (∀ (m0 m1 : VariableMeta) (a0 a1 b0 b1 : Z),
     shape m0 = [a0; a1] → shape m1 = [b0; b1] → a1 = b0 →
     mm [m0; m1] = Value [a0; b1]) ∧
  mm [ofShape [2; 3]; ofShape [3; 4]] = Value [2; 4] ∧
  mm [ofShape [2; 3]; ofShape [4; 5]] = Failure (MAKE_ERR ShapeMismatch [3; 4]).
Proof.
  repeat apply conj.
  - intros metas Hlen. unfold mm.
    rewrite bool_decide_eq_true_2; [done|]. unfold vec_size. lia.
  - intros m0 m1 Hrank. rewrite mm_two.
    rewrite bool_decide_eq_true_2; [done|]. unfold vec_size. lia.
  - intros m0 m1 a0 a1 b0 b1 H0 H1 Hne. rewrite mm_two, H0, H1. simpl.
    by rewrite bool_decide_eq_true_2.
  - intros m0 m1 a0 a1 b0 b1 H0 H1 Heq. rewrite mm_two, H0, H1. simpl.
    rewrite bool_decide_eq_false_2; [done|]. by intros [].
  - by vm_compute.
  - by vm_compute.
Qed.

Lemma mm_spec_witness :
  mm [ofShape [7]] = Failure (MAKE_ERR ArityMismatch []) ∧
  mm [ofShape [2; 3; 4]; ofShape [4; 5]] = Failure (MAKE_ERR RankMismatch []) ∧
  mm [ofShape [2; 3]; ofShape [4; 5]] = Failure (MAKE_ERR ShapeMismatch [3; 4]) ∧
  mm [ofShape [2; 3]; ofShape [3; 4]] = Value [2; 4].
Proof.
  destruct mm_spec as (Harity & Hrank & Hne & Heq & _ & _).
  split; [|split; [|split]].
  - apply Harity. simpl. lia.
  - apply Hrank. simpl. intros [H _]. lia.
  - apply (Hne _ _ 2 3 4 5); [reflexivity|reflexivity|lia].
  - apply (Heq _ _ 2 3 3 4); reflexivity.
Defined.

(** C7 (the code at the failing input): the bias [1,2,4] has size 1 in
    the dimension that the matrix product [2,4] of [2,3] and [3,4] lacks;
    the matrix-product rule succeeds, and the binary rule, called on the
    bias and the product, takes its first branch on the size 1 and reads
    the product's shape before its first element, where the claim gives
    the product broadcast against the bias, [1,2,4]. *)
Theorem addmm_bias_lacking_dim :
  mm [ofShape [2; 3]; ofShape [3; 4]] = Value [2; 4] ∧
  binaryOp [ofShape [1; 2; 4]; ofShape [2; 4]] = Fatal OutOfRange ∧
  addmm [ofShape [1; 2; 4]; ofShape [2; 3]; ofShape [3; 4]] = Fatal OutOfRange.
Proof. repeat split; vm_compute; reflexivity. Qed.

End MatrixProduct.

(** ** constantChunk *)

Section ConstantChunk.

Lemma ceil_div_bounds (a b : Z) :
  0 < b → b * (ceil_div a b - 1) < a ≤ b * ceil_div a b.
Proof.
  intros Hb. unfold ceil_div.
  pose proof (Z.div_mod (- a) b ltac:(lia)) as Hdm.
  pose proof (Z.mod_pos_bound (- a) b Hb) as Hm. nia.
Qed.

(** For a size that is not negative the truncating division of the
    source rounds the quotient up. *)
Lemma quot_ceil_div (s chunks : Z) :
  0 ≤ s → 0 < chunks → Z.quot (s + chunks - 1) chunks = ceil_div s chunks.
Proof.
  intros Hs Hc. rewrite Z.quot_div_nonneg by lia.
  pose proof (ceil_div_bounds s chunks Hc) as Hb.
  symmetry. apply Z.div_unique with (s + chunks - 1 - chunks * ceil_div s chunks); lia.
Qed.

(** The normalized dimension and the range test on it. *)
Lemma constantChunk_dim (dim rank : Z) :
  0 ≤ rank ≤ INT64_MAX → INT64_MIN ≤ dim ≤ INT64_MAX →
  (if bool_decide (dim < 0) then add_size_t dim rank else dim)
    = normalize_dim dim rank
  ∧ ((to_size_t (normalize_dim dim rank) < rank ∧ 0 ≤ normalize_dim dim rank)
     ↔ 0 ≤ normalize_dim dim rank < rank).
Proof.
  intros Hrank Hdim. unfold normalize_dim. split.
  - case_bool_decide; [|done]. apply add_size_t_neg; lia.
  - split; [|intros H; rewrite to_size_t_small;
                unfold INT64_MAX, SIZE_MOD in *; lia].
    intros [Hlt Hpos]. rewrite to_size_t_small in Hlt; [lia|].
    case_bool_decide; unfold INT64_MIN, INT64_MAX, SIZE_MOD in *; lia.
Qed.

Lemma constantChunk_body_eq (t : list Z) (chunks dim c r i : Z)
    (outs : list (list Z)) :
  constantChunk_body t chunks dim c r i outs =
    sh ← vec_set t (to_size_t dim) (if bool_decide (i = chunks - 1) then r else c);
    Value (outs ++ [sh]).
Proof. reflexivity. Qed.

(** The loop appends one shape for each chunk. *)
Lemma constantChunk_loop (t : list Z) (chunks c r : Z) (d : nat) (n : nat)
    (i : Z) (outs : list (list Z)) :
  (d < length t)%nat → Z.of_nat d < SIZE_MOD → i + Z.of_nat n ≤ INT_MAX →
  for_loop (constantChunk_body t chunks (Z.of_nat d) c r) i n outs =
    Value (outs ++ ((λ k, <[d := if bool_decide (k = chunks - 1) then r else c]> t)
                      <$> seqZ i (Z.of_nat n))).
Proof.
  intros Hd Hsz. revert i outs. induction n as [|n IH]; intros i outs Hmax.
  - simpl. by rewrite app_nil_r.
  - rewrite seqZ_cons by lia. cbn [for_loop].
    rewrite constantChunk_body_eq.
    rewrite to_size_t_small by lia.
    rewrite vec_set_ok by done. cbn [mbind Expected_bind].
    rewrite int_incr_ok by lia. cbn [mbind Expected_bind].
    rewrite IH by lia.
    replace (Z.pred (Z.of_nat (Datatypes.S n))) with (Z.of_nat n) by lia.
    replace (Z.succ i) with (i + 1) by lia.
    by rewrite fmap_cons, <- app_assoc.
Qed.

(** The product [c * (chunks - 1)] stays between 0 and the numerator. *)
Lemma quot_times_pred (a chunks : Z) :
  0 < chunks →
  let p := Z.quot a chunks * (chunks - 1) in
  (0 ≤ a → 0 ≤ Z.quot a chunks ≤ a ∧ 0 ≤ p ≤ a) ∧
  (a ≤ 0 → a ≤ Z.quot a chunks ≤ 0 ∧ a ≤ p ≤ 0).
Proof.
  intros Hc p. unfold p. pose proof (Z.quot_rem' a chunks) as Hqr.
  set (q := Z.quot a chunks) in *. set (m := Z.rem a chunks) in *.
  split; intros Ha.
  - pose proof (Z.rem_bound_pos_pos a chunks Hc Ha) as Hm. fold m in Hm.
    assert (0 ≤ q) by nia.
    assert (q * (chunks - 1) = a - m - q) by lia.
    assert (0 ≤ q * (chunks - 1)) by (apply Z.mul_nonneg_nonneg; lia).
    lia.
  - pose proof (Z.rem_bound_pos_neg a chunks Hc Ha) as Hm. fold m in Hm.
    assert (q ≤ 0) by nia.
    assert (q * (chunks - 1) = a - m - q) by lia.
    assert (q * (chunks - 1) ≤ 0) by (apply Z.mul_nonpos_nonneg; lia).
    lia.
Qed.

(** The rule on one input, with the dimension normalized. *)
Lemma constantChunk_one (m : VariableMeta) (chunks dim : Z) :
  vec_size (shape m) ≤ INT64_MAX → INT64_MIN ≤ dim ≤ INT64_MAX →
  let t := shape m in
  let nd := normalize_dim dim (vec_size t) in
  constantChunk [m] chunks dim =
    if bool_decide (0 ≤ nd < vec_size t) then
      s ← vec_at t nd;
      n ← int64 (s + chunks);
      n ← int64 (n - 1);
      c ← div64 n chunks;
      k ← int64 (chunks - 1);
      p ← int64 (c * k);
      r ← int64 (s - p);
      for_loop (constantChunk_body t chunks nd c r) 0 (Z.to_nat chunks) []
    else Failure (MAKE_ERR DimOutOfRange []).
Proof.
  intros Hrank Hdim. cbv zeta. set (t := shape m) in *.
  set (nd := normalize_dim dim (vec_size t)). unfold constantChunk.
  rewrite bool_decide_eq_false_2 by (intros H; by apply H).
  rewrite (vec_at_nat _ 0). cbn [lookup list_lookup fmap Expected_fmap mbind Expected_bind].
  fold t.
  destruct (constantChunk_dim dim (vec_size t)) as [-> Hiff];
    [unfold vec_size in *; lia|done|]. fold nd in Hiff |- *.
  destruct (decide (0 ≤ nd < vec_size t)) as [Hin|Hout].
  - rewrite bool_decide_eq_false_2 by (intros H; apply H; by apply Hiff).
    rewrite (bool_decide_eq_true_2 _ Hin).
    rewrite to_size_t_small; [done|]. unfold INT64_MAX, SIZE_MOD in *. lia.
  - rewrite bool_decide_eq_true_2 by (intros H; by apply Hout, Hiff).
    by rewrite (bool_decide_eq_false_2 _ Hout).
Qed.

(** The rule succeeds on a valid dimension and a chunk count from 1 to
    [INT_MAX] when the size split is moderate, and lists the chunks. *)
Lemma constantChunk_Value (m : VariableMeta) (chunks dim s : Z) :
  let t := shape m in
  let nd := normalize_dim dim (vec_size t) in
  vec_size t ≤ INT64_MAX → INT64_MIN ≤ dim ≤ INT64_MAX →
  0 ≤ nd < vec_size t → t !! Z.to_nat nd = Some s →
  1 ≤ chunks ≤ INT_MAX →
  INT64_MIN ≤ s → s + chunks ≤ INT64_MAX →
  constantChunk [m] chunks dim =
    Value (chunk_shape t (Z.to_nat nd) s chunks <$> seqZ 0 chunks).
Proof.
  cbv zeta. set (t := shape m). set (nd := normalize_dim dim (vec_size t)).
  intros Hrank Hdim Hnd Hs Hchunks Hmin Hmax.
  rewrite constantChunk_one by done. fold t nd.
  rewrite bool_decide_eq_true_2 by done.
  assert (Hat : vec_at t nd = Value s) by (apply vec_at_Value; [lia|done]).
  rewrite Hat. cbn [mbind Expected_bind].
  unfold INT_MAX, INT64_MIN, INT64_MAX in Hchunks, Hmin, Hmax.
  rewrite int64_ok by (unfold INT64_MIN, INT64_MAX; lia). cbn [mbind Expected_bind].
  rewrite int64_ok by (unfold INT64_MIN, INT64_MAX; lia). cbn [mbind Expected_bind].
  unfold div64. rewrite bool_decide_eq_false_2 by lia.
  destruct (quot_times_pred (s + chunks - 1) chunks) as [Hpos Hneg]; [lia|].
  rewrite int64_ok.
  2:{ unfold INT64_MIN, INT64_MAX. destruct (decide (0 ≤ s + chunks - 1)); lia. }
  cbn [mbind Expected_bind].
  rewrite int64_ok by (unfold INT64_MIN, INT64_MAX; lia). cbn [mbind Expected_bind].
  rewrite int64_ok.
  2:{ unfold INT64_MIN, INT64_MAX. destruct (decide (0 ≤ s + chunks - 1)); lia. }
  cbn [mbind Expected_bind].
  rewrite int64_ok.
  2:{ unfold INT64_MIN, INT64_MAX. destruct (decide (0 ≤ s + chunks - 1)); lia. }
  cbn [mbind Expected_bind].
  replace nd with (Z.of_nat (Z.to_nat nd)) at 1 by lia.
  rewrite constantChunk_loop.
  - rewrite Z2Nat.id by lia. reflexivity.
  - unfold vec_size in *. lia.
  - unfold vec_size, INT64_MAX, SIZE_MOD in *. lia.
  - unfold INT_MAX. lia.
Qed.

(** Conversely, a result of the rule for a positive chunk count is that
    list of chunks. *)
Lemma constantChunk_Value_inv (m : VariableMeta) (chunks dim : Z)
    (outs : list (list Z)) :
  let t := shape m in
  let nd := normalize_dim dim (vec_size t) in
  vec_size t ≤ INT64_MAX → INT64_MIN ≤ dim ≤ INT64_MAX → 1 ≤ chunks →
  constantChunk [m] chunks dim = Value outs →
  0 ≤ nd < vec_size t ∧ chunks ≤ INT_MAX ∧
  ∃ s, t !! Z.to_nat nd = Some s ∧
       outs = chunk_shape t (Z.to_nat nd) s chunks <$> seqZ 0 chunks.
Proof.
  cbv zeta. set (t := shape m). set (nd := normalize_dim dim (vec_size t)).
  intros Hrank Hdim Hchunks H.
  rewrite constantChunk_one in H by done. fold t nd in H.
  case_bool_decide as Hnd; [|discriminate]. split; [done|].
  apply bind_Value in H as (s & Hs & H).
  apply vec_at_Value in Hs; [|lia].
  apply bind_Value in H as (n1 & Hn1 & H). apply int64_Value in Hn1 as [-> Hn1].
  apply bind_Value in H as (n2 & Hn2 & H). apply int64_Value in Hn2 as [-> Hn2].
  apply bind_Value in H as (c & Hc & H).
  unfold div64 in Hc. case_bool_decide; [discriminate|].
  apply int64_Value in Hc as [-> Hc].
  apply bind_Value in H as (k & Hk & H). apply int64_Value in Hk as [-> Hk].
  apply bind_Value in H as (p & Hp & H). apply int64_Value in Hp as [-> Hp].
  apply bind_Value in H as (r & Hr & H). apply int64_Value in Hr as [-> Hr].
  assert (Hmax : chunks ≤ INT_MAX).
  { apply for_loop_Value_bound in H as [H|H]; lia. }
  split; [done|]. exists s. split; [done|].
  replace nd with (Z.of_nat (Z.to_nat nd)) in H at 1 by lia.
  rewrite constantChunk_loop in H.
  - rewrite Z2Nat.id in H by lia. by injection H as <-.
  - unfold vec_size in *. lia.
  - unfold vec_size, INT64_MAX, SIZE_MOD in *. lia.
  - lia.
Qed.

Lemma size_at_insert (t : list Z) (d : nat) (v : Z) :
  (d < length t)%nat → size_at d (<[d := v]> t) = v.
Proof. intros H. unfold size_at. by rewrite list_lookup_insert_eq. Qed.

Lemma total_at_cons (d : nat) (t : list Z) (ts : list (list Z)) :
  total_at d (t :: ts) = size_at d t + total_at d ts.
Proof. reflexivity. Qed.

Lemma total_at_app (d : nat) (xs ys : list (list Z)) :
  total_at d (xs ++ ys) = total_at d xs + total_at d ys.
Proof.
  induction xs as [|x xs IH]; simpl; [done|].
  fold (total_at d (xs ++ ys)). fold (total_at d xs). lia.
Qed.

Lemma total_at_replicate (d : nat) (n : nat) (t : list Z) :
  total_at d (replicate n t) = Z.of_nat n * size_at d t.
Proof.
  induction n as [|n IH]; [done|].
  cbn [replicate total_at foldr]. fold (total_at d (replicate n t)). lia.
Qed.

(** All the chunks but the last are one shape. *)
Lemma chunks_replicate (t : list Z) (d : nat) (s chunks : Z) :
  1 ≤ chunks →
  chunk_shape t d s chunks <$> seqZ 0 chunks =
    replicate (Z.to_nat (chunks - 1)) (<[d := Z.quot (s + chunks - 1) chunks]> t)
    ++ [<[d := s - Z.quot (s + chunks - 1) chunks * (chunks - 1)]> t].
Proof.
  intros Hc.
  assert (Hsplit : seqZ 0 chunks = seqZ 0 (chunks - 1) ++ [chunks - 1]).
  { replace chunks with ((chunks - 1) + 1) at 1 by lia.
    rewrite seqZ_app by lia. f_equal. }
  rewrite Hsplit, fmap_app. f_equal.
  - rewrite <- (length_seqZ 0 (chunks - 1)).
    rewrite <- (const_fmap (λ _, <[d := Z.quot (s + chunks - 1) chunks]> t)) by done.
    apply Forall_fmap_ext_1, Forall_seqZ. intros k Hk.
    unfold chunk_shape. by rewrite bool_decide_eq_false_2 by lia.
  - simpl. unfold chunk_shape. by rewrite bool_decide_eq_true_2 by lia.
Qed.
End ConstantChunk.

Section ConstantChunkClaims.

(** C4: on one input shape, a negative [dim] is normalized by adding the
    rank; the rule fails with DimOutOfRange when the normalized [dim] is not
    within [0, rank); on a valid [dim] it returns exactly [chunks] shapes,
    each the input shape but at [dim], where all but the last have the size
    ceil(dim_size / chunks) and the last has
    dim_size - ceil(dim_size / chunks) * (chunks - 1); the split of [10,8]
    at 0 into 3 chunks is [[4,8],[4,8],[2,8]]. *)
Theorem constantChunk_spec (m : VariableMeta) (chunks dim : Z) :
  let t := shape m in
  let nd := normalize_dim dim (vec_size t) in
  vec_size t ≤ INT64_MAX → INT64_MIN ≤ dim ≤ INT64_MAX →
  (¬ (0 ≤ nd < vec_size t) →
   constantChunk [m] chunks dim = Failure (MAKE_ERR DimOutOfRange [])) ∧
  (∀ s : Z,
     0 ≤ nd < vec_size t → t !! Z.to_nat nd = Some s → 0 ≤ s →
     1 ≤ chunks ≤ INT_MAX → s + chunks ≤ INT64_MAX →
     let c := ceil_div s chunks in
     ∃ outs : list (list Z),
       constantChunk [m] chunks dim = Value outs ∧
       Z.of_nat (length outs) = chunks ∧
       outs = replicate (Z.to_nat (chunks - 1)) (<[Z.to_nat nd := c]> t)
              ++ [<[Z.to_nat nd := s - c * (chunks - 1)]> t]) ∧
  constantChunk [ofShape [10; 8]] 3 0 = Value [[4; 8]; [4; 8]; [2; 8]].
Proof.
  cbv zeta. set (t := shape m). set (nd := normalize_dim dim (vec_size t)).
  intros Hrank Hdim. repeat apply conj.
  - intros Hout. rewrite constantChunk_one by done. fold t nd.
    by rewrite bool_decide_eq_false_2.
  - intros s Hnd Hs Hpos Hchunks Hmax.
    eexists. split; [|split; [|reflexivity]].
    + rewrite (constantChunk_Value m chunks dim s); try done.
      * rewrite chunks_replicate by lia. fold t nd.
        by rewrite quot_ceil_div by lia.
      * unfold INT64_MIN. lia.
    + rewrite length_app, length_replicate. simpl. lia.
  - by vm_compute.
Qed.

Lemma constantChunk_spec_witness :
  constantChunk [ofShape [10; 8]] 3 (-2) = Value [[4; 8]; [4; 8]; [2; 8]] ∧
  constantChunk [ofShape [10; 8]] 3 2 = Failure (MAKE_ERR DimOutOfRange []).
Proof.
  assert (Hrank : vec_size (shape (ofShape [10; 8])) ≤ INT64_MAX) by (by vm_compute).
  split.
  - assert (Hdim : INT64_MIN ≤ -2 ≤ INT64_MAX) by (by vm_compute).
    destruct (constantChunk_spec (ofShape [10; 8]) 3 (-2) Hrank Hdim)
      as (_ & Hok & _).
    destruct (Hok 10) as (outs & -> & _ & ->).
    + by vm_compute.
    + reflexivity.
    + lia.
    + by vm_compute.
    + by vm_compute.
    + by vm_compute.
  - assert (Hdim : INT64_MIN ≤ 2 ≤ INT64_MAX) by (by vm_compute).
    destruct (constantChunk_spec (ofShape [10; 8]) 3 2 Hrank Hdim)
      as (Hout & _ & _).
    apply Hout. vm_compute. intros [_ H]. discriminate H.
Defined.

(** C10: for every input shape, valid normalized split dimension and
    chunk count of at least 1, the sizes at the split dimension of the
    shapes the rule returns add up to the input's size there, their number
    being the chunk count; the rule does return, for a count up to
    [INT_MAX] and sizes for which the 64-bit arithmetic does not overflow,
    also when the last chunk's size comes out zero or negative. *)
Theorem constantChunk_conserves (m : VariableMeta) (chunks dim : Z) :
  let t := shape m in
  let nd := normalize_dim dim (vec_size t) in
  vec_size t ≤ INT64_MAX → INT64_MIN ≤ dim ≤ INT64_MAX →
  0 ≤ nd < vec_size t → 1 ≤ chunks →
  (∀ outs : list (list Z),
     constantChunk [m] chunks dim = Value outs →
     Z.of_nat (length outs) = chunks ∧
     total_at (Z.to_nat nd) outs = size_at (Z.to_nat nd) t) ∧
  (chunks ≤ INT_MAX → INT64_MIN ≤ size_at (Z.to_nat nd) t →
   size_at (Z.to_nat nd) t + chunks ≤ INT64_MAX →
   ∃ outs : list (list Z), constantChunk [m] chunks dim = Value outs).
Proof.
  cbv zeta. set (t := shape m). set (nd := normalize_dim dim (vec_size t)).
  intros Hrank Hdim Hnd Hchunks.
  assert (Hlt : (Z.to_nat nd < length t)%nat) by (unfold vec_size in *; lia).
  split.
  - intros outs H.
    apply constantChunk_Value_inv in H as (_ & Hmax & s & Hs & ->); try done.
    fold t nd in Hs |- *. split.
    + rewrite length_fmap, length_seqZ. lia.
    + rewrite chunks_replicate by done.
      rewrite total_at_app, total_at_replicate. cbn [total_at foldr].
      rewrite !size_at_insert by done.
      unfold size_at. rewrite Hs. rewrite Z2Nat.id by lia.
      change (default 0 (Some s)) with s. ring.
  - intros Hmax Hlo Hhi.
    destruct (lookup_lt_is_Some_2 t (Z.to_nat nd) Hlt) as [s Hs].
    unfold size_at in Hlo, Hhi. fold t nd in Hlo, Hhi. rewrite Hs in Hlo, Hhi.
    simpl in Hlo, Hhi.
    eexists. by apply (constantChunk_Value m chunks dim s).
Qed.

Lemma constantChunk_conserves_witness :
  constantChunk [ofShape [3]] 5 0 = Value [[1]; [1]; [1]; [1]; [-1]] ∧
  total_at 0 [[1]; [1]; [1]; [1]; [-1]] = 3.
Proof.
  assert (H : constantChunk [ofShape [3]] 5 0 = Value [[1]; [1]; [1]; [1]; [-1]])
    by (by vm_compute).
  split; [exact H|].
  assert (Hrank : vec_size (shape (ofShape [3])) ≤ INT64_MAX) by (by vm_compute).
  assert (Hdim : INT64_MIN ≤ 0 ≤ INT64_MAX) by (by vm_compute).
  assert (Hnd : 0 ≤ normalize_dim 0 (vec_size (shape (ofShape [3])))
                  < vec_size (shape (ofShape [3]))) by (by vm_compute).
  assert (Hchunks : 1 ≤ 5) by lia.
  destruct (constantChunk_conserves (ofShape [3]) 5 0 Hrank Hdim Hnd Hchunks)
    as [Hsum _].
  exact (proj2 (Hsum _ H)).
Defined.

End ConstantChunkClaims.

(** ** fusedConcat *)

Section FusedConcat.

Lemma fusedConcat_inner_eq (ti : list Z) (dim j : Z) (sh : list Z) :
  fusedConcat_inner ti dim j sh =
    if bool_decide (j = dim) then
      a ← vec_at sh (to_size_t dim);
      b ← vec_at ti (to_size_t dim);
      s ← int64 (a + b);
      vec_set sh (to_size_t dim) s
    else
      a ← vec_at sh (to_size_t j);
      b ← vec_at ti (to_size_t j);
      if bool_decide (¬ (a = b)) then Failure (MAKE_ERR ShapeMismatch [dim])
      else Value sh.
Proof. reflexivity. Qed.

(** Storing at the concat dimension does not change whether the other
    dimensions agree. *)
Lemma agree_insert (ti sh : list Z) (d : nat) (v : Z) (i n : Z) :
  0 ≤ i →
  Forall (λ j : Z, j ≠ Z.of_nat d →
            <[d := v]> sh !! Z.to_nat j = ti !! Z.to_nat j) (seqZ i n)
  ↔ Forall (λ j : Z, j ≠ Z.of_nat d → sh !! Z.to_nat j = ti !! Z.to_nat j)
           (seqZ i n).
Proof.
  intros Hi. rewrite !Forall_forall.
  split; intros H j Hj Hjd; specialize (H j Hj Hjd);
    apply elem_of_seqZ in Hj;
    rewrite list_lookup_insert_ne in * by lia; done.
Qed.

(** The loop over the dimensions of one later input of the right rank:
    it adds the input's size at the concat dimension and fails at the
    first other dimension where the sizes differ. *)
Lemma fusedConcat_inner_loop (ti : list Z) (d : nat) (b : Z) (n : nat) :
  ti !! d = Some b →
  ∀ (i : Z) (sh : list Z) (a : Z),
    length ti = length sh → (d < length sh)%nat → 0 ≤ i →
    i + Z.of_nat n = Z.of_nat (length sh) → Z.of_nat (length sh) ≤ INT_MAX →
    sh !! d = Some a →
    (i ≤ Z.of_nat d → INT64_MIN ≤ a + b ≤ INT64_MAX) →
    for_loop (fusedConcat_inner ti (Z.of_nat d)) i n sh =
      if bool_decide (Forall (λ j : Z, j ≠ Z.of_nat d →
                                sh !! Z.to_nat j = ti !! Z.to_nat j)
                             (seqZ i (Z.of_nat n)))
      then Value (if bool_decide (i ≤ Z.of_nat d) then <[d := a + b]> sh else sh)
      else Failure (MAKE_ERR ShapeMismatch [Z.of_nat d]).
Proof.
  intros Hb. induction n as [|n IH]; intros i sh a Hlen Hd Hi Hend Hmax Ha Hov.
  - simpl. rewrite bool_decide_eq_false_2 by lia. done.
  - rewrite seqZ_cons by lia. cbn [for_loop].
    replace (Z.pred (Z.of_nat (Datatypes.S n))) with (Z.of_nat n) by lia.
    replace (Z.succ i) with (i + 1) by lia.
    rewrite fusedConcat_inner_eq.
    assert (Hsmall : ∀ z, 0 ≤ z ≤ INT_MAX → to_size_t z = z).
    { intros z Hz. apply to_size_t_small. unfold INT_MAX, SIZE_MOD in *. lia. }
    destruct (decide (i = Z.of_nat d)) as [->|Hne].
    + rewrite bool_decide_eq_true_2 by done.
      rewrite Hsmall by lia. rewrite !vec_at_nat, Ha, Hb. cbn [mbind Expected_bind].
      rewrite int64_ok by (apply Hov; lia). cbn [mbind Expected_bind].
      rewrite vec_set_ok by done. cbn [mbind Expected_bind].
      rewrite int_incr_ok by lia. cbn [mbind Expected_bind].
      rewrite (IH _ _ (a + b)).
      * rewrite (bool_decide_eq_false_2 (Z.of_nat d + 1 ≤ Z.of_nat d)) by lia.
        rewrite (bool_decide_eq_true_2 (Z.of_nat d ≤ Z.of_nat d)) by lia.
        apply (f_equal (λ c : bool, if c then _ else _)).
        apply bool_decide_ext. rewrite Forall_cons, agree_insert by lia.
        split; [by intros H; split|by intros [_ H]].
      * by rewrite length_insert.
      * by rewrite length_insert.
      * lia.
      * rewrite length_insert. lia.
      * rewrite length_insert. lia.
      * by rewrite list_lookup_insert_eq.
      * lia.
    + rewrite (bool_decide_eq_false_2 (i = Z.of_nat d)) by done.
      rewrite Hsmall by lia.
      rewrite !vec_at_Z by lia.
      destruct (lookup_lt_is_Some_2 sh (Z.to_nat i)) as [x Hx]; [lia|].
      destruct (lookup_lt_is_Some_2 ti (Z.to_nat i)) as [y Hy]; [lia|].
      rewrite Hx, Hy. cbn [mbind Expected_bind].
      destruct (decide (x = y)) as [->|Hxy].
      * rewrite (bool_decide_eq_false_2 (¬ y = y)) by (intros H; by apply H).
        cbn [mbind Expected_bind].
        rewrite int_incr_ok by lia. cbn [mbind Expected_bind].
        rewrite (IH _ _ a); try done; try lia.
        rewrite (bool_decide_ext (i + 1 ≤ Z.of_nat d) (i ≤ Z.of_nat d)) by lia.
        apply (f_equal (λ c : bool, if c then _ else _)).
        apply bool_decide_ext. rewrite Forall_cons. split; [|by intros [_ H]].
        intros H. split; [|done]. intros _. by rewrite Hx, Hy.
      * rewrite (bool_decide_eq_true_2 (¬ x = y)) by done.
        rewrite bool_decide_eq_false_2; [done|].
        rewrite Forall_cons. intros [H _]. specialize (H Hne).
        rewrite Hx, Hy in H. congruence.
Qed.

(** Over the whole range of dimensions, agreement with the running
    shape is compatibility with the first input. *)
Lemma agree_compatible (t0 ti : list Z) (d : nat) (acc : Z) :
  length ti = length t0 →
  Forall (λ j : Z, j ≠ Z.of_nat d →
            <[d := acc]> t0 !! Z.to_nat j = ti !! Z.to_nat j)
         (seqZ 0 (Z.of_nat (length t0)))
  ↔ compatible t0 d ti.
Proof.
  intros Hlen. rewrite agree_insert by done. rewrite Forall_forall.
  unfold compatible. split.
  - intros H. split; [done|]. intros j Hj.
    destruct (decide (j < length t0)%nat) as [Hlt|Hge].
    + specialize (H (Z.of_nat j)). rewrite Nat2Z.id in H. symmetry. apply H.
      * apply elem_of_seqZ. lia.
      * lia.
    + rewrite !lookup_ge_None_2 by lia. done.
  - intros [_ H] j Hj Hjd. symmetry. apply H. apply elem_of_seqZ in Hj. lia.
Qed.

(** One later input: its rank is compared, then its dimensions. *)
Lemma fusedConcat_outer_step (metas : MetaStack) (t0 : list Z) (d : nat)
    (i : Z) (mi : VariableMeta) (acc : Z) :
  metas !! Z.to_nat i = Some mi → 0 ≤ i ≤ INT_MAX →
  (d < length t0)%nat → Z.of_nat (length t0) ≤ INT_MAX →
  INT64_MIN ≤ acc + size_at d (shape mi) ≤ INT64_MAX →
  let step :=
    fusedConcat_outer metas (Z.of_nat (length t0)) (Z.of_nat d) i (<[d := acc]> t0) in
  (length (shape mi) ≠ length t0 → step = Failure (MAKE_ERR RankMismatch [])) ∧
  (compatible t0 d (shape mi) →
   step = Value (<[d := acc + size_at d (shape mi)]> t0)) ∧
  (length (shape mi) = length t0 → ¬ compatible t0 d (shape mi) →
   step = Failure (MAKE_ERR ShapeMismatch [Z.of_nat d])).
Proof.
  intros Hmi Hi Hd Hrank Hov. cbv zeta. unfold fusedConcat_outer.
  rewrite (to_size_t_small i) by (unfold INT_MAX, SIZE_MOD in *; lia).
  rewrite (to_size_t_small (Z.of_nat (length t0)))
    by (unfold INT_MAX, SIZE_MOD in *; lia).
  rewrite vec_at_Z by lia. rewrite Hmi.
  cbn [fmap Expected_fmap mbind Expected_bind].
  assert (Hsame : length (shape mi) = length t0 →
    (if bool_decide (¬ Z.of_nat (length t0) = vec_size (shape mi))
     then Failure (MAKE_ERR RankMismatch [])
     else for_loop (fusedConcat_inner (shape mi) (Z.of_nat d)) 0
            (Z.to_nat (Z.of_nat (length t0))) (<[d := acc]> t0)) =
    if bool_decide (Forall (λ j : Z, j ≠ Z.of_nat d →
                              <[d := acc]> t0 !! Z.to_nat j = shape mi !! Z.to_nat j)
                           (seqZ 0 (Z.of_nat (length t0))))
    then Value (<[d := acc + size_at d (shape mi)]> t0)
    else Failure (MAKE_ERR ShapeMismatch [Z.of_nat d])).
  { intros Hlen.
    rewrite bool_decide_eq_false_2 by (unfold vec_size; intros H; apply H; lia).
    rewrite Nat2Z.id.
    destruct (lookup_lt_is_Some_2 (shape mi) d) as [b Hb]; [lia|].
    assert (Hsz : size_at d (shape mi) = b) by (unfold size_at; by rewrite Hb).
    rewrite Hsz in *.
    rewrite (fusedConcat_inner_loop (shape mi) d b (length t0) Hb 0
               (<[d := acc]> t0) acc).
    - rewrite (bool_decide_eq_true_2 (0 ≤ Z.of_nat d)) by lia.
      by rewrite list_insert_insert_eq.
    - by rewrite length_insert.
    - by rewrite length_insert.
    - done.
    - rewrite length_insert. lia.
    - by rewrite length_insert.
    - by rewrite list_lookup_insert_eq.
    - done. }
  repeat apply conj.
  - intros Hlen. by rewrite bool_decide_eq_true_2 by (unfold vec_size; lia).
  - intros Hc. rewrite Hsame by apply Hc.
    rewrite bool_decide_eq_true_2; [done|]. apply agree_compatible; [apply Hc|done].
  - intros Hlen Hc. rewrite Hsame by done.
    rewrite bool_decide_eq_false_2; [done|]. by rewrite agree_compatible.
Qed.

(** The loop over later inputs that all go with the first one adds up
    their sizes at the concat dimension. *)
Lemma fusedConcat_outer_prefix (t0 : list Z) (d : nat) (pre back : MetaStack) :
  (d < length t0)%nat → Z.of_nat (length t0) ≤ INT_MAX →
  Forall (λ m, compatible t0 d (shape m)) pre →
  Forall (λ m, 0 ≤ size_at d (shape m)) pre →
  ∀ (front : MetaStack) (acc : Z),
    Z.of_nat (length (front ++ pre ++ back)) ≤ INT_MAX →
    0 ≤ acc → acc + total_at d (shape <$> pre) ≤ INT64_MAX →
    for_loop (fusedConcat_outer (front ++ pre ++ back) (Z.of_nat (length t0))
                                (Z.of_nat d))
             (Z.of_nat (length front)) (length pre) (<[d := acc]> t0) =
      Value (<[d := acc + total_at d (shape <$> pre)]> t0).
Proof.
  intros Hd Hrank Hcompat Hpos.
  induction pre as [|mi pre IH]; intros front acc Hlen Hacc Hsum.
  - simpl. do 2 f_equal. lia.
  - apply Forall_cons in Hcompat as [Hmi Hcompat].
    apply Forall_cons in Hpos as [Hmi0 Hpos].
    cbn [fmap list_fmap total_at foldr] in Hsum.
    fold (total_at d (shape <$> pre)) in Hsum.
    assert (Htot : 0 ≤ total_at d (shape <$> pre)).
    { clear -Hpos. induction Hpos as [|m l Hm _ IHl]; [done|].
      cbn [fmap list_fmap total_at foldr]. fold (total_at d (shape <$> l)). lia. }
    rewrite !length_app in Hlen. cbn [length] in Hlen.
    cbn [length for_loop].
    destruct (fusedConcat_outer_step (front ++ (mi :: pre) ++ back) t0 d
                (Z.of_nat (length front)) mi acc) as (_ & -> & _); try done.
    + rewrite Nat2Z.id. rewrite lookup_app_r by lia.
      by rewrite Nat.sub_diag.
    + lia.
    + unfold INT64_MIN. lia.
    + cbn [mbind Expected_bind].
      rewrite int_incr_ok by lia. cbn [mbind Expected_bind].
      specialize (IH Hcompat Hpos (front ++ [mi]) (acc + size_at d (shape mi))).
      rewrite <- !app_assoc in IH. cbn [app] in IH.
      replace (Z.of_nat (length (front ++ [mi])))
        with (Z.of_nat (length front) + 1) in IH
        by (rewrite length_app; cbn [length]; lia).
      change ((mi :: pre) ++ back) with (mi :: pre ++ back).
      rewrite IH.
      * cbn [fmap list_fmap total_at foldr].
        fold (total_at d (shape <$> pre)). do 2 f_equal. lia.
      * rewrite !length_app. cbn [length]. rewrite length_app. lia.
      * lia.
      * lia.
Qed.

Lemma size_at_nonneg (d : nat) (t : list Z) :
  Forall (λ z, 0 ≤ z) t → 0 ≤ size_at d t.
Proof.
  intros H. unfold size_at. destruct (t !! d) as [x|] eqn:Hx; [|done].
  simpl. by apply (Forall_lookup_1 _ _ _ _ H Hx).
Qed.

Lemma total_at_nonneg (d : nat) (ts : list (list Z)) :
  Forall (Forall (λ z, 0 ≤ z)) ts → 0 ≤ total_at d ts.
Proof.
  induction 1 as [|t ts Ht _ IH]; [done|].
  cbn [total_at foldr]. fold (total_at d ts).
  pose proof (size_at_nonneg d t Ht). lia.
Qed.

(** The rule on two inputs or more, up to the loop over the later
    inputs. *)
Lemma fusedConcat_many (m0 m1 : VariableMeta) (rest : MetaStack) (dim : Z) :
  let t0 := shape m0 in
  let nd := normalize_dim dim (vec_size t0) in
  vec_size t0 ≤ INT_MAX → INT64_MIN ≤ dim ≤ INT64_MAX →
  fusedConcat (m0 :: m1 :: rest) dim =
    if bool_decide (0 ≤ nd < vec_size t0)
    then for_loop (fusedConcat_outer (m0 :: m1 :: rest) (vec_size t0) nd) 1
                  (Datatypes.S (length rest)) t0
    else Failure (MAKE_ERR DimOutOfRange []).
Proof.
  cbv zeta. set (t0 := shape m0). set (nd := normalize_dim dim (vec_size t0)).
  intros Hrank Hdim. unfold fusedConcat.
  rewrite bool_decide_eq_false_2
    by (intros H; apply H; unfold vec_size; cbn [length]; lia).
  rewrite bool_decide_eq_false_2 by (unfold vec_size; cbn [length]; lia).
  rewrite (vec_at_nat _ 0). cbn [lookup list_lookup fmap Expected_fmap mbind Expected_bind].
  fold t0. unfold INT_MAX, INT64_MIN, INT64_MAX in *.
  rewrite to_int64_small by (unfold vec_size, INT64_MAX in *; lia).
  assert (Hnorm : (if bool_decide (dim < 0) then int64 (dim + vec_size t0)
                   else Value dim) = Value nd).
  { unfold nd, normalize_dim. case_bool_decide; [|done].
    apply int64_ok. unfold vec_size, INT64_MIN, INT64_MAX in *. lia. }
  rewrite Hnorm. cbn [mbind Expected_bind].
  replace (Z.to_nat (vec_size (m0 :: m1 :: rest) - 1))
    with (Datatypes.S (length rest)) by (unfold vec_size; cbn [length]; lia).
  destruct (decide (0 ≤ nd < vec_size t0)) as [Hin|Hout].
  - rewrite bool_decide_eq_false_2 by (intros H; apply H; lia).
    by rewrite (bool_decide_eq_true_2 (0 ≤ nd < vec_size t0)).
  - rewrite bool_decide_eq_true_2 by lia.
    by rewrite (bool_decide_eq_false_2 (0 ≤ nd < vec_size t0)).
Qed.

(** The loop of the rule over [pre ++ mi :: post], when the inputs of
    [pre] go with the first input: it comes to [mi] with the sizes at the
    concat dimension added up. *)
Lemma fusedConcat_reach (m0 mi : VariableMeta) (pre post : MetaStack) (d : nat) :
  let t0 := shape m0 in
  let metas := m0 :: pre ++ mi :: post in
  (d < length t0)%nat → Z.of_nat (length t0) ≤ INT_MAX →
  Z.of_nat (length metas) ≤ INT_MAX →
  Forall (λ m, Forall (λ z, 0 ≤ z) (shape m)) metas →
  total_at d (shape <$> metas) ≤ INT64_MAX →
  Forall (λ m, compatible t0 d (shape m)) pre →
  for_loop (fusedConcat_outer metas (Z.of_nat (length t0)) (Z.of_nat d)) 1
           (length (pre ++ mi :: post)) t0 =
    (fusedConcat_outer metas (Z.of_nat (length t0)) (Z.of_nat d)
       (1 + Z.of_nat (length pre))
       (<[d := total_at d (shape <$> m0 :: pre)]> t0))
    ≫= λ s', int_incr (1 + Z.of_nat (length pre))
    ≫= λ i', for_loop (fusedConcat_outer metas (Z.of_nat (length t0)) (Z.of_nat d))
                      i' (length post) s'.
Proof.
  cbv zeta. set (t0 := shape m0).
  intros Hd Hrank Hlen Hpos Hsum Hcompat.
  rewrite length_app. cbn [length]. rewrite for_loop_app. cbn [for_loop].
  apply Forall_cons in Hpos as [Hpos0 Hpos].
  apply Forall_app in Hpos as [Hpre Hpost].
  cbn [fmap list_fmap total_at foldr] in Hsum |- *.
  fold (total_at d (shape <$> pre ++ mi :: post)) in Hsum.
  fold (total_at d (shape <$> pre)).
  rewrite fmap_app, total_at_app in Hsum.
  pose proof (size_at_nonneg d _ Hpos0) as H0. fold t0 in H0 |- *.
  assert (Hpost0 : 0 ≤ total_at d (shape <$> mi :: post)).
  { apply total_at_nonneg. apply Forall_fmap. exact Hpost. }
  assert (Hid : <[d := size_at d t0]> t0 = t0).
  { apply list_insert_id. unfold size_at.
    destruct (lookup_lt_is_Some_2 t0 d Hd) as [x ->]. done. }
  assert (Hpre0 : Forall (λ m, 0 ≤ size_at d (shape m)) pre).
  { eapply Forall_impl; [exact Hpre|]. intros m. apply size_at_nonneg. }
  pose proof (fusedConcat_outer_prefix t0 d pre (mi :: post) Hd Hrank Hcompat
                Hpre0 [m0] (size_at d t0)) as Hp.
  change (Z.of_nat (length [m0])) with 1 in Hp.
  change ([m0] ++ pre ++ mi :: post) with (m0 :: pre ++ mi :: post) in Hp.
  rewrite Hid in Hp. fold t0 in Hsum.
  rewrite Hp; [|done|done|lia].
  cbn [mbind Expected_bind]. done.
Qed.
End FusedConcat.

Section FusedConcatClaims.

(** C5 (as stated, refuted): of three inputs the third has another rank
    than the first, and the rule raises ShapeMismatch, for the second
    input, not RankMismatch. *)
Lemma fusedConcat_rank_counterexample :
  length (shape (ofShape [2])) ≠ length (shape (ofShape [2; 3])) ∧
  fusedConcat [ofShape [2; 3]; ofShape [3; 3]; ofShape [2]] 1
    = Failure (MAKE_ERR ShapeMismatch [1]) ∧
  ∀ args : list Z,
    fusedConcat [ofShape [2; 3]; ofShape [3; 3]; ofShape [2]] 1
      ≠ Failure (MAKE_ERR RankMismatch args).
Proof.
  split; [by vm_compute|]. split; [by vm_compute|].
  intros args. vm_compute. discriminate.
Qed.

(** C5 (amended): a single input's shape is the result, whatever [dim]
    is; with two inputs or more a negative [dim] is normalized against the
    first input's rank and DimOutOfRange is raised if it is out of bounds;
    the later inputs are then checked one after the other, RankMismatch
    being raised at the first of them that does not go with the first
    input if its rank differs, ShapeMismatch if its rank is the same and it
    differs at a dimension other than [dim]; otherwise the result is the
    first input's shape with the sum of all the inputs' sizes at [dim]. *)
Theorem fusedConcat_spec :
  (∀ (m : VariableMeta) (dim : Z), fusedConcat [m] dim = Value (shape m)) ∧
  (∀ (m0 m1 : VariableMeta) (rest : MetaStack) (dim : Z),
     let metas := m0 :: m1 :: rest in
     let t0 := shape m0 in
     let nd := normalize_dim dim (vec_size t0) in
     vec_size t0 ≤ INT_MAX → vec_size metas ≤ INT_MAX →
     INT64_MIN ≤ dim ≤ INT64_MAX →
     (¬ (0 ≤ nd < vec_size t0) →
      fusedConcat metas dim = Failure (MAKE_ERR DimOutOfRange [])) ∧
     (0 ≤ nd < vec_size t0 →
      Forall (λ m, Forall (λ z, 0 ≤ z) (shape m)) metas →
      total_at (Z.to_nat nd) (shape <$> metas) ≤ INT64_MAX →
      (∀ (pre : MetaStack) (mi : VariableMeta) (post : MetaStack),
         m1 :: rest = pre ++ mi :: post →
         Forall (λ m, compatible t0 (Z.to_nat nd) (shape m)) pre →
         length (shape mi) ≠ length t0 →
         fusedConcat metas dim = Failure (MAKE_ERR RankMismatch [])) ∧
      (∀ (pre : MetaStack) (mi : VariableMeta) (post : MetaStack) (j : nat),
         m1 :: rest = pre ++ mi :: post →
         Forall (λ m, compatible t0 (Z.to_nat nd) (shape m)) pre →
         length (shape mi) = length t0 →
         j ≠ Z.to_nat nd → shape mi !! j ≠ t0 !! j →
         fusedConcat metas dim = Failure (MAKE_ERR ShapeMismatch [nd])) ∧
      (Forall (λ m, compatible t0 (Z.to_nat nd) (shape m)) (m1 :: rest) →
       fusedConcat metas dim =
         Value (<[Z.to_nat nd := total_at (Z.to_nat nd) (shape <$> metas)]> t0)))) ∧
  fusedConcat [ofShape [2; 3]; ofShape [2; 4]] 1 = Value [2; 7] ∧
  fusedConcat [ofShape [2; 3]; ofShape [3; 3]] 1
    = Failure (MAKE_ERR ShapeMismatch [1]).
Proof.
  split; [by intros m dim|]. split; [|split; by vm_compute].
  intros m0 m1 rest dim. cbv zeta.
  set (t0 := shape m0). set (nd := normalize_dim dim (vec_size t0)).
  intros Hrank Hlen Hdim.
  pose proof (fusedConcat_many m0 m1 rest dim Hrank Hdim) as Hmany.
  cbv zeta in Hmany. fold t0 nd in Hmany. rewrite Hmany. clear Hmany.
  split.
  { intros Hout. by rewrite bool_decide_eq_false_2. }
  intros Hnd Hpos Hsum. rewrite bool_decide_eq_true_2 by done.
  assert (Hd : (Z.to_nat nd < length t0)%nat) by (unfold vec_size in *; lia).
  assert (Hstep : ∀ pre mi post, m1 :: rest = pre ++ mi :: post →
    Forall (λ m, compatible t0 (Z.to_nat nd) (shape m)) pre →
    for_loop (fusedConcat_outer (m0 :: m1 :: rest) (vec_size t0) nd) 1
             (Datatypes.S (length rest)) t0 =
    (fusedConcat_outer (m0 :: m1 :: rest) (vec_size t0) nd
       (1 + Z.of_nat (length pre))
       (<[Z.to_nat nd := total_at (Z.to_nat nd) (shape <$> m0 :: pre)]> t0))
    ≫= λ s', int_incr (1 + Z.of_nat (length pre))
    ≫= λ i', for_loop (fusedConcat_outer (m0 :: m1 :: rest) (vec_size t0) nd)
                      i' (length post) s').
  { intros pre mi post Heq Hpre.
    change (Datatypes.S (length rest)) with (length (m1 :: rest)).
    rewrite Heq in *.
    pose proof (fusedConcat_reach m0 mi pre post (Z.to_nat nd) Hd Hrank Hlen
                  Hpos Hsum Hpre) as Hreach.
    fold t0 in Hreach. unfold vec_size.
    rewrite Z2Nat.id in Hreach by lia. exact Hreach. }
  assert (Hat : ∀ pre mi post, m1 :: rest = pre ++ mi :: post →
    (m0 :: m1 :: rest) !! Z.to_nat (1 + Z.of_nat (length pre)) = Some mi).
  { intros pre mi post ->.
    replace (Z.to_nat (1 + Z.of_nat (length pre)))
      with (Datatypes.S (length pre)) by lia.
    change ((m0 :: pre ++ mi :: post) !! Datatypes.S (length pre))
      with ((pre ++ mi :: post) !! length pre).
    rewrite lookup_app_r by lia. by rewrite Nat.sub_diag. }
  assert (Hfits : ∀ pre mi post, m1 :: rest = pre ++ mi :: post →
    INT64_MIN ≤ total_at (Z.to_nat nd) (shape <$> m0 :: pre)
                + size_at (Z.to_nat nd) (shape mi) ≤ INT64_MAX).
  { intros pre mi post Heq. rewrite Heq in Hpos, Hsum.
    apply Forall_cons in Hpos as [Hpos0 Hpos].
    apply Forall_app in Hpos as [Hpre Hpost].
    apply Forall_cons in Hpost as [Hmi Hpost].
    rewrite fmap_cons, fmap_app, fmap_cons in Hsum.
    rewrite total_at_cons, total_at_app, total_at_cons in Hsum.
    rewrite fmap_cons, total_at_cons.
    pose proof (size_at_nonneg (Z.to_nat nd) _ Hpos0).
    pose proof (size_at_nonneg (Z.to_nat nd) _ Hmi).
    pose proof (total_at_nonneg (Z.to_nat nd) (shape <$> pre)
                  ltac:(by apply Forall_fmap)).
    pose proof (total_at_nonneg (Z.to_nat nd) (shape <$> post)
                  ltac:(by apply Forall_fmap)).
    unfold INT64_MIN. lia. }
  assert (Hidx : ∀ pre mi post, m1 :: rest = pre ++ mi :: post →
    0 ≤ 1 + Z.of_nat (length pre) ≤ INT_MAX).
  { intros pre mi post Heq. unfold vec_size in Hlen. cbn [length] in Hlen.
    apply (f_equal length) in Heq. rewrite length_app in Heq.
    cbn [length] in Heq. lia. }
  repeat apply conj.
  - intros pre mi post Heq Hpre Hne.
    rewrite (Hstep pre mi post Heq Hpre).
    destruct (fusedConcat_outer_step (m0 :: m1 :: rest) t0 (Z.to_nat nd)
                (1 + Z.of_nat (length pre)) mi
                (total_at (Z.to_nat nd) (shape <$> m0 :: pre)))
      as (Hr & _ & _); eauto.
    unfold vec_size. rewrite Z2Nat.id in Hr by lia. by rewrite Hr.
  - intros pre mi post j Heq Hpre Hsame Hj Hdiff.
    rewrite (Hstep pre mi post Heq Hpre).
    destruct (fusedConcat_outer_step (m0 :: m1 :: rest) t0 (Z.to_nat nd)
                (1 + Z.of_nat (length pre)) mi
                (total_at (Z.to_nat nd) (shape <$> m0 :: pre)))
      as (_ & _ & Hs); eauto.
    unfold vec_size. rewrite Z2Nat.id in Hs by lia. rewrite Hs; [done|done|].
    intros [_ Hc]. by apply Hdiff, Hc.
  - intros Hall.
    destruct (exists_last (l := m1 :: rest) ltac:(done)) as (pre & mi & Heq).
    rewrite Heq in Hall. apply Forall_app in Hall as [Hpre Hmi].
    apply Forall_cons in Hmi as [Hmi _].
    rewrite (Hstep pre mi [] Heq Hpre).
    destruct (fusedConcat_outer_step (m0 :: m1 :: rest) t0 (Z.to_nat nd)
                (1 + Z.of_nat (length pre)) mi
                (total_at (Z.to_nat nd) (shape <$> m0 :: pre)))
      as (_ & Hv & _); eauto.
    unfold vec_size. rewrite Z2Nat.id in Hv by lia. rewrite Hv by done.
    cbn [mbind Expected_bind].
    pose proof (Hidx pre mi [] Heq) as Hi.
    unfold vec_size in Hlen. cbn [length] in Hlen.
    apply (f_equal length) in Heq as Hl. rewrite length_app in Hl.
    cbn [length] in Hl.
    rewrite int_incr_ok by lia. cbn [mbind Expected_bind for_loop length].
    do 2 f_equal. rewrite Heq.
    rewrite !fmap_cons, fmap_app, !total_at_cons, total_at_app.
    change (shape <$> [mi]) with [shape mi]. rewrite total_at_cons.
    change (total_at (Z.to_nat nd) []) with 0. lia.
Qed.

Lemma fusedConcat_spec_witness :
  fusedConcat [ofShape [4; 5]] 7 = Value [4; 5] ∧
  fusedConcat [ofShape [2; 3]; ofShape [2; 4]] 2
    = Failure (MAKE_ERR DimOutOfRange []) ∧
  fusedConcat [ofShape [2; 3]; ofShape [2; 4]; ofShape [2]] 1
    = Failure (MAKE_ERR RankMismatch []) ∧
  fusedConcat [ofShape [2; 3]; ofShape [3; 3]] 1
    = Failure (MAKE_ERR ShapeMismatch [1]) ∧
  fusedConcat [ofShape [2; 3]; ofShape [2; 4]] (-1) = Value [2; 7].
Proof.
  destruct fusedConcat_spec as (Hone & Hmany & _ & _).
  assert (Hc : compatible [2; 3] 1 [2; 4]).
  { split; [done|]. intros [|[|j]] Hj; done. }
  split; [apply Hone|]. split; [|split; [|split]].
  - destruct (Hmany (ofShape [2; 3]) (ofShape [2; 4]) [] 2) as [Hout _];
      [by vm_compute..|].
    apply Hout. vm_compute. intros [_ H]. discriminate H.
  - destruct (Hmany (ofShape [2; 3]) (ofShape [2; 4]) [ofShape [2]] 1)
      as [_ Hin]; [by vm_compute..|].
    destruct Hin as (Hrank & _ & _).
    + by vm_compute.
    + repeat constructor; by vm_compute.
    + by vm_compute.
    + apply (Hrank [ofShape [2; 4]] (ofShape [2]) []); [done| |by vm_compute].
      constructor; [exact Hc|constructor].
  - destruct (Hmany (ofShape [2; 3]) (ofShape [3; 3]) [] 1)
      as [_ Hin]; [by vm_compute..|].
    destruct Hin as (_ & Hshape & _).
    + by vm_compute.
    + repeat constructor; by vm_compute.
    + by vm_compute.
    + apply (Hshape [] (ofShape [3; 3]) [] 0%nat); [done|constructor|done| |].
      * by vm_compute.
      * by vm_compute.
  - destruct (Hmany (ofShape [2; 3]) (ofShape [2; 4]) [] (-1))
      as [_ Hin]; [by vm_compute..|].
    destruct Hin as (_ & _ & Hok).
    + by vm_compute.
    + repeat constructor; by vm_compute.
    + by vm_compute.
    + rewrite Hok; [by vm_compute|]. constructor; [exact Hc|constructor].
Defined.

End FusedConcatClaims.

(** ** The engine's state *)

Section PassMonad.
Context {A B : Type}.

Lemma pass_bind_Value (m : Pass A) (f : A → Pass B) (st st' : State) (b : B) :
  (m ≫= f) st = (Value b, st') ↔
  ∃ a st1, m st = (Value a, st1) ∧ f a st1 = (Value b, st').
Proof.
  unfold mbind, Pass_bind. destruct (m st) as [[a| |] st1]; split.
  - eauto.
  - intros (a' & st1' & [= <- <-] & H). done.
  - discriminate.
  - intros (a' & st1' & [=] & _).
  - discriminate.
  - intros (a' & st1' & [=] & _).
Qed.

Lemma pass_bind_Failure (m : Pass A) (f : A → Pass B) (st st' : State)
    (e : Error) :
  (m ≫= f) st = (Failure e, st') ↔
  m st = (Failure e, st') ∨
  ∃ a st1, m st = (Value a, st1) ∧ f a st1 = (Failure e, st').
Proof.
  unfold mbind, Pass_bind. destruct (m st) as [[a| |] st1]; split.
  - eauto.
  - intros [[=]|(a' & st1' & [= <- <-] & H)]. done.
  - intros [= <- <-]. by left.
  - intros [[= <- <-]|(a' & st1' & [=] & _)]. done.
  - discriminate.
  - intros [[=]|(a' & st1' & [=] & _)].
Qed.
End PassMonad.

(** ** getGraphIntputShape *)

Section Materializer.

(** One input of a category the engine takes: its entry is set to the
    metadata of the input, whatever the key held. *)
Lemma getGraphIntputShape_body_ok (graph_ : Graph) (inputs_ : list IValue)
    (i : Z) (k : ValueRef) (v : IValue) (m : VariableMeta) (st : State) :
  0 ≤ i ≤ INT_MAX →
  g_inputs graph_ !! Z.to_nat i = Some k → inputs_ !! Z.to_nat i = Some v →
  meta_of_input v = Some m →
  getGraphIntputShape_body graph_ inputs_ i st =
    (Value tt, mkState (<[k := m]> (shapeMap_ st)) (outputShape_ st)).
Proof.
  intros Hi Hk Hv Hm. unfold getGraphIntputShape_body.
  rewrite to_size_t_small by (unfold INT_MAX, SIZE_MOD in *; lia).
  rewrite !vec_at_Z by lia. rewrite Hk, Hv.
  unfold mbind, Pass_bind, lift, set_shape, set_intValue, entry.
  destruct v as [sizes|b|z|l|]; simpl in Hm; simplify_eq; simpl;
    rewrite ?lookup_insert_eq, ?insert_insert_eq; simpl; done.
Qed.

(** One input of any other category: the error, the entry left empty. *)
Lemma getGraphIntputShape_body_other (graph_ : Graph) (inputs_ : list IValue)
    (i : Z) (k : ValueRef) (st : State) :
  0 ≤ i ≤ INT_MAX →
  g_inputs graph_ !! Z.to_nat i = Some k → inputs_ !! Z.to_nat i = Some IVOther →
  getGraphIntputShape_body graph_ inputs_ i st =
    (Failure (MAKE_ERR UnsupportedInputKind []),
     mkState (<[k := mkMeta [] []]> (shapeMap_ st)) (outputShape_ st)).
Proof.
  intros Hi Hk Hv. unfold getGraphIntputShape_body.
  rewrite to_size_t_small by (unfold INT_MAX, SIZE_MOD in *; lia).
  rewrite !vec_at_Z by lia. rewrite Hk, Hv.
  unfold mbind, Pass_bind, lift, set_shape, set_intValue, entry. simpl.
  rewrite ?lookup_insert_eq, ?insert_insert_eq. simpl. done.
Qed.

Lemma meta_of_input_None (v : IValue) : meta_of_input v = None → v = IVOther.
Proof. by destruct v. Qed.

Lemma pass_loop_S (body : Z → Pass unit) (i : Z) (n : nat) (st : State) :
  pass_loop body i (Datatypes.S n) st =
    match body i st with
    | (Value _, st1) =>
        match int_incr i with
        | Value i' => pass_loop body i' n st1
        | Failure e => (Failure e, st1)
        | Fatal u => (Fatal u, st1)
        end
    | (Failure e, st1) => (Failure e, st1)
    | (Fatal u, st1) => (Fatal u, st1)
    end.
Proof.
  cbn [pass_loop]. unfold mbind, Pass_bind, lift.
  destruct (body i st) as [[[]| |] st1]; [|done..].
  by destruct (int_incr i).
Qed.

(** The loop over inputs that are all of a category the engine takes:
    every graph input from [i] on gets the metadata of its instance, the
    other keys and the outputs are left as they are. *)
Lemma getGraphIntputShape_loop (graph_ : Graph) (inputs_ : list IValue) (n : nat) :
  length inputs_ = length (g_inputs graph_) →
  Z.of_nat (length inputs_) ≤ INT_MAX →
  NoDup (g_inputs graph_) →
  Forall (λ v, is_Some (meta_of_input v)) inputs_ →
  ∀ (i : nat) (st : State),
    (i + n = length inputs_)%nat →
    ∃ st',
      pass_loop (getGraphIntputShape_body graph_ inputs_) (Z.of_nat i) n st
        = (Value tt, st') ∧
      outputShape_ st' = outputShape_ st ∧
      (∀ (j : nat) k v, (i ≤ j)%nat → g_inputs graph_ !! j = Some k →
         inputs_ !! j = Some v → shapeMap_ st' !! k = meta_of_input v) ∧
      (∀ k, (∀ j : nat, (i ≤ j)%nat → g_inputs graph_ !! j ≠ Some k) →
         shapeMap_ st' !! k = shapeMap_ st !! k).
Proof.
  intros Hlen Hmax Hnodup Hall.
  induction n as [|n IH]; intros i st Hin.
  - exists st. split; [done|]. split; [done|]. split; [|done].
    intros j k v Hj Hk Hv. apply lookup_lt_Some in Hv. lia.
  - destruct (lookup_lt_is_Some_2 inputs_ i) as [v Hv]; [lia|].
    destruct (lookup_lt_is_Some_2 (g_inputs graph_) i) as [k Hk]; [lia|].
    destruct (Forall_lookup_1 _ _ _ _ Hall Hv) as [m Hm].
    rewrite pass_loop_S.
    rewrite (getGraphIntputShape_body_ok graph_ inputs_ (Z.of_nat i) k v m);
      [|lia|by rewrite Nat2Z.id..|done].
    rewrite int_incr_ok by lia.
    replace (Z.of_nat i + 1) with (Z.of_nat (Datatypes.S i)) by lia.
    destruct (IH (Datatypes.S i)
                (mkState (<[k := m]> (shapeMap_ st)) (outputShape_ st)))
      as (st' & Hrun & Hout & Hset & Hkeep); [lia|].
    exists st'. split; [done|]. split; [done|]. split.
    + intros j k' v' Hj Hk' Hv'.
      destruct (decide (j = i)) as [->|Hne].
      * rewrite Hk in Hk'. rewrite Hv in Hv'. simplify_eq.
        rewrite Hkeep; [simpl; by rewrite lookup_insert_eq|].
        intros j Hj' Hk''.
        pose proof (NoDup_lookup _ _ _ _ Hnodup Hk Hk''). lia.
      * apply (Hset j); [lia|done..].
    + intros k' Hk'. rewrite Hkeep.
      * simpl. rewrite lookup_insert_ne; [done|].
        intros ->. by apply (Hk' i).
      * intros j Hj. apply Hk'. lia.
Qed.

(** The loop fails with UnsupportedInputKind as soon as an input from
    [i] on is of no category the engine takes. *)
Lemma getGraphIntputShape_loop_other (graph_ : Graph) (inputs_ : list IValue)
    (n : nat) :
  length inputs_ = length (g_inputs graph_) →
  Z.of_nat (length inputs_) ≤ INT_MAX →
  ∀ (i : nat) (st : State) (j : nat),
    (i + n = length inputs_)%nat → (i ≤ j)%nat → inputs_ !! j = Some IVOther →
    (pass_loop (getGraphIntputShape_body graph_ inputs_) (Z.of_nat i) n st).1
      = Failure (MAKE_ERR UnsupportedInputKind []).
Proof.
  intros Hlen Hmax.
  induction n as [|n IH]; intros i st j Hin Hj Hother.
  - apply lookup_lt_Some in Hother. lia.
  - destruct (lookup_lt_is_Some_2 inputs_ i) as [v Hv]; [lia|].
    destruct (lookup_lt_is_Some_2 (g_inputs graph_) i) as [k Hk]; [lia|].
    rewrite pass_loop_S.
    destruct (meta_of_input v) as [m|] eqn:Hm.
    + rewrite (getGraphIntputShape_body_ok graph_ inputs_ (Z.of_nat i) k v m);
        [|lia|by rewrite Nat2Z.id..|done].
      rewrite int_incr_ok by lia.
      replace (Z.of_nat i + 1) with (Z.of_nat (Datatypes.S i)) by lia.
      apply (IH _ _ j); [lia| |done].
      destruct (decide (j = i)) as [->|]; [|lia].
      rewrite Hv in Hother. injection Hother as ->. discriminate.
    + apply meta_of_input_None in Hm as ->.
      by rewrite (getGraphIntputShape_body_other graph_ inputs_ (Z.of_nat i) k);
        [|lia|by rewrite Nat2Z.id..].
Qed.
End Materializer.

Section MaterializerClaims.

(** The driver stops at an error of the materializer. *)
Lemma run_materializer_Failure (graph_ : Graph) (inputs_ : list IValue)
    (st : State) (e : Error) :
  length inputs_ = length (g_inputs graph_) →
  (getGraphIntputShape graph_ inputs_ st).1 = Failure e →
  run graph_ inputs_ st = (Failure e, (getGraphIntputShape graph_ inputs_ st).2).
Proof.
  intros Hlen He. unfold run.
  rewrite bool_decide_eq_false_2 by (unfold vec_size; intros H; apply H; lia).
  unfold mbind, Pass_bind.
  destruct (getGraphIntputShape graph_ inputs_ st) as [r st1].
  simpl in He. by subst r.
Qed.

(** C8: the materializer gives every graph input the metadata of its
    concrete instance: a tensor its sizes as the shape and no scalar
    values; a boolean or an integer the shape [1] and the value as the one
    scalar value; an integer list of length N the shape [N, 1] and its
    elements as the scalar values; an instance of any other category makes
    the materializer, and with it the pass, fail with
    UnsupportedInputKind. *)
Theorem getGraphIntputShape_spec (graph_ : Graph) (inputs_ : list IValue)
    (st : State) :
  length inputs_ = length (g_inputs graph_) →
  Z.of_nat (length inputs_) ≤ INT_MAX →
  NoDup (g_inputs graph_) →
  (Forall (λ v, v ≠ IVOther) inputs_ →
   ∃ st',
     getGraphIntputShape graph_ inputs_ st = (Value tt, st') ∧
     (∀ (i : nat) k sizes,
        g_inputs graph_ !! i = Some k → inputs_ !! i = Some (IVTensor sizes) →
        shapeMap_ st' !! k = Some (mkMeta sizes [])) ∧
     (∀ (i : nat) k b,
        g_inputs graph_ !! i = Some k → inputs_ !! i = Some (IVBool b) →
        shapeMap_ st' !! k = Some (mkMeta [1] [Z.b2z b])) ∧
     (∀ (i : nat) k z,
        g_inputs graph_ !! i = Some k → inputs_ !! i = Some (IVInt z) →
        shapeMap_ st' !! k = Some (mkMeta [1] [z])) ∧
     (∀ (i : nat) k l,
        g_inputs graph_ !! i = Some k → inputs_ !! i = Some (IVIntList l) →
        shapeMap_ st' !! k = Some (mkMeta [Z.of_nat (length l); 1] l))) ∧
  (∀ i : nat,
     inputs_ !! i = Some IVOther →
     (getGraphIntputShape graph_ inputs_ st).1
       = Failure (MAKE_ERR UnsupportedInputKind []) ∧
     (run graph_ inputs_ st).1 = Failure (MAKE_ERR UnsupportedInputKind [])).
Proof.
  intros Hlen Hmax Hnodup. split.
  - intros Hall.
    assert (Hsome : Forall (λ v, is_Some (meta_of_input v)) inputs_).
    { eapply Forall_impl; [exact Hall|]. intros [] Hv; simpl; eauto.
      by destruct Hv. }
    destruct (getGraphIntputShape_loop graph_ inputs_ (length inputs_) Hlen Hmax
                Hnodup Hsome 0%nat st) as (st' & Hrun & _ & Hset & _); [done|].
    exists st'. split; [exact Hrun|].
    repeat apply conj; intros i k x Hk Hx;
      apply (Hset i k _ ltac:(lia) Hk Hx).
  - intros i Hi.
    assert (Hfail : (getGraphIntputShape graph_ inputs_ st).1
                      = Failure (MAKE_ERR UnsupportedInputKind [])).
    { apply (getGraphIntputShape_loop_other graph_ inputs_ (length inputs_) Hlen
               Hmax 0%nat st i); [done|lia|done]. }
    split; [exact Hfail|].
    by rewrite (run_materializer_Failure _ _ _ _ Hlen Hfail).
Qed.

Lemma getGraphIntputShape_spec_witness :
  (∃ st',
     getGraphIntputShape (mkGraph [10; 11; 12; 13]%nat [] [])
       [IVTensor [2; 3]; IVBool true; IVInt 7; IVIntList [4; 5; 6]] init
       = (Value tt, st') ∧
     shapeMap_ st' !! 10%nat = Some (mkMeta [2; 3] []) ∧
     shapeMap_ st' !! 11%nat = Some (mkMeta [1] [1]) ∧
     shapeMap_ st' !! 12%nat = Some (mkMeta [1] [7]) ∧
     shapeMap_ st' !! 13%nat = Some (mkMeta [3; 1] [4; 5; 6])) ∧
  (run (mkGraph [10; 11]%nat [] []) [IVTensor [2; 3]; IVOther] init).1
    = Failure (MAKE_ERR UnsupportedInputKind []).
Proof.
  split.
  - destruct (getGraphIntputShape_spec (mkGraph [10; 11; 12; 13]%nat [] [])
                [IVTensor [2; 3]; IVBool true; IVInt 7; IVIntList [4; 5; 6]] init)
      as [Hok _].
    + reflexivity.
    + by vm_compute.
    + apply (bool_decide_unpack _). by vm_compute.
    + destruct Hok as (st' & Hrun & Ht & Hb & Hi & Hl).
      * repeat constructor; discriminate.
      * exists st'. split; [exact Hrun|].
        split; [exact (Ht 0%nat _ _ eq_refl eq_refl)|].
        split; [exact (Hb 1%nat _ _ eq_refl eq_refl)|].
        split; [exact (Hi 2%nat _ _ eq_refl eq_refl)|].
        exact (Hl 3%nat _ _ eq_refl eq_refl).
  - destruct (getGraphIntputShape_spec (mkGraph [10; 11]%nat [] [])
                [IVTensor [2; 3]; IVOther] init) as [_ Hfail].
    + reflexivity.
    + by vm_compute.
    + apply (bool_decide_unpack _). by vm_compute.
    + exact (proj2 (Hfail 1%nat eq_refl)).
Defined.

End MaterializerClaims.

(** ** shapeOnNode and run *)

Section Driver.

Lemma keeps_outputs_bind {A B} (m : Pass A) (f : A → Pass B) :
  keeps_outputs m → (∀ a, keeps_outputs (f a)) → keeps_outputs (m ≫= f).
Proof.
  intros Hm Hf st r st'. unfold mbind, Pass_bind.
  destruct (m st) as [[a| |] st1] eqn:Hst.
  - intros H. rewrite (Hf a _ _ _ H). by apply (Hm _ _ _ Hst).
  - intros [= <- <-]. by apply (Hm _ _ _ Hst).
  - intros [= <- <-]. by apply (Hm _ _ _ Hst).
Qed.

Lemma keeps_outputs_lift {A} (m : Expected A) : keeps_outputs (lift m).
Proof. by intros st r st' [= <- <-]. Qed.

Lemma keeps_outputs_ret {A} (a : A) : keeps_outputs (mret a).
Proof. by intros st r st' [= <- <-]. Qed.

Lemma keeps_outputs_set_shape (k : ValueRef) (s : list Z) :
  keeps_outputs (set_shape k s).
Proof. by intros st r st' [= <- <-]. Qed.

Lemma keeps_outputs_set_intValue (k : ValueRef) (v : list Z) :
  keeps_outputs (set_intValue k v).
Proof. by intros st r st' [= <- <-]. Qed.

Lemma keeps_outputs_pass_loop (body : Z → Pass unit) (n : nat) (i : Z) :
  (∀ j, keeps_outputs (body j)) → keeps_outputs (pass_loop body i n).
Proof.
  intros Hbody. revert i. induction n as [|n IH]; intros i.
  - apply keeps_outputs_ret.
  - cbn [pass_loop]. apply keeps_outputs_bind; [done|]. intros _.
    apply keeps_outputs_bind; [apply keeps_outputs_lift|done].
Qed.

Lemma keeps_outputs_pass_each {A} (body : A → Pass unit) (l : list A) :
  (∀ x, keeps_outputs (body x)) → keeps_outputs (pass_each body l).
Proof.
  intros Hbody. induction l as [|x l IH].
  - apply keeps_outputs_ret.
  - cbn [pass_each]. by apply keeps_outputs_bind.
Qed.

Lemma keeps_outputs_shapeOnNode (node : Node) : keeps_outputs (shapeOnNode node).
Proof.
  unfold shapeOnNode. apply keeps_outputs_bind.
  { by intros st r st' [= <- <-]. }
  intros metas. apply keeps_outputs_bind; [apply keeps_outputs_lift|].
  intros outs. unfold shapeOnNode_store.
  assert (Hloop : keeps_outputs
    (pass_loop (λ i, out ← lift (vec_at (outputs node) (to_size_t i));
                     v ← lift (vec_at outs (to_size_t i));
                     set_shape out v) 0 (length (outputs node)))).
  { apply keeps_outputs_pass_loop. intros j.
    apply keeps_outputs_bind; [apply keeps_outputs_lift|]. intros out.
    apply keeps_outputs_bind; [apply keeps_outputs_lift|]. intros v.
    apply keeps_outputs_set_shape. }
  destruct (kind node); try exact Hloop.
  apply keeps_outputs_bind; [apply keeps_outputs_lift|]. intros out.
  destruct (output_type node);
    repeat first
      [ apply keeps_outputs_set_shape | apply keeps_outputs_set_intValue
      | apply keeps_outputs_lift
      | apply keeps_outputs_bind; [|intros ?] ].
Qed.

Lemma keeps_outputs_getGraphIntputShape (graph_ : Graph) (inputs_ : list IValue) :
  keeps_outputs (getGraphIntputShape graph_ inputs_).
Proof.
  apply keeps_outputs_pass_loop. intros j. unfold getGraphIntputShape_body.
  apply keeps_outputs_bind; [apply keeps_outputs_lift|]. intros k.
  apply keeps_outputs_bind; [apply keeps_outputs_set_shape|]. intros _.
  apply keeps_outputs_bind; [apply keeps_outputs_set_intValue|]. intros _.
  apply keeps_outputs_bind; [apply keeps_outputs_lift|]. intros v.
  destruct v;
    repeat first
      [ apply keeps_outputs_set_shape | apply keeps_outputs_set_intValue
      | apply keeps_outputs_lift
      | apply keeps_outputs_bind; [|intros ?] ].
Qed.

(** Putting the outputs of a node into the map raises no error. *)
Lemma shapeOnNode_store_no_Failure (node : Node) (outs : list (list Z))
    (st st' : State) (e : Error) :
  shapeOnNode_store node outs st ≠ (Failure e, st').
Proof.
  assert (Hloop : ∀ n i st,
    pass_loop (λ i, out ← lift (vec_at (outputs node) (to_size_t i));
                    v ← lift (vec_at outs (to_size_t i));
                    set_shape out v) i n st ≠ (Failure e, st')).
  { induction n as [|n IH]; intros i st0; [done|].
    rewrite pass_loop_S. unfold mbind, Pass_bind, lift, set_shape.
    destruct (vec_at (outputs node) (to_size_t i)) eqn:H1;
      [|by apply vec_at_no_Failure in H1|done].
    destruct (vec_at outs (to_size_t i)) eqn:H2;
      [|by apply vec_at_no_Failure in H2|done].
    unfold int_incr. case_bool_decide; [apply IH|done]. }
  unfold shapeOnNode_store.
  destruct (kind node); try apply Hloop.
  unfold mbind, Pass_bind, lift, set_shape, set_intValue.
  destruct (node_output node) eqn:Hout; [| |done].
  - destruct (output_type node); destruct (vec_at outs 0) eqn:H0; try done;
      by apply vec_at_no_Failure in H0.
  - unfold node_output in Hout. by destruct (outputs node) as [|? [|]].
Qed.

(** A node whose rule fails leaves the state as it found it. *)
Lemma shapeOnNode_Failure (node : Node) (st st' : State) (e : Error) :
  shapeOnNode node st = (Failure e, st') →
  st' = st ∧
  ∃ metas, (getNodeInputShape node st).1 = Value metas ∧
           shapeOnNode_rule node metas = Failure e.
Proof.
  unfold shapeOnNode. intros H.
  apply pass_bind_Failure in H as [H|(metas & st1 & Hin & H)].
  { unfold getNodeInputShape in H. injection H as H _.
    exfalso. revert H. generalize (inputs node). intros l. revert e.
    assert (Hno : ∀ e, mapM (λ input, match shapeMap_ st !! input with
                                       | Some m => Value m
                                       | None => Fatal CheckFailed
                                       end) l ≠ Failure e).
    { induction l as [|x l IH]; intros e' H; [done|].
      cbn [mapM] in H. destruct (shapeMap_ st !! x); [|done].
      cbn [mbind Expected_bind] in H.
      destruct (mapM _ l) as [|e''|] eqn:Hl; [done| |done].
      by apply (IH e''). }
    exact Hno. }
  unfold getNodeInputShape in Hin. injection Hin as Hin <-.
  apply pass_bind_Failure in H as [H|(outs & st2 & Hrule & H)].
  - unfold lift in H. injection H as H <-. split; [done|].
    exists metas. by rewrite <- Hin.
  - by apply shapeOnNode_store_no_Failure in H.
Qed.

Lemma pass_each_app {A} (body : A → Pass unit) (l1 l2 : list A) (st : State) :
  pass_each body (l1 ++ l2) st =
    match pass_each body l1 st with
    | (Value _, st1) => pass_each body l2 st1
    | (Failure e, st1) => (Failure e, st1)
    | (Fatal u, st1) => (Fatal u, st1)
    end.
Proof.
  revert st. induction l1 as [|x l1 IH]; intros st; [done|].
  cbn [app pass_each]. unfold mbind, Pass_bind.
  destruct (body x st) as [[[]| |] st1]; [|done..]. apply IH.
Qed.

End Driver.

Section DriverClaims.

(** C9: [run] fails with ArityMismatch, the state untouched, when the
    number of inputs given differs from the number of inputs of the graph;
    an error of the materializer is the result of [run]; an error of the
    rule of a node, the nodes before it having succeeded, is the result of
    [run], and the state [run] leaves is the state those earlier nodes left:
    the failing node and the nodes after it have stored nothing and no
    output shape has been collected. *)
Theorem run_first_error (graph_ : Graph) (inputs_ : list IValue) (st : State) :
  (length inputs_ ≠ length (g_inputs graph_) →
   run graph_ inputs_ st = (Failure (MAKE_ERR ArityMismatch []), st)) ∧
  (length inputs_ = length (g_inputs graph_) →
   (∀ (e : Error) (st0 : State),
      getGraphIntputShape graph_ inputs_ st = (Failure e, st0) →
      run graph_ inputs_ st = (Failure e, st0) ∧
      outputShape_ st0 = outputShape_ st) ∧
   (∀ (st0 : State) (pre : list Node) (node : Node) (post : list Node)
      (e : Error) (st1 st2 : State),
      getGraphIntputShape graph_ inputs_ st = (Value tt, st0) →
      g_nodes graph_ = pre ++ node :: post →
      pass_each shapeOnNode pre st0 = (Value tt, st1) →
      shapeOnNode node st1 = (Failure e, st2) →
      run graph_ inputs_ st = (Failure e, st1) ∧
      st2 = st1 ∧
      outputShape_ st1 = outputShape_ st)).
Proof.
  split.
  - intros Hne. unfold run.
    rewrite bool_decide_eq_true_2; [done|]. unfold vec_size. lia.
  - intros Hlen. split.
    + intros e st0 Hmat. split.
      * rewrite (run_materializer_Failure graph_ inputs_ st e Hlen);
          by rewrite Hmat.
      * by apply (keeps_outputs_getGraphIntputShape graph_ inputs_ _ _ _ Hmat).
    + intros st0 pre node post e st1 st2 Hmat Hnodes Hpre Hnode.
      destruct (shapeOnNode_Failure _ _ _ _ Hnode) as [-> _].
      split; [|split; [done|]].
      * unfold run.
        rewrite bool_decide_eq_false_2
          by (unfold vec_size; intros H; apply H; lia).
        unfold mbind, Pass_bind. rewrite Hmat, Hnodes, pass_each_app, Hpre.
        cbn [pass_each]. unfold mbind, Pass_bind. by rewrite Hnode.
      * rewrite (keeps_outputs_pass_each shapeOnNode pre
                   keeps_outputs_shapeOnNode _ _ _ Hpre).
        by apply (keeps_outputs_getGraphIntputShape graph_ inputs_ _ _ _ Hmat).
Qed.

Lemma run_first_error_witness :
  run (mkGraph [0%nat] [] []) [] init
    = (Failure (MAKE_ERR ArityMismatch []), init) ∧
  (run (mkGraph [0%nat] [] []) [IVOther] init).1
    = Failure (MAKE_ERR UnsupportedInputKind []) ∧
  ∃ st1,
    run (mkGraph [0%nat]
           [ mkNode aten_relu [0%nat] [1%nat] TensorType None None None;
             mkNode aten_mm [1%nat; 1%nat] [2%nat] TensorType None None None;
             mkNode aten_relu [2%nat] [3%nat] TensorType None None None ]
           [3%nat])
        [IVTensor [2; 3]] init
      = (Failure (MAKE_ERR ShapeMismatch [3; 2]), st1) ∧
    shapeMap_ st1 !! 1%nat = Some (mkMeta [2; 3] []) ∧
    shapeMap_ st1 !! 2%nat = None ∧
    shapeMap_ st1 !! 3%nat = None ∧
    outputShape_ st1 = [].
Proof.
  split; [|split].
  - apply (proj1 (run_first_error (mkGraph [0%nat] [] []) [] init)).
    simpl. lia.
  - destruct (run_first_error (mkGraph [0%nat] [] []) [IVOther] init)
      as [_ Hrun].
    destruct (Hrun eq_refl) as [Hmat _].
    destruct (getGraphIntputShape (mkGraph [0%nat] [] []) [IVOther] init)
      as [r st0] eqn:Hst.
    assert (Hr : r = Failure (MAKE_ERR UnsupportedInputKind [])).
    { apply (f_equal fst) in Hst. vm_compute in Hst. congruence. }
    subst r. destruct (Hmat _ _ eq_refl) as [-> _]. reflexivity.
  - set (g := mkGraph [0%nat]
           [ mkNode aten_relu [0%nat] [1%nat] TensorType None None None;
             mkNode aten_mm [1%nat; 1%nat] [2%nat] TensorType None None None;
             mkNode aten_relu [2%nat] [3%nat] TensorType None None None ]
           [3%nat]).
    destruct (run_first_error g [IVTensor [2; 3]] init) as [_ Hrun].
    destruct (Hrun eq_refl) as [_ Hnode].
    destruct (getGraphIntputShape g [IVTensor [2; 3]] init) as [r0 st0] eqn:H0.
    assert (Hr0 : r0 = Value tt).
    { apply (f_equal fst) in H0. vm_compute in H0. congruence. }
    subst r0.
    destruct (pass_each shapeOnNode
                [mkNode aten_relu [0%nat] [1%nat] TensorType None None None] st0)
      as [r1 st1] eqn:H1.
    assert (Hst0 : st0 = (getGraphIntputShape g [IVTensor [2; 3]] init).2)
      by (by rewrite H0).
    assert (Hr1 : r1 = Value tt).
    { apply (f_equal fst) in H1. rewrite Hst0 in H1. vm_compute in H1. congruence. }
    subst r1.
    assert (Hst1 : st1 = (pass_each shapeOnNode
                [mkNode aten_relu [0%nat] [1%nat] TensorType None None None] st0).2)
      by (by rewrite H1).
    destruct (shapeOnNode
                (mkNode aten_mm [1%nat; 1%nat] [2%nat] TensorType None None None)
                st1) as [r2 st2] eqn:H2.
    assert (Hr2 : r2 = Failure (MAKE_ERR ShapeMismatch [3; 2])).
    { apply (f_equal fst) in H2. rewrite Hst1, Hst0 in H2.
      vm_compute in H2. congruence. }
    subst r2.
    destruct (Hnode st0
                [mkNode aten_relu [0%nat] [1%nat] TensorType None None None]
                (mkNode aten_mm [1%nat; 1%nat] [2%nat] TensorType None None None)
                [mkNode aten_relu [2%nat] [3%nat] TensorType None None None]
                _ st1 st2 eq_refl eq_refl H1 H2) as (Hres & _ & Hout).
    exists st1. split; [exact Hres|].
    rewrite Hout. rewrite Hst1, Hst0. by vm_compute.
Defined.

End DriverClaims.

(** ** Shapes without negative sizes *)

Section NonNegativeRules.

Lemma for_loop_inv {S} (P : S → Prop) (body : Z → S → Expected S)
    (n : nat) (i : Z) (s s' : S) :
  (∀ j x x', P x → body j x = Value x' → P x') →
  P s → for_loop body i n s = Value s' → P s'.
Proof.
  intros Hbody. revert i s. induction n as [|n IH]; intros i s Hs H.
  - simpl in H. by injection H as <-.
  - cbn [for_loop] in H.
    apply bind_Value in H as (s1 & H1 & H).
    apply bind_Value in H as (i' & _ & H).
    apply (IH i' s1); [|done]. by apply (Hbody i s).
Qed.

Lemma vec_at_elem {A} (v : list A) (idx : Z) (x : A) :
  vec_at v idx = Value x → x ∈ v.
Proof.
  unfold vec_at. case_bool_decide as Hcase1; [|done].
  destruct (v !! Z.to_nat idx) as [y|] eqn:Hy; [|done].
  intros [= <-]. by apply list_elem_of_lookup_2 in Hy.
Qed.

Lemma vec_at_nonneg (t : list Z) (idx x : Z) :
  nonneg t → vec_at t idx = Value x → 0 ≤ x.
Proof.
  intros Ht Hx. apply vec_at_elem in Hx.
  by apply (proj1 (Forall_forall _ _) Ht).
Qed.

Lemma vec_set_nonneg (t : list Z) (idx x : Z) (t' : list Z) :
  nonneg t → 0 ≤ x → vec_set t idx x = Value t' → nonneg t'.
Proof.
  unfold vec_set. case_bool_decide as Hcase2; [|done]. intros Ht Hx [= <-].
  by apply Forall_insert.
Qed.

Lemma vec_at_meta_nonneg (metas : MetaStack) (idx : Z) (t : list Z) :
  Forall (λ m, nonneg (shape m)) metas →
  shape <$> vec_at metas idx = Value t → nonneg t.
Proof.
  intros Hall H. apply fmap_Value in H as (m & Hm & ->).
  apply vec_at_elem in Hm. by apply (proj1 (Forall_forall _ _) Hall).
Qed.

(** The size the binary rule chooses is a size of one of the operands. *)
Lemma binaryOp_pick_nonneg (t0 t1 : list Z) (i y : Z) :
  nonneg t0 → nonneg t1 → binaryOp_pick t0 t1 i = Value y → 0 ≤ y.
Proof.
  intros H0 H1. unfold binaryOp_pick. cbv zeta. intros H.
  apply bind_Value in H as (c0 & _ & H). destruct c0.
  { by apply (vec_at_nonneg t1) in H. }
  apply bind_Value in H as (c1 & _ & H). destruct c1.
  { by apply (vec_at_nonneg t0) in H. }
  apply bind_Value in H as (b & _ & H).
  apply bind_Value in H as (a & _ & H).
  case_bool_decide as Hcase3; [done|]. by apply (vec_at_nonneg t1) in H.
Qed.

Lemma binaryOp_nonneg (metas : MetaStack) (s : list Z) :
  Forall (λ m, nonneg (shape m)) metas → binaryOp metas = Value s → nonneg s.
Proof.
  intros Hall. unfold binaryOp. case_bool_decide as Hcase4; [done|]. intros H.
  apply bind_Value in H as (t0 & Ht0 & H).
  apply bind_Value in H as (t1 & Ht1 & H).
  apply (vec_at_meta_nonneg _ _ _ Hall) in Ht0.
  apply (vec_at_meta_nonneg _ _ _ Hall) in Ht1.
  cbv zeta in H. case_bool_decide as Hcase5; [by injection H as <-|].
  revert H. apply for_loop_inv.
  - intros j x x' Hx Hbody. unfold binaryOp_body in Hbody.
    apply bind_Value in Hbody as (y & Hy & Hset).
    apply (vec_set_nonneg _ _ _ _ Hx) in Hset; [done|].
    by apply (binaryOp_pick_nonneg t0 t1 j).
  - unfold nonneg. apply Forall_replicate. lia.
Qed.

Lemma mm_nonneg (metas : MetaStack) (s : list Z) :
  Forall (λ m, nonneg (shape m)) metas → mm metas = Value s → nonneg s.
Proof.
  intros Hall. unfold mm. case_bool_decide as Hcase6; [done|]. intros H.
  apply bind_Value in H as (t0 & Ht0 & H).
  apply bind_Value in H as (t1 & Ht1 & H).
  apply (vec_at_meta_nonneg _ _ _ Hall) in Ht0.
  apply (vec_at_meta_nonneg _ _ _ Hall) in Ht1.
  case_bool_decide as Hcase7; [done|].
  apply bind_Value in H as (a & _ & H).
  apply bind_Value in H as (b & _ & H).
  case_bool_decide as Hcase8; [done|].
  apply bind_Value in H as (x & Hx & H).
  apply bind_Value in H as (y & Hy & H).
  injection H as <-.
  apply (vec_at_nonneg _ _ _ Ht0) in Hx. apply (vec_at_nonneg _ _ _ Ht1) in Hy.
  by repeat constructor.
Qed.

Lemma bmm_nonneg (metas : MetaStack) (s : list Z) :
  Forall (λ m, nonneg (shape m)) metas → bmm metas = Value s → nonneg s.
Proof.
  intros Hall. unfold bmm. case_bool_decide as Hcase9; [done|]. intros H.
  apply bind_Value in H as (t0 & Ht0 & H).
  apply bind_Value in H as (t1 & Ht1 & H).
  apply (vec_at_meta_nonneg _ _ _ Hall) in Ht0.
  apply (vec_at_meta_nonneg _ _ _ Hall) in Ht1.
  case_bool_decide as Hcase10; [done|].
  apply bind_Value in H as (a0 & _ & H).
  apply bind_Value in H as (b0 & _ & H).
  case_bool_decide as Hcase11; [done|].
  apply bind_Value in H as (a2 & _ & H).
  apply bind_Value in H as (b1 & _ & H).
  case_bool_decide as Hcase12; [done|].
  apply bind_Value in H as (x & Hx & H).
  apply bind_Value in H as (y & Hy & H).
  apply bind_Value in H as (z & Hz & H).
  injection H as <-.
  apply (vec_at_nonneg _ _ _ Ht0) in Hx. apply (vec_at_nonneg _ _ _ Ht0) in Hy.
  apply (vec_at_nonneg _ _ _ Ht1) in Hz.
  by repeat constructor.
Qed.

Lemma addmm_nonneg (metas : MetaStack) (s : list Z) :
  Forall (λ m, nonneg (shape m)) metas → addmm metas = Value s → nonneg s.
Proof.
  intros Hall. unfold addmm. case_bool_decide as Hcase13; [done|]. intros H.
  apply bind_Value in H as (t0 & Ht0 & H).
  apply bind_Value in H as (t1 & Ht1 & H).
  apply bind_Value in H as (t2 & Ht2 & H).
  apply bind_Value in H as (t & Ht & H).
  apply vec_at_elem in Ht0, Ht1, Ht2.
  pose proof (proj1 (Forall_forall _ _) Hall) as Hin.
  apply binaryOp_nonneg in H; [done|].
  constructor; [by apply Hin|]. constructor; [|constructor].
  case_bool_decide as Hcase14.
  - injection Ht as <-. by apply Hin.
  - apply bind_Value in Ht as (s' & Hs' & Ht). injection Ht as <-. simpl.
    apply mm_nonneg in Hs'; [done|]. by repeat constructor; apply Hin.
Qed.

Lemma fusedConcat_nonneg (metas : MetaStack) (dim : Z) (s : list Z) :
  Forall (λ m, nonneg (shape m)) metas → fusedConcat metas dim = Value s →
  nonneg s.
Proof.
  intros Hall. unfold fusedConcat. case_bool_decide as Hcase15; [done|].
  case_bool_decide as Hcase16.
  { intros H. by apply (vec_at_meta_nonneg _ _ _ Hall) in H. }
  intros H. apply bind_Value in H as (t0 & Ht0 & H).
  apply (vec_at_meta_nonneg _ _ _ Hall) in Ht0.
  apply bind_Value in H as (d & _ & H). case_bool_decide as Hcase17; [done|].
  revert H. apply for_loop_inv; [|done].
  intros i sh sh' Hsh Houter. unfold fusedConcat_outer in Houter.
  apply bind_Value in Houter as (ti & Hti & Houter).
  apply (vec_at_meta_nonneg _ _ _ Hall) in Hti.
  case_bool_decide as Hcase18; [done|].
  revert Houter. apply for_loop_inv; [|done].
  intros j x x' Hx Hinner. rewrite fusedConcat_inner_eq in Hinner.
  case_bool_decide as Hcase19.
  - apply bind_Value in Hinner as (a & Ha & Hinner).
    apply bind_Value in Hinner as (b & Hb & Hinner).
    apply bind_Value in Hinner as (c & Hc & Hinner).
    apply int64_Value in Hc as [-> _].
    apply (vec_at_nonneg _ _ _ Hx) in Ha. apply (vec_at_nonneg _ _ _ Hti) in Hb.
    apply (vec_set_nonneg _ _ _ _ Hx) in Hinner; [done|lia].
  - apply bind_Value in Hinner as (a & _ & Hinner).
    apply bind_Value in Hinner as (b & _ & Hinner).
    case_bool_decide as Hcase20; [done|]. by injection Hinner as <-.
Qed.

(** The split: the chunks are not negative when they fit; a chunk count
    below 1 gives no chunk at all. *)
Lemma constantChunk_nonneg (metas : MetaStack) (chunks dim : Z)
    (outs : list (list Z)) :
  Forall (λ m, nonneg (shape m)) metas →
  (∀ m, metas = [m] → 1 ≤ chunks →
     INT64_MIN ≤ dim ≤ INT64_MAX ∧ vec_size (shape m) ≤ INT64_MAX ∧
     chunks_fit (size_at (Z.to_nat (normalize_dim dim (vec_size (shape m))))
                         (shape m)) chunks) →
  constantChunk metas chunks dim = Value outs → Forall nonneg outs.
Proof.
  intros Hall Hfit H.
  assert (Hone : ∃ m, metas = [m]).
  { unfold constantChunk in H. case_bool_decide as Hsz; [done|].
    destruct metas as [|m [|m' metas]]; [..|eauto|];
      exfalso; unfold vec_size in Hsz; cbn [length] in Hsz; lia. }
  destruct Hone as [m ->]. rewrite Forall_singleton in Hall.
  destruct (decide (1 ≤ chunks)) as [Hchunks|Hchunks].
  - destruct (Hfit m eq_refl Hchunks) as (Hdim & Hrank & Hc).
    apply constantChunk_Value_inv in H as (Hnd & Hmax & s & Hs & ->); try done.
    unfold chunks_fit, size_at in Hc. rewrite Hs in Hc. simpl in Hc.
    assert (Hpos : 0 ≤ s).
    { apply list_elem_of_lookup_2 in Hs.
      by apply (proj1 (Forall_forall _ _) Hall). }
    rewrite chunks_replicate by done.
    rewrite quot_ceil_div by lia.
    pose proof (ceil_div_bounds s chunks ltac:(lia)) as Hceil.
    assert (0 ≤ ceil_div s chunks) by nia.
    apply Forall_app. split.
    + apply Forall_replicate. apply Forall_insert; [done|lia].
    + apply Forall_singleton. apply Forall_insert; [done|lia].
  - unfold constantChunk in H. case_bool_decide as Hsz; [done|].
    apply bind_Value in H as (t & _ & H). cbv zeta in H.
    case_bool_decide as Hrange; [done|].
    apply bind_Value in H as (s & _ & H).
    apply bind_Value in H as (n1 & _ & H).
    apply bind_Value in H as (n2 & _ & H).
    apply bind_Value in H as (c & _ & H).
    apply bind_Value in H as (k & _ & H).
    apply bind_Value in H as (p' & _ & H).
    apply bind_Value in H as (r & _ & H).
    replace (Z.to_nat chunks) with 0%nat in H by lia.
    simpl in H. by injection H as <-.
Qed.

Lemma primConstant_tensor_nonneg (node : Node) (v : list Z) :
  const_nonneg node → output_type node = TensorType →
  primConstant node = Value v → nonneg v.
Proof.
  intros Hconst Htype. unfold primConstant. rewrite Htype. intros H.
  apply bind_Value in H as (o & _ & H).
  unfold node_t in H. destruct (attr_value node) as [[| |]|] eqn:Ha; try done.
  injection H as <-. by apply Hconst.
Qed.

(** The rules: but for the values of constants that are no tensors, the
    shapes a rule returns have no negative size. *)
Lemma shapeOnNode_rule_nonneg (node : Node) (metas : MetaStack)
    (outs : list (list Z)) :
  Forall (λ m, nonneg (shape m)) metas →
  const_nonneg node →
  (kind node = prim_ConstantChunk →
   ∀ m chunks dim,
     metas = [m] → attr_chunks node = Some (attr_int chunks) →
     attr_dim node = Some (attr_int dim) → 1 ≤ chunks →
     INT64_MIN ≤ dim ≤ INT64_MAX ∧ vec_size (shape m) ≤ INT64_MAX ∧
     chunks_fit (size_at (Z.to_nat (normalize_dim dim (vec_size (shape m))))
                         (shape m)) chunks) →
  shapeOnNode_rule node metas = Value outs →
  (kind node = prim_Constant ∧ output_type node ≠ TensorType) ∨
  Forall nonneg outs.
Proof.
  intros Hall Hconst Hsplit. unfold shapeOnNode_rule.
  destruct (kind node) eqn:Hkind; intros H.
  - destruct (output_type node) eqn:Ht; try by left. right.
    apply bind_Value in H as (v & Hv & H). injection H as <-.
    apply Forall_singleton. by apply (primConstant_tensor_nonneg node).
  - right. case_bool_decide; [done|].
    apply bind_Value in H as (m & Hm & H). injection H as <-.
    apply Forall_singleton. apply vec_at_elem in Hm.
    by apply (proj1 (Forall_forall _ _) Hall).
  - right. case_bool_decide; [done|].
    apply bind_Value in H as (m & Hm & H). injection H as <-.
    apply Forall_singleton. apply vec_at_elem in Hm.
    by apply (proj1 (Forall_forall _ _) Hall).
  - right. case_bool_decide; [done|].
    apply bind_Value in H as (m & Hm & H). injection H as <-.
    apply Forall_singleton. apply vec_at_elem in Hm.
    by apply (proj1 (Forall_forall _ _) Hall).
  - right. apply bind_Value in H as (v & Hv & H). injection H as <-.
    apply Forall_singleton. by apply (binaryOp_nonneg metas).
  - right. apply bind_Value in H as (v & Hv & H). injection H as <-.
    apply Forall_singleton. by apply (binaryOp_nonneg metas).
  - right. apply bind_Value in H as (v & Hv & H). injection H as <-.
    apply Forall_singleton. by apply (binaryOp_nonneg metas).
  - right. apply bind_Value in H as (v & Hv & H). injection H as <-.
    apply Forall_singleton. by apply (binaryOp_nonneg metas).
  - right. apply bind_Value in H as (v & Hv & H). injection H as <-.
    apply Forall_singleton. by apply (mm_nonneg metas).
  - right. apply bind_Value in H as (v & Hv & H). injection H as <-.
    apply Forall_singleton. by apply (addmm_nonneg metas).
  - right. apply bind_Value in H as (v & Hv & H). injection H as <-.
    apply Forall_singleton. by apply (bmm_nonneg metas).
  - right. apply bind_Value in H as (d & _ & H).
    apply bind_Value in H as (v & Hv & H). injection H as <-.
    apply Forall_singleton. by apply (fusedConcat_nonneg metas d).
  - right. apply bind_Value in H as (chunks & Hchunks & H).
    apply bind_Value in H as (d & Hd & H).
    apply (constantChunk_nonneg metas chunks d); [done| |done].
    intros m -> Hpos. apply (Hsplit eq_refl m chunks d); [done| | |done].
    + unfold node_i in Hchunks.
      destruct (attr_chunks node) as [[| |]|]; try done. by injection Hchunks as ->.
    + unfold node_i in Hd.
      destruct (attr_dim node) as [[| |]|]; try done. by injection Hd as ->.
  - done.
Qed.
End NonNegativeRules.

Section NonNegativeStore.

Lemma preserves_bind {A B} (P : State → Prop) (m : Pass A) (f : A → Pass B) :
  preserves P m → (∀ a, preserves P (f a)) → preserves P (m ≫= f).
Proof.
  intros Hm Hf st r st' HP. unfold mbind, Pass_bind.
  destruct (m st) as [[a| |] st1] eqn:Hst.
  - apply (Hf a). by apply (Hm _ _ _ HP Hst).
  - intros [= <- <-]. by apply (Hm _ _ _ HP Hst).
  - intros [= <- <-]. by apply (Hm _ _ _ HP Hst).
Qed.

Lemma preserves_lift_bind {A B} (P : State → Prop) (m : Expected A)
    (f : A → Pass B) :
  (∀ a, m = Value a → preserves P (f a)) → preserves P (lift m ≫= f).
Proof.
  intros Hf st r st' HP. unfold mbind, Pass_bind, lift.
  destruct m as [a| |].
  - by apply (Hf a).
  - by intros [= <- <-].
  - by intros [= <- <-].
Qed.

Lemma preserves_lift {A} (P : State → Prop) (m : Expected A) :
  preserves P (lift m).
Proof. by intros st r st' HP [= <- <-]. Qed.

Lemma preserves_ret {A} (P : State → Prop) (a : A) : preserves P (mret a).
Proof. by intros st r st' HP [= <- <-]. Qed.

Lemma preserves_pass_loop (P : State → Prop) (body : Z → Pass unit) (n : nat)
    (i : Z) :
  (∀ j, preserves P (body j)) → preserves P (pass_loop body i n).
Proof.
  intros Hbody. revert i. induction n as [|n IH]; intros i.
  - apply preserves_ret.
  - cbn [pass_loop]. apply preserves_bind; [done|]. intros _.
    apply preserves_lift_bind. intros i' _. apply IH.
Qed.

Lemma preserves_set_shape (k : ValueRef) (s : list Z) :
  nonneg s → preserves store_nonneg (set_shape k s).
Proof.
  intros Hs st r st' [Hmap Hout] [= <- <-]. split; [|done].
  intros k' m. cbn [shapeMap_]. rewrite lookup_insert.
  case_decide; [|apply Hmap]. by intros [= <-].
Qed.

Lemma preserves_set_intValue (k : ValueRef) (v : list Z) :
  preserves store_nonneg (set_intValue k v).
Proof.
  intros st r st' [Hmap Hout] [= <- <-]. split; [|done].
  intros k' m. cbn [shapeMap_]. rewrite lookup_insert.
  case_decide; [|apply Hmap]. intros [= <-]. cbn [shape]. unfold entry.
  destruct (shapeMap_ st !! k) as [m'|] eqn:Hk; simpl.
  - by apply (Hmap k).
  - constructor.
Qed.

(** The inputs of a node are fetched from the store. *)
Lemma getNodeInputShape_lookup (sm : gmap ValueRef VariableMeta)
    (l : list ValueRef) (metas : MetaStack) :
  mapM (λ input, match sm !! input with
                 | Some m => Value m
                 | None => Fatal CheckFailed
                 end) l = Value metas →
  Forall2 (λ k m, sm !! k = Some m) l metas.
Proof.
  revert metas. induction l as [|k l IH]; intros metas H.
  - injection H as <-. constructor.
  - cbn [mapM] in H. apply bind_Value in H as (m & Hm & H).
    apply bind_Value in H as (ms & Hms & H). injection H as <-.
    constructor; [|by apply IH]. by destruct (sm !! k) as [m'|]; simplify_eq.
Qed.

(** Putting shapes without negative sizes into the map keeps the
    invariant. *)
Lemma shapeOnNode_store_preserves (node : Node) (outs : list (list Z)) :
  (kind node = prim_Constant ∧ output_type node ≠ TensorType) ∨
  Forall nonneg outs →
  preserves store_nonneg (shapeOnNode_store node outs).
Proof.
  intros Houts.
  assert (Hv : ∀ idx v, Forall nonneg outs → vec_at outs idx = Value v → nonneg v).
  { intros idx v Hall Hat. apply vec_at_elem in Hat.
    by apply (proj1 (Forall_forall _ _) Hall). }
  assert (Hloop : Forall nonneg outs → preserves store_nonneg
    (pass_loop (λ i, out ← lift (vec_at (outputs node) (to_size_t i));
                     v ← lift (vec_at outs (to_size_t i));
                     set_shape out v) 0 (length (outputs node)))).
  { intros Hall. apply preserves_pass_loop. intros j.
    apply preserves_lift_bind. intros out _.
    apply preserves_lift_bind. intros v Hat.
    apply preserves_set_shape. by apply (Hv (to_size_t j)). }
  unfold shapeOnNode_store.
  destruct (kind node) eqn:Hkind;
    try (apply Hloop; by destruct Houts as [[? _]|?]).
  apply preserves_lift_bind. intros out _.
  assert (Hscalar : preserves store_nonneg
    (set_shape out [1];; v ← lift (vec_at outs 0); set_intValue out v)).
  { apply preserves_bind.
    - apply preserves_set_shape. repeat constructor. lia.
    - intros _. apply preserves_lift_bind. intros v _.
      apply preserves_set_intValue. }
  destruct (output_type node) eqn:Htype; try exact Hscalar.
  apply preserves_lift_bind. intros v Hat. apply preserves_set_shape.
  destruct Houts as [[_ Hne]|Hall]; [done|]. by apply (Hv 0).
Qed.

(** One node keeps the invariant. *)
Lemma shapeOnNode_nonneg (node : Node) (st : State) (r : Expected unit)
    (st' : State) :
  store_nonneg st → const_nonneg node → split_fits st node →
  shapeOnNode node st = (r, st') → store_nonneg st'.
Proof.
  intros Hst Hconst Hsplit. unfold shapeOnNode, mbind, Pass_bind.
  unfold getNodeInputShape.
  destruct (mapM _ (inputs node)) as [metas| |] eqn:Hmetas;
    [|by intros [= <- <-]..].
  apply getNodeInputShape_lookup in Hmetas.
  assert (Hall : Forall (λ m, nonneg (shape m)) metas).
  { apply Forall_forall. intros m Hm.
    apply list_elem_of_lookup_1 in Hm as [i Hi].
    destruct (Forall2_lookup_r _ _ _ _ _ Hmetas Hi) as (k & _ & Hk).
    by apply (proj1 Hst k). }
  unfold lift.
  destruct (shapeOnNode_rule node metas) as [outs| |] eqn:Hrule;
    [|by intros [= <- <-]..].
  intros Hstore.
  apply (shapeOnNode_store_preserves node outs) in Hstore; [done| |done].
  apply (shapeOnNode_rule_nonneg node metas); [done..| |done].
  intros Hkind m chunks dim -> Hchunks Hdim Hpos.
  apply Forall2_length in Hmetas as Hlen.
  destruct (inputs node) as [|k [|k' ks]] eqn:Hin; try done.
  apply Forall2_cons in Hmetas as [Hk _].
  by apply (Hsplit Hkind k).
Qed.

(** The nodes of a graph, one after the other, keep the invariant. *)
Lemma pass_each_shapeOnNode_nonneg (nodes : list Node) (st : State)
    (r : Expected unit) (st' : State) :
  store_nonneg st → Forall const_nonneg nodes → splits_fit nodes st →
  pass_each shapeOnNode nodes st = (r, st') → store_nonneg st'.
Proof.
  revert st. induction nodes as [|node nodes IH]; intros st Hst Hconst Hfit.
  - by intros [= <- <-].
  - apply Forall_cons in Hconst as [Hnode Hconst].
    destruct Hfit as [Hsplit Hrest].
    cbn [pass_each]. unfold mbind, Pass_bind.
    destruct (shapeOnNode node st) as [r1 st1] eqn:Hstep.
    pose proof (shapeOnNode_nonneg _ _ _ _ Hst Hnode Hsplit Hstep) as Hst1.
    destruct r1 as [[]| |]; [|by intros [= <- <-]..].
    apply IH; [done..|]. by apply Hrest.
Qed.

(** The materializer keeps the invariant. *)
Lemma getGraphIntputShape_nonneg (graph_ : Graph) (inputs_ : list IValue) :
  inputs_nonneg inputs_ →
  preserves store_nonneg (getGraphIntputShape graph_ inputs_).
Proof.
  intros Hin. apply preserves_pass_loop. intros j.
  unfold getGraphIntputShape_body.
  apply preserves_lift_bind. intros k _.
  apply preserves_bind; [apply preserves_set_shape; constructor|]. intros _.
  apply preserves_bind; [apply preserves_set_intValue|]. intros _.
  apply preserves_lift_bind. intros v Hv. apply vec_at_elem in Hv.
  destruct v as [sizes|b|z|l|].
  - apply preserves_set_shape. by apply Hin.
  - apply preserves_bind; [apply preserves_set_shape; repeat constructor; lia|].
    intros _. apply preserves_lift_bind. intros x _. apply preserves_set_intValue.
  - apply preserves_bind; [apply preserves_set_shape; repeat constructor; lia|].
    intros _. apply preserves_lift_bind. intros x _. apply preserves_set_intValue.
  - apply preserves_bind; [|intros _; apply preserves_set_intValue].
    apply preserves_set_shape. repeat constructor; unfold vec_size; lia.
  - apply preserves_lift.
Qed.

(** Collecting the outputs keeps the invariant. *)
Lemma generateGraphOutputShape_nonneg (graph_ : Graph) :
  preserves store_nonneg (generateGraphOutputShape graph_).
Proof.
  unfold generateGraphOutputShape. generalize (g_outputs graph_). intros l.
  induction l as [|o l IH]; [apply preserves_ret|].
  cbn [pass_each]. apply preserves_bind; [|by intros _].
  intros st r st' [Hmap Hout].
  destruct (shapeMap_ st !! o) as [m|] eqn:Ho; intros [= <- <-]; [|done].
  split; [done|]. cbn [outputShape_]. apply Forall_app. split; [done|].
  apply Forall_singleton. by apply (Hmap o).
Qed.

End NonNegativeStore.

Section NonNegativeClaims.

(** C3 (as stated, refuted): a pass over a graph with one tensor input
    of shape [3], split into 5 chunks, succeeds and stores and returns the
    shape [-1]. *)
Lemma store_nonneg_counterexample :
  inputs_nonneg [IVTensor [3]] ∧
  constantChunk [ofShape [3]] 5 0 = Value [[1]; [1]; [1]; [1]; [-1]] ∧
  ∃ st,
    run (mkGraph [0%nat]
           [ mkNode prim_ConstantChunk [0%nat] [1; 2; 3; 4; 5]%nat TensorType
               None (Some (attr_int 5)) (Some (attr_int 0)) ]
           [5%nat])
        [IVTensor [3]] init = (Value tt, st) ∧
    shapeMap_ st !! 5%nat = Some (mkMeta [-1] []) ∧
    outputShape_ st = [[-1]] ∧
    ¬ store_nonneg st.
Proof.
  split; [|split; [by vm_compute|]].
  - intros sizes Hin. apply list_elem_of_singleton in Hin. injection Hin as ->.
    repeat constructor; lia.
  - eexists. split; [by vm_compute|]. split; [by vm_compute|].
    split; [by vm_compute|].
    intros [_ Hout]. cbn [outputShape_] in Hout.
    rewrite Forall_singleton in Hout. unfold nonneg in Hout.
    rewrite Forall_singleton in Hout. lia.
Qed.

(** C3 (amended): when the tensor inputs and the tensor constants have
    no negative size and every split with a chunk count of 1 or more
    splits a dimension that its chunks fit, that is with
    ceil(dim_size / chunks) * (chunks - 1) <= dim_size, every shape in the
    store and every output shape collected, at the end of the pass or where
    it stopped, has no negative size; and but for the split every rule of
    the dispatcher returns shapes without a negative size for input shapes
    without one. *)
Theorem store_nonneg_invariant (graph_ : Graph) (inputs_ : list IValue)
    (st st' : State) (r : Expected unit) :
  store_nonneg st → inputs_nonneg inputs_ →
  Forall const_nonneg (g_nodes graph_) →
  (∀ st0, getGraphIntputShape graph_ inputs_ st = (Value tt, st0) →
          splits_fit (g_nodes graph_) st0) →
  run graph_ inputs_ st = (r, st') →
  store_nonneg st' ∧
  (∀ (node : Node) (metas : MetaStack) (outs : list (list Z)),
     kind node ≠ prim_ConstantChunk → const_nonneg node →
     Forall (λ m, nonneg (shape m)) metas →
     shapeOnNode_rule node metas = Value outs →
     (kind node = prim_Constant ∧ output_type node ≠ TensorType) ∨
     Forall nonneg outs).
Proof.
  intros Hst Hin Hconst Hfit Hrun. split.
  - revert Hrun. unfold run. case_bool_decide as Harity.
    { by intros [= <- <-]. }
    unfold mbind, Pass_bind.
    destruct (getGraphIntputShape graph_ inputs_ st) as [r0 st0] eqn:Hmat.
    pose proof (getGraphIntputShape_nonneg graph_ inputs_ Hin _ _ _ Hst Hmat)
      as Hst0.
    destruct r0 as [[]| |]; [|by intros [= <- <-]..].
    destruct (pass_each shapeOnNode (g_nodes graph_) st0) as [r1 st1] eqn:Hnodes.
    pose proof (pass_each_shapeOnNode_nonneg _ _ _ _ Hst0 Hconst
                  (Hfit st0 eq_refl) Hnodes) as Hst1.
    destruct r1 as [[]| |]; [|by intros [= <- <-]..].
    by apply generateGraphOutputShape_nonneg.
  - intros node metas outs Hkind Hnode Hmetas.
    by apply shapeOnNode_rule_nonneg.
Qed.

Lemma store_nonneg_invariant_witness :
  (run (mkGraph [0%nat]
          [ mkNode prim_ConstantChunk [0%nat] [1; 2; 3]%nat TensorType
              None (Some (attr_int 3)) (Some (attr_int 0));
            mkNode prim_FusedConcat [1; 2; 3]%nat [4%nat] TensorType
              None None (Some (attr_int 0)) ]
          [4%nat])
       [IVTensor [10; 8]] init).1 = Value tt ∧
  store_nonneg
    (run (mkGraph [0%nat]
            [ mkNode prim_ConstantChunk [0%nat] [1; 2; 3]%nat TensorType
                None (Some (attr_int 3)) (Some (attr_int 0));
              mkNode prim_FusedConcat [1; 2; 3]%nat [4%nat] TensorType
                None None (Some (attr_int 0)) ]
            [4%nat])
         [IVTensor [10; 8]] init).2.
Proof.
  set (g := mkGraph [0%nat]
          [ mkNode prim_ConstantChunk [0%nat] [1; 2; 3]%nat TensorType
              None (Some (attr_int 3)) (Some (attr_int 0));
            mkNode prim_FusedConcat [1; 2; 3]%nat [4%nat] TensorType
              None None (Some (attr_int 0)) ]
          [4%nat]).
  split; [by vm_compute|].
  apply (store_nonneg_invariant g [IVTensor [10; 8]] init _
           (run g [IVTensor [10; 8]] init).1).
  - split; [|constructor]. intros k m Hk. unfold init in Hk.
    cbn [shapeMap_] in Hk. by rewrite lookup_empty in Hk.
  - intros sizes Hin. apply list_elem_of_singleton in Hin. injection Hin as ->.
    repeat constructor; lia.
  - repeat constructor; intros sizes Hs; discriminate Hs.
  - intros st0 H0.
    assert (Hst0 : st0 = (getGraphIntputShape g [IVTensor [10; 8]] init).2)
      by (by rewrite H0).
    split.
    + intros _ k m chunks dim Hk Hm Hchunks Hdim _.
      injection Hk as <-. injection Hchunks as <-. injection Hdim as <-.
      rewrite Hst0 in Hm. vm_compute in Hm. injection Hm as <-.
      by vm_compute.
    + intros st1 _. split; [|done]. intros Hkind. discriminate Hkind.
  - by destruct (run g [IVTensor [10; 8]] init).
Defined.

End NonNegativeClaims.

(** * Further properties of the engine *)

(** ** More on the result monad *)

Section MapMMore.
Context {A B : Type}.

Lemma mapM_Value_fmap (f : A → Expected B) (g : A → B) (l : list A) :
  (∀ x, x ∈ l → f x = Value (g x)) → mapM f l = Value (g <$> l).
Proof.
  induction l as [|x l IH]; intros Hfg; [done|].
  cbn [mapM]. rewrite (Hfg x) by left. cbn [mbind Expected_bind].
  rewrite IH; [done|]. intros y Hy. apply Hfg. by right.
Qed.

Lemma mapM_Failure_elem (f : A → Expected B) (l : list A) (e : Error) :
  mapM f l = Failure e → ∃ x, x ∈ l ∧ f x = Failure e.
Proof.
  induction l as [|x l IH]; [done|]. cbn [mapM].
  destruct (f x) as [y|e'|u] eqn:Hx; cbn [mbind Expected_bind].
  - destruct (mapM f l) as [ys|e'|u]; cbn [mbind Expected_bind]; [done| |done].
    intros [= ->]. destruct (IH eq_refl) as (z & Hz & Hfz).
    exists z. split; [by right|done].
  - intros [= ->]. exists x. split; [left|done].
  - done.
Qed.

Lemma mapM_Fatal_elem (f : A → Expected B) (l : list A) (u : Fault) :
  mapM f l = Fatal u → ∃ x, x ∈ l ∧ f x = Fatal u.
Proof.
  induction l as [|x l IH]; [done|]. cbn [mapM].
  destruct (f x) as [y|e'|u'] eqn:Hx; cbn [mbind Expected_bind].
  - destruct (mapM f l) as [ys|e'|u']; cbn [mbind Expected_bind]; [done|done|].
    intros [= ->]. destruct (IH eq_refl) as (z & Hz & Hfz).
    exists z. split; [by right|done].
  - done.
  - intros [= ->]. exists x. split; [left|done].
Qed.
End MapMMore.

(** ** More on binaryOp *)

Section BinaryOpMore.

Lemma pick_of_Value (a b : option Z) (y : Z) :
  pick_of a b = Value y → a = Some y ∨ b = Some y.
Proof.
  destruct a as [x|], b as [z|]; simpl; repeat case_bool_decide;
    intros ?; simplify_eq; auto.
Qed.

Lemma pick_of_Fatal (a b : option Z) (u : Fault) :
  pick_of a b = Fatal u → b = None.
Proof.
  destruct a as [x|], b as [z|]; simpl; repeat case_bool_decide; done.
Qed.

Lemma pick_of_Failure (a b : option Z) (e : Error) :
  pick_of a b = Failure e →
  ∃ x y, a = Some x ∧ b = Some y ∧ e = MAKE_ERR ShapeMismatch [x; y] ∧
         x ≠ 1 ∧ y ≠ 1 ∧ x ≠ y.
Proof.
  destruct a as [x|], b as [z|]; simpl; repeat case_bool_decide; try done.
  intros [= <-]. exists x, z. repeat split; congruence.
Qed.

Lemma from_end_self_lookup (t : list Z) (i : Z) :
  0 ≤ i < vec_size t →
  from_end t i = Some (default 0 (t !! Z.to_nat (vec_size t - 1 - i))).
Proof.
  intros Hi. unfold from_end. rewrite bool_decide_eq_true_2 by lia.
  destruct (lookup_lt_is_Some_2 t (Z.to_nat (vec_size t - 1 - i))) as [x Hx];
    [unfold vec_size in *; lia|].
  by rewrite Hx.
Qed.

(** X1: every size of a shape the binary rule returns is a size of one
    of its two operands; a second operand of rank 1 gives the first operand
    back, and otherwise the result has the larger of the two ranks. *)
Theorem binaryOp_sizes_from_operands (m0 m1 : VariableMeta) (s : list Z) :
  binaryOp [m0; m1] = Value s →
  (∀ y, y ∈ s → y ∈ shape m0 ∨ y ∈ shape m1) ∧
  (vec_size (shape m1) = 1 → s = shape m0) ∧
  (vec_size (shape m1) ≠ 1 →
   vec_size s = Z.max (vec_size (shape m0)) (vec_size (shape m1))).
Proof.
  intros H. destruct (decide (vec_size (shape m1) = 1)) as [Hone|Hne].
  - rewrite binaryOp_two, bool_decide_eq_true_2 in H by done.
    injection H as <-. split; [auto|]. split; [done|]. by intros [].
  - apply binaryOp_Value_lookup in H as [Hlen Hpick]; [|done].
    split; [|split; [by intros ?|done]].
    intros y Hy. apply list_elem_of_lookup_1 in Hy as [n Hn].
    set (dim := Z.max (vec_size (shape m0)) (vec_size (shape m1))) in *.
    pose proof (lookup_lt_Some _ _ _ Hn) as Hlt.
    destruct (Hpick (dim - 1 - Z.of_nat n)) as (y' & Hy' & Hp).
    { unfold vec_size in Hlen. lia. }
    replace (Z.to_nat (dim - 1 - (dim - 1 - Z.of_nat n))) with n in Hy' by lia.
    simplify_eq.
    apply pick_of_Value in Hp as [Hp|Hp]; apply from_end_elem in Hp; auto.
Qed.

Lemma binaryOp_sizes_from_operands_witness :
  (∀ y, y ∈ [5; 4; 3] → y ∈ [5; 1; 3] ∨ y ∈ [4; 3]) ∧
  vec_size [5; 4; 3] = Z.max (vec_size [5; 1; 3]) (vec_size [4; 3]).
Proof.
  assert (H : binaryOp [ofShape [5; 1; 3]; ofShape [4; 3]] = Value [5; 4; 3])
    by (by vm_compute).
  destruct (binaryOp_sizes_from_operands _ _ _ H) as (Hin & _ & Hrank).
  split; [exact Hin|]. apply Hrank. by vm_compute.
Defined.

(** X2: the binary rule on a shape and itself returns the shape. *)
Theorem binaryOp_same_shape (m : VariableMeta) :
  vec_size (shape m) ≤ INT_MAX → binaryOp [m; m] = Value (shape m).
Proof.
  intros Hmax. pose proof (binaryOp_closed_form m m) as Hcf. cbv zeta in Hcf.
  rewrite Z.max_id in Hcf. rewrite Hcf by done. clear Hcf.
  case_bool_decide as Hone; [done|].
  set (t := shape m) in *. set (d := vec_size t) in *.
  rewrite (mapM_Value_fmap _ (λ i, default 0 (t !! Z.to_nat (d - 1 - i)))).
  - cbn [mbind Expected_bind]. f_equal.
    apply list_eq_same_length with (length t).
    + done.
    + rewrite length_reverse, length_fmap, length_seqZ. unfold d, vec_size. lia.
    + intros n x y Hn Hx Hy.
      rewrite reverse_lookup in Hx
        by (rewrite length_fmap, length_seqZ; unfold d, vec_size; lia).
      rewrite length_fmap, length_seqZ in Hx.
      rewrite list_lookup_fmap, lookup_seqZ_lt in Hx by (unfold d, vec_size; lia).
      cbn [fmap option_fmap option_map] in Hx. injection Hx as <-.
      replace (Z.to_nat (d - 1 - (0 + Z.of_nat (Z.to_nat d - Datatypes.S n))))
        with n by (unfold d, vec_size; lia).
      by rewrite Hy.
  - intros i Hi. apply elem_of_seqZ in Hi.
    rewrite from_end_self_lookup by (fold d; lia). fold d. simpl.
    repeat case_bool_decide; done.
Qed.

Lemma binaryOp_same_shape_witness :
  binaryOp [ofShape [2; 1; 7]; ofShape [2; 1; 7]] = Value [2; 1; 7].
Proof. apply (binaryOp_same_shape (ofShape [2; 1; 7])). by vm_compute. Defined.

(** X3: when the first operand's rank is not above the second's, the
    binary rule reads nothing out of range: it returns a shape, or
    ShapeMismatch with two sizes that differ and are both other than 1. *)
Theorem binaryOp_no_fault (m0 m1 : VariableMeta) :
  vec_size (shape m0) ≤ vec_size (shape m1) → vec_size (shape m1) ≤ INT_MAX →
  (∃ s, binaryOp [m0; m1] = Value s) ∨
  (∃ x y, binaryOp [m0; m1] = Failure (MAKE_ERR ShapeMismatch [x; y]) ∧
          x ∈ shape m0 ∧ y ∈ shape m1 ∧ x ≠ y ∧ x ≠ 1 ∧ y ≠ 1).
Proof.
  intros Hle Hmax. pose proof (binaryOp_closed_form m0 m1) as Hcf.
  cbv zeta in Hcf. rewrite Z.max_r in Hcf by done. rewrite Hcf by done.
  clear Hcf. case_bool_decide as Hone; [left; eauto|].
  destruct (mapM _ (seqZ 0 (vec_size (shape m1)))) as [ys|e|u] eqn:Hys.
  - left. eauto.
  - right. apply mapM_Failure_elem in Hys as (i & Hi & He).
    apply pick_of_Failure in He as (x & y & Hx & Hy & -> & H1 & H2 & H3).
    apply from_end_elem in Hx, Hy. exists x, y. done.
  - exfalso. apply mapM_Fatal_elem in Hys as (i & Hi & Hu).
    apply elem_of_seqZ in Hi. apply pick_of_Fatal in Hu.
    destruct (from_end_Some (shape m1) i) as [y Hy]; [lia|]. congruence.
Qed.

Lemma binaryOp_no_fault_witness :
  (∃ s, binaryOp [ofShape [4; 3]; ofShape [5; 1; 3]] = Value s) ∨
  (∃ x y, binaryOp [ofShape [4; 3]; ofShape [5; 1; 3]]
            = Failure (MAKE_ERR ShapeMismatch [x; y]) ∧
          x ∈ [4; 3] ∧ y ∈ [5; 1; 3] ∧ x ≠ y ∧ x ≠ 1 ∧ y ≠ 1).
Proof.
  apply (binaryOp_no_fault (ofShape [4; 3]) (ofShape [5; 1; 3])); by vm_compute.
Defined.

End BinaryOpMore.

(** ** bmm *)

Section BatchedMatrixProduct.

Lemma bmm_two (m0 m1 : VariableMeta) :
  bmm [m0; m1] =
    if bool_decide (¬ (vec_size (shape m0) = 3 ∧ vec_size (shape m1) = 3))
    then Failure (MAKE_ERR RankMismatch [])
    else
      a0 ← vec_at (shape m0) 0;
      b0 ← vec_at (shape m1) 0;
      if bool_decide (a0 ≠ b0) then Failure (MAKE_ERR ShapeMismatch [])
      else
        a2 ← vec_at (shape m0) 2;
        b1 ← vec_at (shape m1) 1;
        if bool_decide (a2 ≠ b1) then Failure (MAKE_ERR ShapeMismatch [a2; b1])
        else
          x ← vec_at (shape m0) 0;
          y ← vec_at (shape m0) 1;
          z ← vec_at (shape m1) 2;
          Value [x; y; z].
Proof. reflexivity. Qed.

(** X4: the batched matrix product fails with ArityMismatch unless it
    is given exactly 2 inputs and with RankMismatch unless both shapes have
    rank 3; on [a0,a1,a2] and [b0,b1,b2] it fails with ShapeMismatch when
    the batch sizes a0 and b0 differ, whatever the inner sizes are, then
    with ShapeMismatch on a2 and b1 when these differ, and otherwise
    returns [a0, a1, b2]. *)
Theorem bmm_spec :
  (∀ metas : MetaStack,
     length metas ≠ 2%nat → bmm metas = Failure (MAKE_ERR ArityMismatch [])) ∧
  (∀ m0 m1 : VariableMeta,
     ¬ (length (shape m0) = 3%nat ∧ length (shape m1) = 3%nat) →
     bmm [m0; m1] = Failure (MAKE_ERR RankMismatch [])) ∧
  (∀ (m0 m1 : VariableMeta) (a0 a1 a2 b0 b1 b2 : Z),
     shape m0 = [a0; a1; a2] → shape m1 = [b0; b1; b2] →
     (a0 ≠ b0 → bmm [m0; m1] = Failure (MAKE_ERR ShapeMismatch [])) ∧
     (a0 = b0 → a2 ≠ b1 →
      bmm [m0; m1] = Failure (MAKE_ERR ShapeMismatch [a2; b1])) ∧
     (a0 = b0 → a2 = b1 → bmm [m0; m1] = Value [a0; a1; b2])).
Proof.
  repeat apply conj.
  - intros metas Hlen. unfold bmm.
    rewrite bool_decide_eq_true_2; [done|]. unfold vec_size. lia.
  - intros m0 m1 Hrank. rewrite bmm_two.
    rewrite bool_decide_eq_true_2; [done|]. unfold vec_size. lia.
  - intros m0 m1 a0 a1 a2 b0 b1 b2 H0 H1. rewrite bmm_two, H0, H1. simpl.
    repeat apply conj.
    + intros Hne. by rewrite bool_decide_eq_true_2.
    + intros Heq Hne.
      rewrite (bool_decide_eq_false_2 (a0 ≠ b0)) by (by intros []).
      by rewrite bool_decide_eq_true_2.
    + intros Heq Heq'.
      rewrite (bool_decide_eq_false_2 (a0 ≠ b0)) by (by intros []).
      by rewrite (bool_decide_eq_false_2 (a2 ≠ b1)) by (by intros []).
Qed.

Lemma bmm_spec_witness :
  bmm [ofShape [2; 3; 4]] = Failure (MAKE_ERR ArityMismatch []) ∧
  bmm [ofShape [2; 3]; ofShape [2; 3; 5]] = Failure (MAKE_ERR RankMismatch []) ∧
  bmm [ofShape [2; 3; 4]; ofShape [3; 9; 5]] = Failure (MAKE_ERR ShapeMismatch []) ∧
  bmm [ofShape [2; 3; 4]; ofShape [2; 9; 5]]
    = Failure (MAKE_ERR ShapeMismatch [4; 9]) ∧
  bmm [ofShape [2; 3; 4]; ofShape [2; 4; 5]] = Value [2; 3; 5].
Proof.
  destruct bmm_spec as (Harity & Hrank & Hshape).
  split; [|split; [|split; [|split]]].
  - apply Harity. simpl. lia.
  - apply Hrank. simpl. intros [H _]. lia.
  - apply (Hshape (ofShape [2; 3; 4]) (ofShape [3; 9; 5]) 2 3 4 3 9 5
             eq_refl eq_refl). lia.
  - apply (Hshape (ofShape [2; 3; 4]) (ofShape [2; 9; 5]) 2 3 4 2 9 5
             eq_refl eq_refl); [reflexivity|lia].
  - apply (Hshape (ofShape [2; 3; 4]) (ofShape [2; 4; 5]) 2 3 4 2 4 5
             eq_refl eq_refl); reflexivity.
Defined.

End BatchedMatrixProduct.

(** ** More on constantChunk *)

Section ConstantChunkMore.

Lemma quot_abs_le (a b : Z) : b ≠ 0 → Z.abs (Z.quot a b) ≤ Z.abs a.
Proof.
  intros Hb. rewrite <- Z.quot_abs by done.
  rewrite Z.quot_div_nonneg by lia.
  apply Z.div_le_upper_bound; [lia|]. nia.
Qed.

(** X5: a chunk count below 1 is no error of the split: whatever the
    rule returns then is the empty list of shapes; on a valid dimension a
    chunk count of 0 divides by zero, and a negative one returns the empty
    list. *)
Theorem constantChunk_no_chunks (m : VariableMeta) (chunks dim : Z) :
  let t := shape m in
  let nd := normalize_dim dim (vec_size t) in
  vec_size t ≤ INT64_MAX → INT64_MIN ≤ dim ≤ INT64_MAX →
  0 ≤ nd < vec_size t → chunks ≤ 0 →
  (∀ outs, constantChunk [m] chunks dim = Value outs → outs = []) ∧
  (chunks = 0 → INT64_MIN < size_at (Z.to_nat nd) t ≤ INT64_MAX →
   constantChunk [m] chunks dim = Fatal DivisionByZero) ∧
  (- INT_MAX ≤ chunks < 0 → 0 ≤ size_at (Z.to_nat nd) t ≤ INT_MAX →
   constantChunk [m] chunks dim = Value []).
Proof.
  cbv zeta. set (t := shape m). set (nd := normalize_dim dim (vec_size t)).
  intros Hrank Hdim Hnd Hchunks.
  destruct (lookup_lt_is_Some_2 t (Z.to_nat nd)) as [s Hs];
    [unfold vec_size in *; lia|].
  assert (Hat : vec_at t nd = Value s) by (apply vec_at_Value; [lia|done]).
  unfold size_at. rewrite Hs. change (default 0 (Some s)) with s.
  rewrite constantChunk_one by done. fold t nd.
  rewrite bool_decide_eq_true_2 by done. rewrite Hat.
  cbn [mbind Expected_bind].
  replace (Z.to_nat chunks) with 0%nat by lia.
  repeat apply conj.
  - intros outs H.
    apply bind_Value in H as (n1 & _ & H).
    apply bind_Value in H as (n2 & _ & H).
    apply bind_Value in H as (c & _ & H).
    apply bind_Value in H as (k & _ & H).
    apply bind_Value in H as (p' & _ & H).
    apply bind_Value in H as (r & _ & H).
    simpl in H. by injection H as <-.
  - intros -> Hs0. unfold INT64_MIN, INT64_MAX in Hs0.
    rewrite (int64_ok (s + 0)) by (unfold INT64_MIN, INT64_MAX; lia).
    cbn [mbind Expected_bind].
    rewrite (int64_ok (s + 0 - 1)) by (unfold INT64_MIN, INT64_MAX; lia).
    cbn [mbind Expected_bind]. unfold div64.
    rewrite bool_decide_eq_true_2 by done. reflexivity.
  - intros Hneg Hs0. unfold INT_MAX in Hneg, Hs0.
    rewrite (int64_ok (s + chunks)) by (unfold INT64_MIN, INT64_MAX; lia).
    cbn [mbind Expected_bind].
    rewrite (int64_ok (s + chunks - 1)) by (unfold INT64_MIN, INT64_MAX; lia).
    cbn [mbind Expected_bind]. unfold div64.
    rewrite bool_decide_eq_false_2 by lia.
    pose proof (quot_abs_le (s + chunks - 1) chunks ltac:(lia)) as Hq.
    set (q := Z.quot (s + chunks - 1) chunks) in *.
    assert (Hqb : Z.abs q ≤ 2147483648) by lia.
    rewrite (int64_ok q) by (unfold INT64_MIN, INT64_MAX; lia).
    cbn [mbind Expected_bind].
    rewrite (int64_ok (chunks - 1)) by (unfold INT64_MIN, INT64_MAX; lia).
    cbn [mbind Expected_bind].
    assert (Hp : Z.abs (q * (chunks - 1)) ≤ 2147483648 * 2147483648).
    { rewrite Z.abs_mul. apply Z.mul_le_mono_nonneg; lia. }
    rewrite (int64_ok (q * (chunks - 1))) by (unfold INT64_MIN, INT64_MAX; lia).
    cbn [mbind Expected_bind].
    rewrite (int64_ok (s - q * (chunks - 1))) by (unfold INT64_MIN, INT64_MAX; lia).
    reflexivity.
Qed.

Lemma constantChunk_no_chunks_witness :
  constantChunk [ofShape [10; 8]] 0 0 = Fatal DivisionByZero ∧
  constantChunk [ofShape [10; 8]] (-3) 0 = Value [].
Proof.
  assert (Hrank : vec_size (shape (ofShape [10; 8])) ≤ INT64_MAX) by (by vm_compute).
  assert (Hdim : INT64_MIN ≤ 0 ≤ INT64_MAX) by (by vm_compute).
  assert (Hnd : 0 ≤ normalize_dim 0 (vec_size (shape (ofShape [10; 8])))
                  < vec_size (shape (ofShape [10; 8]))) by (by vm_compute).
  split.
  - destruct (constantChunk_no_chunks (ofShape [10; 8]) 0 0 Hrank Hdim Hnd)
      as (_ & Hzero & _); [lia|].
    apply Hzero; [reflexivity|by vm_compute].
  - destruct (constantChunk_no_chunks (ofShape [10; 8]) (-3) 0 Hrank Hdim Hnd)
      as (_ & _ & Hneg); [lia|].
    apply Hneg; by vm_compute.
Defined.

End ConstantChunkMore.

(** ** More on fusedConcat *)

Section FusedConcatMore.

(** What a successful run of the loop over the dimensions [i .. i + n)
    of one later input tells: the input agrees with the running shape at
    every dimension but the concat one, where its size was added without
    overflow. *)
Lemma fusedConcat_inner_Value (ti : list Z) (d : nat) (n : nat) :
  ∀ (i : Z) (sh sh' : list Z),
    0 ≤ i → i + Z.of_nat n ≤ INT_MAX →
    for_loop (fusedConcat_inner ti (Z.of_nat d)) i n sh = Value sh' →
    (∀ j : nat, i ≤ Z.of_nat j < i + Z.of_nat n → j ≠ d →
       is_Some (sh !! j) ∧ ti !! j = sh !! j) ∧
    (i ≤ Z.of_nat d < i + Z.of_nat n →
     ∃ a b, sh !! d = Some a ∧ ti !! d = Some b ∧ sh' = <[d := a + b]> sh) ∧
    (¬ (i ≤ Z.of_nat d < i + Z.of_nat n) → sh' = sh).
Proof.
  induction n as [|n IH]; intros i sh sh' Hi Hmax H.
  - simpl in H. injection H as <-. repeat apply conj; [lia|lia|done].
  - cbn [for_loop] in H.
    apply bind_Value in H as (s1 & H1 & H).
    apply bind_Value in H as (i' & Hi' & H).
    unfold int_incr in Hi'. case_bool_decide as Hlt; [|discriminate].
    injection Hi' as <-.
    apply IH in H as (Hrest & Hin & Hout); [|lia..].
    rewrite fusedConcat_inner_eq in H1.
    assert (Hsmall : to_size_t i = i).
    { apply to_size_t_small. unfold INT_MAX, SIZE_MOD in *. lia. }
    case_bool_decide as Hid.
    + subst i. rewrite Hsmall in H1.
      apply bind_Value in H1 as (a & Ha & H1).
      apply bind_Value in H1 as (b & Hb & H1).
      apply bind_Value in H1 as (s & Hs & H1).
      apply vec_at_Value in Ha; [|lia]. apply vec_at_Value in Hb; [|lia].
      rewrite Nat2Z.id in Ha, Hb.
      apply int64_Value in Hs as [-> _].
      unfold vec_set in H1. case_bool_decide as Hlen; [|discriminate].
      rewrite Nat2Z.id in H1. injection H1 as <-.
      repeat apply conj.
      * intros j Hj Hjd.
        destruct (Hrest j ltac:(lia) Hjd) as [Hsome Heq].
        rewrite list_lookup_insert_ne in Hsome, Heq by done. done.
      * intros _. exists a, b. rewrite Hout by lia. done.
      * lia.
    + rewrite Hsmall in H1.
      apply bind_Value in H1 as (a & Ha & H1).
      apply bind_Value in H1 as (b & Hb & H1).
      case_bool_decide as Hab; [discriminate|]. injection H1 as <-.
      apply vec_at_Value in Ha; [|lia]. apply vec_at_Value in Hb; [|lia].
      assert (a = b) as <- by (destruct (decide (a = b)); [done|by destruct Hab]).
      repeat apply conj.
      * intros j Hj Hjd.
        destruct (decide (Z.of_nat j = i)) as [<-|Hne].
        -- rewrite Nat2Z.id in Ha, Hb. by rewrite Ha, Hb.
        -- apply Hrest; [lia|done].
      * intros Hd. apply Hin. lia.
      * intros Hd. apply Hout. lia.
Qed.

(** What a successful run of the loop over the later inputs
    [i .. i + n) tells: each of them goes with the first input, and their
    sizes at the concat dimension were added up. *)
Lemma fusedConcat_outer_Value (metas : MetaStack) (t0 : list Z) (d : nat)
    (n : nat) :
  (d < length t0)%nat → Z.of_nat (length t0) ≤ INT_MAX →
  ∀ (i : Z) (acc : Z) (sh' : list Z),
    0 ≤ i → i + Z.of_nat n ≤ INT_MAX →
    for_loop (fusedConcat_outer metas (Z.of_nat (length t0)) (Z.of_nat d)) i n
             (<[d := acc]> t0) = Value sh' →
    let ms := take n (drop (Z.to_nat i) metas) in
    length ms = n ∧ Forall (λ m, compatible t0 d (shape m)) ms ∧
    sh' = <[d := acc + total_at d (shape <$> ms)]> t0.
Proof.
  intros Hd Hrank. induction n as [|n IH]; intros i acc sh' Hi Hmax H.
  - simpl in H. injection H as <-. cbn. repeat apply conj; [done|done|].
    by rewrite Z.add_0_r.
  - cbn [for_loop] in H.
    apply bind_Value in H as (s1 & H1 & H).
    apply bind_Value in H as (i' & Hi' & H).
    unfold int_incr in Hi'. case_bool_decide as Hlt; [|discriminate].
    injection Hi' as <-.
    unfold fusedConcat_outer in H1.
    rewrite (to_size_t_small i) in H1 by (unfold INT_MAX, SIZE_MOD in *; lia).
    rewrite (to_size_t_small (Z.of_nat (length t0))) in H1
      by (unfold INT_MAX, SIZE_MOD in *; lia).
    apply bind_Value in H1 as (ti & Hti & H1).
    apply fmap_Value in Hti as (mi & Hmi & ->).
    apply vec_at_Value in Hmi; [|done].
    case_bool_decide as Hlen; [discriminate|].
    assert (Hlen' : length (shape mi) = length t0).
    { unfold vec_size in Hlen. lia. }
    rewrite ?Nat2Z.id in H1.
    apply fusedConcat_inner_Value in H1 as (Hagree & Hin & _);
      [|done|lia].
    destruct Hin as (a & b & Ha & Hb & ->); [lia|].
    rewrite list_lookup_insert_eq in Ha by done. injection Ha as <-.
    rewrite list_insert_insert_eq in H.
    assert (Hsz : size_at d (shape mi) = b) by (unfold size_at; by rewrite Hb).
    assert (Hcompat : compatible t0 d (shape mi)).
    { split; [done|]. intros j Hjd.
      destruct (decide (j < length t0)%nat) as [Hj|Hj].
      - destruct (Hagree j ltac:(lia) Hjd) as [_ Heq].
        by rewrite list_lookup_insert_ne in Heq.
      - by rewrite !lookup_ge_None_2 by lia. }
    apply IH in H as (Hl & Hall & ->); [|lia..].
    cbv zeta.
    rewrite (drop_S _ _ _ Hmi). cbn [take].
    replace (Z.to_nat (i + 1)) with (Datatypes.S (Z.to_nat i)) in * by lia.
    repeat apply conj.
    + cbn [length]. by rewrite Hl.
    + by apply Forall_cons.
    + cbn [fmap list_fmap]. rewrite total_at_cons, Hsz. f_equal. lia.
Qed.

(** X6: with two inputs or more, the concatenation rule returns a shape
    only if the dimension is within the first input's rank and every later
    input has the first input's rank and its sizes at every dimension but
    the concat one; the shape returned is then the first input's with the
    sum of all the inputs' sizes at the concat dimension, negative sizes
    included. *)
Theorem fusedConcat_Value_inv (m0 m1 : VariableMeta) (rest : MetaStack)
    (dim : Z) (s : list Z) :
  let metas := m0 :: m1 :: rest in
  let t0 := shape m0 in
  let nd := normalize_dim dim (vec_size t0) in
  vec_size t0 ≤ INT_MAX → INT64_MIN ≤ dim ≤ INT64_MAX →
  fusedConcat metas dim = Value s →
  0 ≤ nd < vec_size t0 ∧
  Forall (λ m, compatible t0 (Z.to_nat nd) (shape m)) (m1 :: rest) ∧
  s = <[Z.to_nat nd := total_at (Z.to_nat nd) (shape <$> metas)]> t0.
Proof.
  cbv zeta. set (t0 := shape m0). set (nd := normalize_dim dim (vec_size t0)).
  intros Hrank Hdim H.
  pose proof (fusedConcat_many m0 m1 rest dim Hrank Hdim) as Hm.
  cbv zeta in Hm. fold t0 nd in Hm. rewrite Hm in H. clear Hm.
  case_bool_decide as Hnd; [|discriminate]. split; [done|].
  pose proof (for_loop_Value_bound _ _ _ _ _ H) as [Hn|Hn]; [done|].
  set (d := Z.to_nat nd) in *.
  assert (Hd : (d < length t0)%nat) by (unfold vec_size in *; lia).
  assert (Hid : <[d := size_at d t0]> t0 = t0).
  { apply list_insert_id. unfold size_at.
    destruct (lookup_lt_is_Some_2 t0 d Hd) as [x ->]. done. }
  replace nd with (Z.of_nat d) in H by lia.
  unfold vec_size in H, Hrank. rewrite <- Hid in H at 2.
  apply fusedConcat_outer_Value in H; [|done|done|lia|lia].
  cbv zeta in H. change (Z.to_nat 1) with 1%nat in H.
  cbn [drop] in H.
  change (Datatypes.S (length rest)) with (length (m1 :: rest)) in H.
  rewrite firstn_all in H. destruct H as (_ & Hall & ->).
  split; [done|].
  cbn [fmap list_fmap]. rewrite (total_at_cons d (shape m0)). done.
Qed.

Lemma fusedConcat_Value_inv_witness :
  0 ≤ normalize_dim 1 (vec_size [2; 3]) < vec_size [2; 3] ∧
  Forall (λ m, compatible [2; 3] 1 (shape m)) [ofShape [2; 4]] ∧
  [2; 7] = <[1%nat := total_at 1 [[2; 3]; [2; 4]]]> [2; 3].
Proof.
  apply (fusedConcat_Value_inv (ofShape [2; 3]) (ofShape [2; 4]) [] 1 [2; 7]).
  - by vm_compute.
  - by vm_compute.
  - reflexivity.
Defined.

End FusedConcatMore.

(** ** More on getNodeInputShape and shapeOnNode *)

Section DispatcherMore.

Lemma getNodeInputShape_present (sm : gmap ValueRef VariableMeta)
    (l : list ValueRef) :
  Forall (λ k, is_Some (sm !! k)) l →
  mapM (λ input, match sm !! input with
                 | Some m => Value m
                 | None => Fatal CheckFailed
                 end) l = Value (entry sm <$> l).
Proof.
  induction 1 as [|k l [m Hm] _ IH]; [done|].
  cbn [mapM]. rewrite Hm. cbn [mbind Expected_bind]. rewrite IH.
  cbn [fmap list_fmap]. unfold entry at 2. rewrite Hm. reflexivity.
Qed.

Lemma getNodeInputShape_missing (sm : gmap ValueRef VariableMeta)
    (l : list ValueRef) (k : ValueRef) :
  k ∈ l → sm !! k = None →
  mapM (λ input, match sm !! input with
                 | Some m => Value m
                 | None => Fatal CheckFailed
                 end) l = Fatal CheckFailed.
Proof.
  intros Hk Hnone. induction l as [|x l IH]; [by apply elem_of_nil in Hk|].
  cbn [mapM]. destruct (sm !! x) as [m|] eqn:Hx; [|done].
  cbn [mbind Expected_bind]. rewrite IH; [done|].
  apply elem_of_cons in Hk as [->|Hk]; [congruence|done].
Qed.

(** One turn of the loop that stores the shapes of a node's outputs. *)
Lemma shapeOnNode_store_body (os : list ValueRef) (outs : list (list Z))
    (i : nat) (o : ValueRef) (st : State) :
  os !! i = Some o → Z.of_nat i ≤ INT_MAX →
  (out ← lift (vec_at os (to_size_t (Z.of_nat i)));
   v ← lift (vec_at outs (to_size_t (Z.of_nat i)));
   set_shape out v) st =
    match outs !! i with
    | Some v => set_shape o v st
    | None => (Fatal OutOfRange, st)
    end.
Proof.
  intros Ho Hi.
  rewrite to_size_t_small by (unfold INT_MAX, SIZE_MOD in *; lia).
  unfold mbind, Pass_bind, lift. rewrite !vec_at_nat, Ho.
  by destruct (outs !! i).
Qed.

(** The loop that stores the shapes of a node's outputs, from output
    [i] on: it stores a shape for each output there is a shape for, and
    reads past the end of the shapes if there are more outputs. *)
Lemma shapeOnNode_store_loop (os : list ValueRef) (outs : list (list Z))
    (n : nat) :
  Z.of_nat (length os) ≤ INT_MAX →
  ∀ (i : nat) (st : State),
    (i + n = length os)%nat → (i ≤ length outs)%nat →
    pass_loop (λ i, out ← lift (vec_at os (to_size_t i));
                    v ← lift (vec_at outs (to_size_t i));
                    set_shape out v) (Z.of_nat i) n st =
      (if bool_decide (length os ≤ length outs)%nat
       then Value tt else Fatal OutOfRange,
       mkState (store_shapes (drop i os) (drop i outs) (shapeMap_ st))
               (outputShape_ st)).
Proof.
  intros Hmax. induction n as [|n IH]; intros i st Hin Hi.
  - rewrite bool_decide_eq_true_2 by lia.
    rewrite (drop_ge os) by lia. by destruct st.
  - destruct (lookup_lt_is_Some_2 os i) as [o Ho]; [lia|].
    rewrite pass_loop_S. cbv beta.
    rewrite (shapeOnNode_store_body os outs i o st Ho) by lia.
    rewrite (drop_S os o i Ho).
    destruct (outs !! i) as [v|] eqn:Hv.
    + apply lookup_lt_Some in Hv as Hlt.
      unfold set_shape at 1. rewrite int_incr_ok by lia.
      replace (Z.of_nat i + 1) with (Z.of_nat (Datatypes.S i)) by lia.
      rewrite IH by (cbn [shapeMap_ outputShape_]; lia).
      rewrite (drop_S outs v i Hv). reflexivity.
    + apply lookup_ge_None in Hv.
      rewrite bool_decide_eq_false_2 by lia.
      rewrite (drop_ge outs) by lia. by destruct st.
Qed.

Lemma shapeOnNode_inputs_present (node : Node) (st : State) :
  Forall (λ k, is_Some (shapeMap_ st !! k)) (inputs node) →
  shapeOnNode node st =
    match shapeOnNode_rule node (entry (shapeMap_ st) <$> inputs node) with
    | Value outs => shapeOnNode_store node outs st
    | Failure e => (Failure e, st)
    | Fatal f => (Fatal f, st)
    end.
Proof.
  intros Hall. unfold shapeOnNode, mbind, Pass_bind, getNodeInputShape.
  rewrite getNodeInputShape_present by done. unfold lift.
  by destruct (shapeOnNode_rule node _).
Qed.

Lemma shapeOnNode_input_missing (node : Node) (st : State) (k : ValueRef) :
  k ∈ inputs node → shapeMap_ st !! k = None →
  shapeOnNode node st = (Fatal CheckFailed, st).
Proof.
  intros Hk Hnone. unfold shapeOnNode, mbind, Pass_bind, getNodeInputShape.
  by rewrite (getNodeInputShape_missing _ _ k).
Qed.

(** X7: [getNodeInputShape] hands out the stored metadata of the inputs
    of a node, in the order of the inputs, and leaves the state as it is;
    if one of the inputs has no entry in the store it stops on a failed
    check. *)
Theorem getNodeInputShape_spec (node : Node) (st : State) :
  (Forall (λ k, is_Some (shapeMap_ st !! k)) (inputs node) →
   getNodeInputShape node st
     = (Value (entry (shapeMap_ st) <$> inputs node), st)) ∧
  (∀ k, k ∈ inputs node → shapeMap_ st !! k = None →
   getNodeInputShape node st = (Fatal CheckFailed, st)).
Proof.
  unfold getNodeInputShape. split.
  - intros Hall. by rewrite getNodeInputShape_present.
  - intros k Hk Hnone. by rewrite (getNodeInputShape_missing _ _ k).
Qed.

Lemma getNodeInputShape_spec_witness :
  getNodeInputShape
    (mkNode aten_add [1%nat; 0%nat] [2%nat] TensorType None None None)
    (mkState (<[0%nat := mkMeta [2; 3] []]> (<[1%nat := mkMeta [1] [7]]> ∅)) [])
  = (Value [mkMeta [1] [7]; mkMeta [2; 3] []],
     mkState (<[0%nat := mkMeta [2; 3] []]> (<[1%nat := mkMeta [1] [7]]> ∅)) []) ∧
  getNodeInputShape
    (mkNode aten_add [1%nat; 0%nat] [2%nat] TensorType None None None) init
  = (Fatal CheckFailed, init).
Proof.
  split.
  - rewrite (proj1 (getNodeInputShape_spec
      (mkNode aten_add [1%nat; 0%nat] [2%nat] TensorType None None None)
      (mkState (<[0%nat := mkMeta [2; 3] []]> (<[1%nat := mkMeta [1] [7]]> ∅)) []))).
    + by vm_compute.
    + apply (bool_decide_unpack _). by vm_compute.
  - apply (proj2 (getNodeInputShape_spec
      (mkNode aten_add [1%nat; 0%nat] [2%nat] TensorType None None None) init)
      1%nat).
    + by left.
    + reflexivity.
Defined.

(** X8: [shapeOnNode] looks up the inputs before anything else: an
    input without an entry stops it on a failed check whatever the kind of
    the node, the state untouched. With the inputs there, an error of the
    rule is its result and the state is untouched, and so a node of a kind
    without a rule fails with UnsupportedOperator; the shapes a rule other
    than the constant one returns are stored output by output, each
    keeping the scalar values its entry had, and if the node has more
    outputs than the rule returned shapes the outputs that have one are
    stored and the next read is past the end. *)
Theorem shapeOnNode_spec (node : Node) (st : State) :
  (∀ k, k ∈ inputs node → shapeMap_ st !! k = None →
   shapeOnNode node st = (Fatal CheckFailed, st)) ∧
  (Forall (λ k, is_Some (shapeMap_ st !! k)) (inputs node) →
   let metas := entry (shapeMap_ st) <$> inputs node in
   (∀ e, shapeOnNode_rule node metas = Failure e →
      shapeOnNode node st = (Failure e, st)) ∧
   (∀ f, shapeOnNode_rule node metas = Fatal f →
      shapeOnNode node st = (Fatal f, st)) ∧
   (∀ id, kind node = other_kind id →
      shapeOnNode node st
        = (Failure (MAKE_ERR (UnsupportedOperator (other_kind id)) []), st)) ∧
   (∀ outs, shapeOnNode_rule node metas = Value outs →
      kind node ≠ prim_Constant → vec_size (outputs node) ≤ INT_MAX →
      shapeOnNode node st =
        (if bool_decide (length (outputs node) ≤ length outs)%nat
         then Value tt else Fatal OutOfRange,
         mkState (store_shapes (outputs node) outs (shapeMap_ st))
                 (outputShape_ st)))).
Proof.
  split; [apply shapeOnNode_input_missing|].
  intros Hall. cbv zeta. rewrite shapeOnNode_inputs_present by done.
  repeat apply conj.
  - by intros e ->.
  - by intros f ->.
  - intros id Hkind. unfold shapeOnNode_rule. by rewrite Hkind.
  - intros outs -> Hkind Hmax.
    pose proof (shapeOnNode_store_loop (outputs node) outs
                  (length (outputs node)) Hmax 0%nat st eq_refl ltac:(lia))
      as Hloop.
    rewrite !drop_0 in Hloop. change (Z.of_nat 0) with 0 in Hloop.
    unfold shapeOnNode_store. by destruct (kind node).
Qed.

Lemma shapeOnNode_spec_witness :
  shapeOnNode (mkNode aten_relu [0%nat] [1%nat] TensorType None None None) init
    = (Fatal CheckFailed, init) ∧
  shapeOnNode
    (mkNode prim_ConstantChunk [0%nat] [1%nat; 2%nat; 3%nat] TensorType None
            (Some (attr_int 2)) (Some (attr_int 0)))
    (mkState (<[0%nat := mkMeta [10; 8] []]> ∅) [])
  = (Fatal OutOfRange,
     mkState (store_shapes [1%nat; 2%nat; 3%nat] [[5; 8]; [5; 8]]
                (<[0%nat := mkMeta [10; 8] []]> ∅)) []).
Proof.
  split.
  - apply (proj1 (shapeOnNode_spec
      (mkNode aten_relu [0%nat] [1%nat] TensorType None None None) init) 0%nat).
    + by left.
    + reflexivity.
  - destruct (shapeOnNode_spec
      (mkNode prim_ConstantChunk [0%nat] [1%nat; 2%nat; 3%nat] TensorType None
              (Some (attr_int 2)) (Some (attr_int 0)))
      (mkState (<[0%nat := mkMeta [10; 8] []]> ∅) [])) as [_ Hpresent].
    destruct Hpresent as (_ & _ & _ & Hstore).
    + apply (bool_decide_unpack _). by vm_compute.
    + apply (Hstore [[5; 8]; [5; 8]]).
      * by vm_compute.
      * discriminate.
      * by vm_compute.
Defined.

(** X9: a node of one of the element-wise kinds tanh, relu and sigmoid
    with one input and one output gives the output the shape of the input,
    the scalar values of the output's entry staying as they were; with
    another number of inputs it fails with ArityMismatch and stores
    nothing. *)
Theorem shapeOnNode_unary (node : Node) (st : State) :
  kind node = aten_tanh ∨ kind node = aten_relu ∨ kind node = aten_sigmoid →
  Forall (λ k, is_Some (shapeMap_ st !! k)) (inputs node) →
  (∀ k m o, inputs node = [k] → shapeMap_ st !! k = Some m →
     outputs node = [o] →
     shapeOnNode node st =
       (Value tt,
        mkState (<[o := mkMeta (shape m) (intValue (entry (shapeMap_ st) o))]>
                   (shapeMap_ st))
                (outputShape_ st))) ∧
  (length (inputs node) ≠ 1%nat →
   shapeOnNode node st = (Failure (MAKE_ERR ArityMismatch []), st)).
Proof.
  intros Hkind Hall. rewrite shapeOnNode_inputs_present by done.
  assert (Hrule : shapeOnNode_rule node (entry (shapeMap_ st) <$> inputs node) =
    if bool_decide (¬ (vec_size (entry (shapeMap_ st) <$> inputs node) = 1))
    then Failure (MAKE_ERR ArityMismatch [])
    else m ← vec_at (entry (shapeMap_ st) <$> inputs node) 0; Value [shape m]).
  { unfold shapeOnNode_rule. by destruct Hkind as [->|[->| ->]]. }
  rewrite Hrule. split.
  - intros k m o Hin Hk Hout. rewrite Hin. cbn [fmap list_fmap].
    assert (He : entry (shapeMap_ st) k = m) by (unfold entry; by rewrite Hk).
    rewrite He.
    change (if bool_decide (¬ vec_size [m] = 1)
            then Failure (MAKE_ERR ArityMismatch [])
            else m' ← vec_at [m] 0; Value [shape m'])
      with (Value [shape m] : Expected (list (list Z))).
    unfold shapeOnNode_store.
    assert (Hloop : pass_loop (λ i, out ← lift (vec_at (outputs node) (to_size_t i));
                       v ← lift (vec_at [shape m] (to_size_t i));
                       set_shape out v) 0 (length (outputs node)) st =
      (Value tt,
       mkState (<[o := mkMeta (shape m) (intValue (entry (shapeMap_ st) o))]>
                  (shapeMap_ st))
               (outputShape_ st))).
    { rewrite Hout. reflexivity. }
    by destruct Hkind as [->|[->| ->]].
  - intros Hlen. rewrite bool_decide_eq_true_2; [done|].
    unfold vec_size. rewrite length_fmap. lia.
Qed.

Lemma shapeOnNode_unary_witness :
  shapeOnNode (mkNode aten_tanh [0%nat] [1%nat] TensorType None None None)
              (mkState (<[0%nat := mkMeta [2; 3] []]> ∅) [])
  = (Value tt,
     mkState (<[1%nat := mkMeta [2; 3] []]> (<[0%nat := mkMeta [2; 3] []]> ∅)) []) ∧
  shapeOnNode (mkNode aten_tanh [0%nat; 0%nat] [1%nat] TensorType None None None)
              (mkState (<[0%nat := mkMeta [2; 3] []]> ∅) [])
  = (Failure (MAKE_ERR ArityMismatch []),
     mkState (<[0%nat := mkMeta [2; 3] []]> ∅) []).
Proof.
  split.
  - destruct (shapeOnNode_unary
      (mkNode aten_tanh [0%nat] [1%nat] TensorType None None None)
      (mkState (<[0%nat := mkMeta [2; 3] []]> ∅) [])) as [Hone _].
    + by left.
    + apply (bool_decide_unpack _). by vm_compute.
    + exact (Hone 0%nat (mkMeta [2; 3] []) 1%nat eq_refl eq_refl eq_refl).
  - destruct (shapeOnNode_unary
      (mkNode aten_tanh [0%nat; 0%nat] [1%nat] TensorType None None None)
      (mkState (<[0%nat := mkMeta [2; 3] []]> ∅) [])) as [_ Hmany].
    + by left.
    + apply (bool_decide_unpack _). by vm_compute.
    + apply Hmany. simpl. lia.
Defined.

End DispatcherMore.

(** ** Constant nodes *)

Section ConstantNodes.

(** X10: a constant node with its one output [o]: a tensor constant
    stores its sizes as the shape of [o] and keeps the scalar values the
    entry of [o] had; any other constant stores the shape [1], with the
    scalar value [1] for a float whatever its value, the value of the node
    for an integer or a boolean, and no scalar value for None or a type
    the rule does not know. *)
Theorem shapeOnNode_constant (node : Node) (st : State) (o : ValueRef) :
  kind node = prim_Constant → outputs node = [o] →
  Forall (λ k, is_Some (shapeMap_ st !! k)) (inputs node) →
  let put m :=
    (Value tt, mkState (<[o := m]> (shapeMap_ st)) (outputShape_ st)) in
  (∀ sizes, output_type node = TensorType →
     attr_value node = Some (attr_tensor sizes) →
     shapeOnNode node st
       = put (mkMeta sizes (intValue (entry (shapeMap_ st) o)))) ∧
  (output_type node = FloatType → shapeOnNode node st = put (mkMeta [1] [1])) ∧
  (∀ v, output_type node = IntType ∨ output_type node = BoolType →
     attr_value node = Some (attr_int v) →
     shapeOnNode node st = put (mkMeta [1] [v])) ∧
  (output_type node = NoneType ∨ output_type node = OtherType →
   shapeOnNode node st = put (mkMeta [1] [])).
Proof.
  intros Hkind Hout Hall. cbv zeta.
  rewrite shapeOnNode_inputs_present by done.
  unfold shapeOnNode_rule, shapeOnNode_store, primConstant, node_output.
  rewrite Hkind, Hout. cbn [mbind Expected_bind].
  unfold mbind, Pass_bind, lift, set_shape, set_intValue, entry.
  assert (Hat : ∀ x : list Z, vec_at [x] 0 = Value x) by reflexivity.
  repeat apply conj.
  - intros sizes -> ->. reflexivity.
  - intros ->. cbn. rewrite Hat, lookup_insert_eq. cbn.
    by rewrite insert_insert_eq.
  - intros v [-> | ->] ->; cbn; rewrite Hat, lookup_insert_eq; cbn;
      by rewrite insert_insert_eq.
  - intros [-> | ->]; cbn; rewrite Hat, lookup_insert_eq; cbn;
      by rewrite insert_insert_eq.
Qed.

Lemma shapeOnNode_constant_witness :
  shapeOnNode (mkNode prim_Constant [] [4%nat] TensorType
                      (Some (attr_tensor [2; 3])) None None) init
    = (Value tt, mkState (<[4%nat := mkMeta [2; 3] []]> ∅) []) ∧
  shapeOnNode (mkNode prim_Constant [] [4%nat] FloatType
                      (Some attr_float) None None) init
    = (Value tt, mkState (<[4%nat := mkMeta [1] [1]]> ∅) []) ∧
  shapeOnNode (mkNode prim_Constant [] [4%nat] IntType
                      (Some (attr_int (-7))) None None) init
    = (Value tt, mkState (<[4%nat := mkMeta [1] [-7]]> ∅) []) ∧
  shapeOnNode (mkNode prim_Constant [] [4%nat] NoneType None None None) init
    = (Value tt, mkState (<[4%nat := mkMeta [1] []]> ∅) []).
Proof.
  split; [|split; [|split]].
  - destruct (shapeOnNode_constant
             (mkNode prim_Constant [] [4%nat] TensorType
                     (Some (attr_tensor [2; 3])) None None) init 4%nat
             eq_refl eq_refl (Forall_nil_2 _)) as (Htensor & _).
    exact (Htensor [2; 3] eq_refl eq_refl).
  - destruct (shapeOnNode_constant
             (mkNode prim_Constant [] [4%nat] FloatType
                     (Some attr_float) None None) init 4%nat
             eq_refl eq_refl (Forall_nil_2 _)) as (_ & Hfloat & _).
    exact (Hfloat eq_refl).
  - destruct (shapeOnNode_constant
             (mkNode prim_Constant [] [4%nat] IntType
                     (Some (attr_int (-7))) None None) init 4%nat
             eq_refl eq_refl (Forall_nil_2 _)) as (_ & _ & Hint & _).
    exact (Hint (-7) (or_introl eq_refl) eq_refl).
  - destruct (shapeOnNode_constant
             (mkNode prim_Constant [] [4%nat] NoneType None None None) init 4%nat
             eq_refl eq_refl (Forall_nil_2 _)) as (_ & _ & _ & Hnone).
    exact (Hnone (or_introl eq_refl)).
Defined.

End ConstantNodes.

(** ** What a pass changes in the store *)

Section StoreFrame.

Lemma preserves_pass_each {A} (P : State → Prop) (body : A → Pass unit)
    (l : list A) :
  (∀ x, x ∈ l → preserves P (body x)) → preserves P (pass_each body l).
Proof.
  induction l as [|x l IH]; intros Hbody; [apply preserves_ret|].
  cbn [pass_each]. apply preserves_bind; [apply Hbody; by left|].
  intros _. apply IH. intros y Hy. apply Hbody. by right.
Qed.

(** Storing the outputs of a node keeps what the assignments to the
    entries of its outputs keep. *)
Lemma shapeOnNode_store_preserves_on (P : State → Prop) (node : Node)
    (outs : list (list Z)) :
  (∀ o s, o ∈ outputs node → preserves P (set_shape o s)) →
  (kind node = prim_Constant →
   ∀ o v, o ∈ outputs node → preserves P (set_intValue o v)) →
  preserves P (shapeOnNode_store node outs).
Proof.
  intros Hshape Hval.
  assert (Hloop : preserves P
    (pass_loop (λ i, out ← lift (vec_at (outputs node) (to_size_t i));
                     v ← lift (vec_at outs (to_size_t i));
                     set_shape out v) 0 (length (outputs node)))).
  { apply preserves_pass_loop. intros j.
    apply preserves_lift_bind. intros out Hout. apply vec_at_elem in Hout.
    apply preserves_lift_bind. intros v _. by apply Hshape. }
  unfold shapeOnNode_store.
  destruct (kind node) eqn:Hkind; try exact Hloop.
  apply preserves_lift_bind. intros out Hout.
  assert (Ho : out ∈ outputs node).
  { unfold node_output in Hout.
    destruct (outputs node) as [|o [|]]; simplify_eq. by left. }
  assert (Hscalar : preserves P
    (set_shape out [1];; v ← lift (vec_at outs 0); set_intValue out v)).
  { apply preserves_bind; [by apply Hshape|].
    intros _. apply preserves_lift_bind. intros v _. by apply Hval. }
  destruct (output_type node); try exact Hscalar.
  apply preserves_lift_bind. intros v _. by apply Hshape.
Qed.

Lemma shapeOnNode_preserves_on (P : State → Prop) (node : Node) :
  (∀ o s, o ∈ outputs node → preserves P (set_shape o s)) →
  (kind node = prim_Constant →
   ∀ o v, o ∈ outputs node → preserves P (set_intValue o v)) →
  preserves P (shapeOnNode node).
Proof.
  intros Hshape Hval. unfold shapeOnNode. apply preserves_bind.
  { intros st r st' HP. unfold getNodeInputShape. by intros [= <- <-]. }
  intros metas. apply preserves_lift_bind. intros outs _.
  by apply shapeOnNode_store_preserves_on.
Qed.

Lemma getGraphIntputShape_body_preserves_on (P : State → Prop) (graph_ : Graph)
    (inputs_ : list IValue) (j : Z) :
  (∀ k s, k ∈ g_inputs graph_ → preserves P (set_shape k s)) →
  (∀ k v, k ∈ g_inputs graph_ → preserves P (set_intValue k v)) →
  preserves P (getGraphIntputShape_body graph_ inputs_ j).
Proof.
  intros Hshape Hval. unfold getGraphIntputShape_body.
  apply preserves_lift_bind. intros k Hk. apply vec_at_elem in Hk.
  apply preserves_bind; [by apply Hshape|]. intros _.
  apply preserves_bind; [by apply Hval|]. intros _.
  apply preserves_lift_bind. intros v _.
  destruct v as [sizes|b|z|l|].
  - by apply Hshape.
  - apply preserves_bind; [by apply Hshape|].
    intros _. apply preserves_lift_bind. intros x _. by apply Hval.
  - apply preserves_bind; [by apply Hshape|].
    intros _. apply preserves_lift_bind. intros x _. by apply Hval.
  - apply preserves_bind; [by apply Hshape|]. intros _. by apply Hval.
  - apply preserves_lift.
Qed.

Lemma getGraphIntputShape_preserves_on (P : State → Prop) (graph_ : Graph)
    (inputs_ : list IValue) :
  (∀ k s, k ∈ g_inputs graph_ → preserves P (set_shape k s)) →
  (∀ k v, k ∈ g_inputs graph_ → preserves P (set_intValue k v)) →
  preserves P (getGraphIntputShape graph_ inputs_).
Proof.
  intros Hshape Hval. apply preserves_pass_loop. intros j.
  by apply getGraphIntputShape_body_preserves_on.
Qed.

(** Collecting the outputs does not touch the store. *)
Lemma generateGraphOutputShape_shapeMap (graph_ : Graph) (st : State)
    (r : Expected unit) (st' : State) :
  generateGraphOutputShape graph_ st = (r, st') → shapeMap_ st' = shapeMap_ st.
Proof.
  unfold generateGraphOutputShape. generalize (g_outputs graph_). intros l.
  revert st. induction l as [|o l IH]; intros st.
  - by intros [= <- <-].
  - cbn [pass_each]. unfold mbind, Pass_bind.
    destruct (shapeMap_ st !! o) as [m|]; [|by intros [= <- <-]].
    intros H. by apply IH in H.
Qed.

(** A pass keeps a property of the store that the assignments to the
    entries of the graph inputs and of the outputs of the nodes keep. *)
Lemma run_preserves_on (Pm : gmap ValueRef VariableMeta → Prop)
    (graph_ : Graph) (inputs_ : list IValue) :
  (∀ k s,
     k ∈ g_inputs graph_ ∨
     (∃ node, node ∈ g_nodes graph_ ∧ k ∈ outputs node) →
     preserves (λ st, Pm (shapeMap_ st)) (set_shape k s)) →
  (∀ k v,
     k ∈ g_inputs graph_ ∨
     (∃ node, node ∈ g_nodes graph_ ∧ kind node = prim_Constant ∧
              k ∈ outputs node) →
     preserves (λ st, Pm (shapeMap_ st)) (set_intValue k v)) →
  preserves (λ st, Pm (shapeMap_ st)) (run graph_ inputs_).
Proof.
  intros Hshape Hval. unfold run.
  case_bool_decide as Harity; [apply preserves_lift|].
  apply preserves_bind.
  { apply getGraphIntputShape_preserves_on; intros k x Hk;
      [apply Hshape|apply Hval]; by left. }
  intros _. apply preserves_bind.
  { apply preserves_pass_each. intros node Hnode.
    apply shapeOnNode_preserves_on.
    - intros o s Ho. apply Hshape. right. by exists node.
    - intros Hkind o v Ho. apply Hval. right. by exists node. }
  intros _ st r st' HP H.
  by rewrite (generateGraphOutputShape_shapeMap _ _ _ _ H).
Qed.

(** X11: whatever its result, a pass removes no entry from the store,
    and it leaves alone the entry, or the absence of an entry, of every
    value that is neither an input of the graph nor an output of one of
    its nodes. *)
Theorem run_frame (graph_ : Graph) (inputs_ : list IValue) (st : State)
    (r : Expected unit) (st' : State) (k : ValueRef) :
  run graph_ inputs_ st = (r, st') →
  (is_Some (shapeMap_ st !! k) → is_Some (shapeMap_ st' !! k)) ∧
  (k ∉ g_inputs graph_ →
   (∀ node, node ∈ g_nodes graph_ → k ∉ outputs node) →
   shapeMap_ st' !! k = shapeMap_ st !! k).
Proof.
  intros Hrun. split.
  - intros Hk.
    apply (run_preserves_on (λ m, is_Some (m !! k)) graph_ inputs_)
      with (st := st) (r := r); [| |done|done].
    + intros o s _ st0 r0 st1 H0 [= <- <-]. cbn [shapeMap_].
      rewrite lookup_insert_is_Some. destruct (decide (o = k)); auto.
    + intros o v _ st0 r0 st1 H0 [= <- <-]. cbn [shapeMap_].
      rewrite lookup_insert_is_Some. destruct (decide (o = k)); auto.
  - intros Hin Hout.
    apply (run_preserves_on (λ m, m !! k = shapeMap_ st !! k) graph_ inputs_)
      with (st := st) (r := r); [| |done|done].
    + intros o s Ho st0 r0 st1 H0 [= <- <-]. cbn [shapeMap_].
      rewrite lookup_insert_ne; [done|]. intros ->.
      destruct Ho as [Ho|(node & Hnode & Ho)]; [done|]. by apply (Hout node).
    + intros o v Ho st0 r0 st1 H0 [= <- <-]. cbn [shapeMap_].
      rewrite lookup_insert_ne; [done|]. intros ->.
      destruct Ho as [Ho|(node & Hnode & _ & Ho)]; [done|]. by apply (Hout node).
Qed.

Lemma run_frame_witness :
  let g := mkGraph [0%nat]
             [mkNode aten_relu [0%nat] [1%nat] TensorType None None None]
             [1%nat] in
  let st := mkState (<[7%nat := mkMeta [4] [9]]> ∅) [] in
  is_Some (shapeMap_ (run g [IVTensor [2; 3]] st).2 !! 7%nat) ∧
  shapeMap_ (run g [IVTensor [2; 3]] st).2 !! 7%nat = shapeMap_ st !! 7%nat.
Proof.
  cbv zeta.
  set (g := mkGraph [0%nat]
             [mkNode aten_relu [0%nat] [1%nat] TensorType None None None]
             [1%nat]).
  set (st := mkState (<[7%nat := mkMeta [4] [9]]> ∅) []).
  destruct (run g [IVTensor [2; 3]] st) as [r st'] eqn:Hrun.
  destruct (run_frame g [IVTensor [2; 3]] st r st' 7%nat Hrun) as [Hkeep Hframe].
  split.
  - apply Hkeep. apply (bool_decide_unpack _). by vm_compute.
  - apply Hframe.
    + apply (bool_decide_unpack _). by vm_compute.
    + intros node Hnode. apply list_elem_of_singleton in Hnode as ->.
      apply (bool_decide_unpack _). by vm_compute.
Defined.

(** X12: scalar values come from the inputs of the graph and from its
    constant nodes only: whatever its result, a pass leaves the scalar
    values of every other value as they were, those of the outputs of the
    other nodes included. *)
Theorem run_scalar_values (graph_ : Graph) (inputs_ : list IValue) (st : State)
    (r : Expected unit) (st' : State) (k : ValueRef) :
  run graph_ inputs_ st = (r, st') →
  k ∉ g_inputs graph_ →
  (∀ node, node ∈ g_nodes graph_ → kind node = prim_Constant →
           k ∉ outputs node) →
  intValue (entry (shapeMap_ st') k) = intValue (entry (shapeMap_ st) k).
Proof.
  intros Hrun Hin Hconst.
  apply (run_preserves_on
           (λ m, intValue (entry m k) = intValue (entry (shapeMap_ st) k))
           graph_ inputs_) with (st := st) (r := r); [| |done|done].
  - intros o s _ st0 r0 st1 H0 [= <- <-]. cbn [shapeMap_].
    unfold entry at 1. destruct (decide (o = k)) as [->|Hne].
    + by rewrite lookup_insert_eq.
    + by rewrite lookup_insert_ne.
  - intros o v Ho st0 r0 st1 H0 [= <- <-]. cbn [shapeMap_].
    unfold entry at 1. rewrite lookup_insert_ne; [done|]. intros ->.
    destruct Ho as [Ho|(node & Hnode & Hkind & Ho)]; [done|].
    by apply (Hconst node).
Qed.

Lemma run_scalar_values_witness :
  let g := mkGraph [0%nat]
             [mkNode prim_Constant [] [1%nat] IntType (Some (attr_int 5)) None None;
              mkNode aten_add [0%nat; 1%nat] [2%nat] TensorType None None None]
             [2%nat] in
  intValue (entry (shapeMap_ (run g [IVInt 3] init).2) 2%nat)
    = intValue (entry (shapeMap_ init) 2%nat).
Proof.
  cbv zeta.
  set (g := mkGraph [0%nat]
             [mkNode prim_Constant [] [1%nat] IntType (Some (attr_int 5)) None None;
              mkNode aten_add [0%nat; 1%nat] [2%nat] TensorType None None None]
             [2%nat]).
  destruct (run g [IVInt 3] init) as [r st'] eqn:Hrun.
  apply (run_scalar_values g [IVInt 3] init r st' 2%nat Hrun).
  - apply (bool_decide_unpack _). by vm_compute.
  - intros node Hnode Hkind.
    apply elem_of_cons in Hnode as [->|Hnode].
    + apply (bool_decide_unpack _). by vm_compute.
    + apply list_elem_of_singleton in Hnode as ->. discriminate.
Defined.

End StoreFrame.

(** ** The collected output shapes *)

Section GraphOutputs.

Lemma generateGraphOutputShape_present (l : list ValueRef) (st : State) :
  Forall (λ o, is_Some (shapeMap_ st !! o)) l →
  pass_each (λ output st,
               match shapeMap_ st !! output with
               | Some m =>
                   (Value tt,
                    mkState (shapeMap_ st) (outputShape_ st ++ [shape m]))
               | None => (Fatal CheckFailed, st)
               end) l st =
    (Value tt,
     mkState (shapeMap_ st)
             (outputShape_ st ++ ((λ o, shape (entry (shapeMap_ st) o)) <$> l))).
Proof.
  revert st. induction l as [|o l IH]; intros st Hall.
  - cbn. rewrite app_nil_r. by destruct st.
  - apply Forall_cons in Hall as [[m Hm] Hall].
    cbn [pass_each]. unfold mbind, Pass_bind. rewrite Hm.
    rewrite IH by done. cbn [shapeMap_ outputShape_ fmap list_fmap].
    unfold entry at 2. rewrite Hm. cbn [default from_option].
    by rewrite <- app_assoc.
Qed.

Lemma generateGraphOutputShape_Value (l : list ValueRef) (st st' : State) :
  pass_each (λ output st,
               match shapeMap_ st !! output with
               | Some m =>
                   (Value tt,
                    mkState (shapeMap_ st) (outputShape_ st ++ [shape m]))
               | None => (Fatal CheckFailed, st)
               end) l st = (Value tt, st') →
  Forall (λ o, is_Some (shapeMap_ st !! o)) l.
Proof.
  revert st. induction l as [|o l IH]; intros st H; [constructor|].
  cbn [pass_each] in H. unfold mbind, Pass_bind in H.
  destruct (shapeMap_ st !! o) as [m|] eqn:Hm; [|discriminate].
  constructor; [by rewrite Hm|]. by apply IH in H.
Qed.

(** X13: [generateGraphOutputShape] appends to the collected output
    shapes the stored shape of each output of the graph, in their order,
    and leaves the store alone; at the first output without an entry it
    stops on a failed check, the shapes of the outputs before it appended. *)
Theorem generateGraphOutputShape_spec (graph_ : Graph) (st : State) :
  (Forall (λ o, is_Some (shapeMap_ st !! o)) (g_outputs graph_) →
   generateGraphOutputShape graph_ st =
     (Value tt,
      mkState (shapeMap_ st)
              (outputShape_ st ++
               ((λ o, shape (entry (shapeMap_ st) o)) <$> g_outputs graph_)))) ∧
  (∀ pre o post,
     g_outputs graph_ = pre ++ o :: post →
     Forall (λ o, is_Some (shapeMap_ st !! o)) pre →
     shapeMap_ st !! o = None →
     generateGraphOutputShape graph_ st =
       (Fatal CheckFailed,
        mkState (shapeMap_ st)
                (outputShape_ st ++
                 ((λ o, shape (entry (shapeMap_ st) o)) <$> pre)))).
Proof.
  unfold generateGraphOutputShape. split.
  - apply generateGraphOutputShape_present.
  - intros pre o post -> Hpre Ho.
    rewrite pass_each_app, generateGraphOutputShape_present by done.
    cbn [pass_each]. unfold mbind, Pass_bind. cbn [shapeMap_].
    by rewrite Ho.
Qed.

Lemma generateGraphOutputShape_spec_witness :
  generateGraphOutputShape (mkGraph [] [] [2%nat; 1%nat])
    (mkState (<[1%nat := mkMeta [4] []]> (<[2%nat := mkMeta [2; 3] []]> ∅))
             [[9]])
  = (Value tt,
     mkState (<[1%nat := mkMeta [4] []]> (<[2%nat := mkMeta [2; 3] []]> ∅))
             [[9]; [2; 3]; [4]]) ∧
  generateGraphOutputShape (mkGraph [] [] [2%nat; 1%nat])
    (mkState (<[2%nat := mkMeta [2; 3] []]> ∅) [])
  = (Fatal CheckFailed, mkState (<[2%nat := mkMeta [2; 3] []]> ∅) [[2; 3]]).
Proof.
  split.
  - rewrite (proj1 (generateGraphOutputShape_spec (mkGraph [] [] [2%nat; 1%nat])
      (mkState (<[1%nat := mkMeta [4] []]> (<[2%nat := mkMeta [2; 3] []]> ∅))
               [[9]]))).
    + by vm_compute.
    + apply (bool_decide_unpack _). by vm_compute.
  - rewrite (proj2 (generateGraphOutputShape_spec (mkGraph [] [] [2%nat; 1%nat])
      (mkState (<[2%nat := mkMeta [2; 3] []]> ∅) [])) [2%nat] 1%nat []).
    + by vm_compute.
    + reflexivity.
    + apply (bool_decide_unpack _). by vm_compute.
    + by vm_compute.
Defined.

(** X14: a pass that succeeds was given as many inputs as the graph
    has, leaves an entry for every output of the graph, and has appended
    to the output shapes collected before it, which it does not clear, one
    shape for each output of the graph, in their order: the shape of the
    output's entry in the final store. *)
Theorem run_outputs (graph_ : Graph) (inputs_ : list IValue) (st st' : State) :
  run graph_ inputs_ st = (Value tt, st') →
  length inputs_ = length (g_inputs graph_) ∧
  Forall (λ o, is_Some (shapeMap_ st' !! o)) (g_outputs graph_) ∧
  getGraphOutputShape st' =
    getGraphOutputShape st ++
    ((λ o, shape (entry (shapeMap_ st') o)) <$> g_outputs graph_).
Proof.
  unfold run, getGraphOutputShape. case_bool_decide as Harity; [discriminate|].
  intros H.
  apply pass_bind_Value in H as ([] & st1 & Hin & H).
  apply pass_bind_Value in H as ([] & st2 & Hnodes & H).
  apply keeps_outputs_getGraphIntputShape in Hin.
  apply (keeps_outputs_pass_each _ _ keeps_outputs_shapeOnNode) in Hnodes.
  pose proof (generateGraphOutputShape_shapeMap _ _ _ _ H) as Hmap.
  unfold generateGraphOutputShape in H.
  pose proof (generateGraphOutputShape_Value _ _ _ H) as Hall.
  rewrite generateGraphOutputShape_present in H by done.
  injection H as <-. cbn [shapeMap_ outputShape_].
  split; [unfold vec_size in Harity; lia|]. split; [done|].
  by rewrite Hnodes, Hin.
Qed.

Lemma run_outputs_witness :
  ∃ st',
    run (mkGraph [0%nat]
           [mkNode aten_relu [0%nat] [1%nat] TensorType None None None]
           [1%nat; 0%nat])
        [IVTensor [2; 3]] (mkState ∅ [[9]]) = (Value tt, st') ∧
    getGraphOutputShape st' = [[9]; [2; 3]; [2; 3]].
Proof.
  set (g := mkGraph [0%nat]
           [mkNode aten_relu [0%nat] [1%nat] TensorType None None None]
           [1%nat; 0%nat]).
  destruct (run g [IVTensor [2; 3]] (mkState ∅ [[9]])) as [r st'] eqn:Hrun.
  assert (Hr : r = Value tt).
  { apply (f_equal fst) in Hrun. vm_compute in Hrun. congruence. }
  subst r. exists st'. split; [reflexivity|].
  destruct (run_outputs g [IVTensor [2; 3]] _ st' Hrun) as (_ & _ & ->).
  apply (f_equal snd) in Hrun. cbn [snd] in Hrun. subst st'. by vm_compute.
Defined.

End GraphOutputs.

(** ** The store after the materializer has failed *)

Section MaterializerMore.

(** The loop of the materializer from input [i] on, when input [j] is
    the first of a category the engine does not take. *)
Lemma getGraphIntputShape_loop_stop (graph_ : Graph) (inputs_ : list IValue)
    (n : nat) :
  length inputs_ = length (g_inputs graph_) →
  Z.of_nat (length inputs_) ≤ INT_MAX →
  NoDup (g_inputs graph_) →
  ∀ (i : nat) (st : State) (j : nat) (kj : ValueRef),
    (i + n = length inputs_)%nat → (i ≤ j)%nat →
    inputs_ !! j = Some IVOther → g_inputs graph_ !! j = Some kj →
    (∀ (i' : nat) v, (i ≤ i' < j)%nat → inputs_ !! i' = Some v → v ≠ IVOther) →
    ∃ st',
      pass_loop (getGraphIntputShape_body graph_ inputs_) (Z.of_nat i) n st
        = (Failure (MAKE_ERR UnsupportedInputKind []), st') ∧
      outputShape_ st' = outputShape_ st ∧
      shapeMap_ st' !! kj = Some (mkMeta [] []) ∧
      (∀ (i' : nat) k v, (i ≤ i' < j)%nat → g_inputs graph_ !! i' = Some k →
         inputs_ !! i' = Some v → shapeMap_ st' !! k = meta_of_input v) ∧
      (∀ k, (∀ i' : nat, (i ≤ i' ≤ j)%nat → g_inputs graph_ !! i' ≠ Some k) →
         shapeMap_ st' !! k = shapeMap_ st !! k).
Proof.
  intros Hlen Hmax Hnodup.
  induction n as [|n IH]; intros i st j kj Hin Hj Hother Hkj Hbefore.
  - apply lookup_lt_Some in Hother. lia.
  - destruct (lookup_lt_is_Some_2 inputs_ i) as [v Hv]; [lia|].
    destruct (lookup_lt_is_Some_2 (g_inputs graph_) i) as [k Hk]; [lia|].
    rewrite pass_loop_S.
    destruct (decide (i = j)) as [->|Hne].
    + rewrite Hv in Hother. injection Hother as ->.
      rewrite Hk in Hkj. injection Hkj as ->.
      rewrite (getGraphIntputShape_body_other graph_ inputs_ (Z.of_nat j) kj);
        [|lia|by rewrite Nat2Z.id..].
      eexists. split; [reflexivity|]. cbn [shapeMap_ outputShape_].
      split; [done|]. split; [by rewrite lookup_insert_eq|]. split.
      * intros i' k' v' Hi'. lia.
      * intros k' Hk'. rewrite lookup_insert_ne; [done|].
        intros ->. by apply (Hk' j).
    + destruct (meta_of_input v) as [m|] eqn:Hm.
      2:{ apply meta_of_input_None in Hm as ->.
          by destruct (Hbefore i IVOther ltac:(lia) Hv). }
      rewrite (getGraphIntputShape_body_ok graph_ inputs_ (Z.of_nat i) k v m);
        [|lia|by rewrite Nat2Z.id..|done].
      rewrite int_incr_ok by lia.
      replace (Z.of_nat i + 1) with (Z.of_nat (Datatypes.S i)) by lia.
      destruct (IH (Datatypes.S i)
                  (mkState (<[k := m]> (shapeMap_ st)) (outputShape_ st)) j kj)
        as (st' & Hrun & Hout & Hstop & Hset & Hkeep); [lia|lia|done|done| |].
      { intros i' v' Hi'. apply Hbefore. lia. }
      exists st'. split; [done|]. split; [done|]. split; [done|]. split.
      * intros i' k' v' Hi' Hk' Hv'.
        destruct (decide (i' = i)) as [->|Hne'].
        -- rewrite Hk in Hk'. rewrite Hv in Hv'. simplify_eq.
           rewrite Hkeep; [simpl; by rewrite lookup_insert_eq|].
           intros i'' Hi'' Hk''.
           pose proof (NoDup_lookup _ _ _ _ Hnodup Hk Hk''). lia.
        -- apply (Hset i'); [lia|done..].
      * intros k' Hk'. rewrite Hkeep.
        -- simpl. rewrite lookup_insert_ne; [done|].
           intros ->. apply (Hk' i); [lia|done].
        -- intros i' Hi'. apply Hk'. lia.
Qed.

(** X15: when input [j] is the first of a category the engine does not
    take, the materializer, and with it the pass, fails with
    UnsupportedInputKind and leaves the store half filled: the inputs of
    the graph before [j] have the metadata of their instances, input [j]
    has an entry with an empty shape and no scalar values, and every other
    entry, those of the later inputs included, is as it was. *)
Theorem getGraphIntputShape_stops (graph_ : Graph) (inputs_ : list IValue)
    (st : State) (j : nat) (kj : ValueRef) :
  length inputs_ = length (g_inputs graph_) →
  Z.of_nat (length inputs_) ≤ INT_MAX →
  NoDup (g_inputs graph_) →
  inputs_ !! j = Some IVOther → g_inputs graph_ !! j = Some kj →
  (∀ (i : nat) v, (i < j)%nat → inputs_ !! i = Some v → v ≠ IVOther) →
  ∃ st',
    getGraphIntputShape graph_ inputs_ st
      = (Failure (MAKE_ERR UnsupportedInputKind []), st') ∧
    run graph_ inputs_ st = (Failure (MAKE_ERR UnsupportedInputKind []), st') ∧
    outputShape_ st' = outputShape_ st ∧
    shapeMap_ st' !! kj = Some (mkMeta [] []) ∧
    (∀ (i : nat) k v, (i < j)%nat → g_inputs graph_ !! i = Some k →
       inputs_ !! i = Some v → shapeMap_ st' !! k = meta_of_input v) ∧
    (∀ k, (∀ i : nat, (i ≤ j)%nat → g_inputs graph_ !! i ≠ Some k) →
       shapeMap_ st' !! k = shapeMap_ st !! k).
Proof.
  intros Hlen Hmax Hnodup Hother Hkj Hbefore.
  destruct (getGraphIntputShape_loop_stop graph_ inputs_ (length inputs_) Hlen
              Hmax Hnodup 0%nat st j kj)
    as (st' & Hrun & Hout & Hstop & Hset & Hkeep); [done|lia|done|done| |].
  { intros i v Hi. apply Hbefore. lia. }
  exists st'. split; [exact Hrun|]. split.
  { pose proof (run_materializer_Failure graph_ inputs_ st
                  (MAKE_ERR UnsupportedInputKind []) Hlen) as Hfail.
    unfold getGraphIntputShape in Hfail |- *.
    change (Z.of_nat 0) with 0 in Hrun. rewrite Hrun in Hfail.
    by apply Hfail. }
  split; [done|]. split; [done|]. split.
  - intros i k v Hi. apply Hset. lia.
  - intros k Hk. apply Hkeep. intros i Hi. apply Hk. lia.
Qed.

Lemma getGraphIntputShape_stops_witness :
  ∃ st',
    run (mkGraph [10; 11; 12]%nat [] []) [IVInt 7; IVOther; IVTensor [2]]
        (mkState (<[12%nat := mkMeta [5] []]> ∅) [])
      = (Failure (MAKE_ERR UnsupportedInputKind []), st') ∧
    shapeMap_ st' !! 10%nat = Some (mkMeta [1] [7]) ∧
    shapeMap_ st' !! 11%nat = Some (mkMeta [] []) ∧
    shapeMap_ st' !! 12%nat = Some (mkMeta [5] []).
Proof.
  destruct (getGraphIntputShape_stops (mkGraph [10; 11; 12]%nat [] [])
              [IVInt 7; IVOther; IVTensor [2]]
              (mkState (<[12%nat := mkMeta [5] []]> ∅) []) 1%nat 11%nat)
    as (st' & _ & Hrun & _ & Hstop & Hset & Hkeep).
  - reflexivity.
  - by vm_compute.
  - apply (bool_decide_unpack _). by vm_compute.
  - reflexivity.
  - reflexivity.
  - intros [|i] v Hi Hv; [|lia]. injection Hv as <-. discriminate.
  - exists st'. split; [exact Hrun|].
    split; [exact (Hset 0%nat 10%nat (IVInt 7) ltac:(lia) eq_refl eq_refl)|].
    split; [exact Hstop|].
    etrans; [apply (Hkeep 12%nat)|by vm_compute].
    intros [|[|i]] Hi; [discriminate|discriminate|lia].
Defined.

End MaterializerMore.

(** ** The entries a successful pass leaves *)

Section StoreEntries.

Lemma preserves_entry_set_shape (k o : ValueRef) (s : list Z) :
  preserves (λ st, is_Some (shapeMap_ st !! k)) (set_shape o s).
Proof.
  intros st r st' Hk [= <- <-]. cbn [shapeMap_].
  rewrite lookup_insert_is_Some. destruct (decide (o = k)); auto.
Qed.

Lemma preserves_entry_set_intValue (k o : ValueRef) (v : list Z) :
  preserves (λ st, is_Some (shapeMap_ st !! k)) (set_intValue o v).
Proof.
  intros st r st' Hk [= <- <-]. cbn [shapeMap_].
  rewrite lookup_insert_is_Some. destruct (decide (o = k)); auto.
Qed.

Lemma preserves_entry_shapeOnNode (k : ValueRef) (node : Node) :
  preserves (λ st, is_Some (shapeMap_ st !! k)) (shapeOnNode node).
Proof.
  apply shapeOnNode_preserves_on.
  - intros o s _. apply preserves_entry_set_shape.
  - intros _ o v _. apply preserves_entry_set_intValue.
Qed.

(** A loop that succeeds has established what each of its turns
    establishes, if every turn keeps it. *)
Lemma pass_loop_establishes (Q : nat → State → Prop) (body : Z → Pass unit)
    (n : nat) :
  (∀ j (j' : nat), preserves (Q j') (body j)) →
  (∀ (j : nat) st st', Z.of_nat j < INT_MAX →
     body (Z.of_nat j) st = (Value tt, st') → Q j st') →
  ∀ (i : nat) (st st' : State),
    pass_loop body (Z.of_nat i) n st = (Value tt, st') →
    ∀ j : nat, (i ≤ j < i + n)%nat → Q j st'.
Proof.
  intros Hkeep Hturn. induction n as [|n IH]; intros i st st' H j Hj; [lia|].
  rewrite pass_loop_S in H.
  destruct (body (Z.of_nat i) st) as [[[]| |] st1] eqn:Hbody; [|done..].
  unfold int_incr in H. case_bool_decide as Hlt; [|done].
  replace (Z.of_nat i + 1) with (Z.of_nat (Datatypes.S i)) in H by lia.
  destruct (decide (j = i)) as [->|Hne].
  - apply (preserves_pass_loop (Q i) body n _ (λ j0, Hkeep j0 i) _ _ _
             (Hturn i st st1 Hlt Hbody) H).
  - apply (IH _ _ _ H). lia.
Qed.

(** The loop that stores the shapes of the outputs of a node, when it
    succeeds, has left an entry for each of them. *)
Lemma shapeOnNode_store_loop_entries (os : list ValueRef)
    (outs : list (list Z)) (st st' : State) :
  pass_loop (λ i, out ← lift (vec_at os (to_size_t i));
                  v ← lift (vec_at outs (to_size_t i));
                  set_shape out v) 0 (length os) st = (Value tt, st') →
  ∀ o, o ∈ os → is_Some (shapeMap_ st' !! o).
Proof.
  intros H o Ho. apply list_elem_of_lookup_1 in Ho as [j Hj].
  apply lookup_lt_Some in Hj as Hlt. revert o Hj.
  assert (Hkeep : ∀ j0 (j' : nat),
    preserves (λ st, ∀ o, os !! j' = Some o → is_Some (shapeMap_ st !! o))
      ((λ i, out ← lift (vec_at os (to_size_t i));
             v ← lift (vec_at outs (to_size_t i));
             set_shape out v) j0)).
  { intros j0 j' st0 r0 st1 HQ Hbody o Ho.
    revert Hbody. apply (preserves_lift_bind
      (λ st, is_Some (shapeMap_ st !! o))); [|by apply HQ].
    intros out _. apply preserves_lift_bind. intros v _.
    apply preserves_entry_set_shape. }
  apply (pass_loop_establishes
           (λ j st, ∀ o, os !! j = Some o → is_Some (shapeMap_ st !! o))
           _ (length os) Hkeep) with (i := 0%nat) (st := st);
    [|done|lia].
  intros j0 st0 st1 Hj0 Hbody o Ho. cbv beta in Hbody.
  rewrite to_size_t_small in Hbody by (unfold INT_MAX, SIZE_MOD in *; lia).
  unfold mbind, Pass_bind, lift in Hbody.
  rewrite vec_at_nat, Ho in Hbody.
  destruct (vec_at outs (Z.of_nat j0)) as [v| |]; [|done..].
  injection Hbody as <-. cbn [shapeMap_].
  rewrite lookup_insert_eq. eauto.
Qed.

(** The materializer, when it succeeds, has left an entry for each
    input of the graph that has an instance. *)
Lemma getGraphIntputShape_entries (graph_ : Graph) (inputs_ : list IValue)
    (st st' : State) :
  getGraphIntputShape graph_ inputs_ st = (Value tt, st') →
  ∀ (j : nat) k, (j < length inputs_)%nat → g_inputs graph_ !! j = Some k →
                 is_Some (shapeMap_ st' !! k).
Proof.
  intros H j k Hlt. revert k.
  assert (Hkeep : ∀ j0 (j' : nat),
    preserves (λ st, ∀ k, g_inputs graph_ !! j' = Some k →
                          is_Some (shapeMap_ st !! k))
      (getGraphIntputShape_body graph_ inputs_ j0)).
  { intros j0 j' st0 r0 st1 HQ Hbody k Hk.
    apply (getGraphIntputShape_body_preserves_on
             (λ st, is_Some (shapeMap_ st !! k)) graph_ inputs_ j0
             (λ o s _, preserves_entry_set_shape k o s)
             (λ o v _, preserves_entry_set_intValue k o v)
             st0 r0 st1 (HQ k Hk) Hbody). }
  apply (pass_loop_establishes
           (λ j st, ∀ k, g_inputs graph_ !! j = Some k →
                         is_Some (shapeMap_ st !! k))
           _ (length inputs_) Hkeep) with (i := 0%nat) (st := st);
    [|done|lia].
  intros j0 st0 st1 Hj0 Hbody k Hk.
  destruct (inputs_ !! j0) as [v|] eqn:Hv.
  - destruct (meta_of_input v) as [m|] eqn:Hm.
    + rewrite (getGraphIntputShape_body_ok graph_ inputs_ (Z.of_nat j0) k v m)
        in Hbody; [|lia|by rewrite Nat2Z.id..|done].
      injection Hbody as <-. cbn [shapeMap_]. rewrite lookup_insert_eq. eauto.
    + apply meta_of_input_None in Hm as ->.
      rewrite (getGraphIntputShape_body_other graph_ inputs_ (Z.of_nat j0) k)
        in Hbody; [|lia|by rewrite Nat2Z.id..].
      discriminate.
  - unfold getGraphIntputShape_body in Hbody.
    rewrite to_size_t_small in Hbody by (unfold INT_MAX, SIZE_MOD in *; lia).
    unfold mbind, Pass_bind, lift, set_shape, set_intValue in Hbody.
    rewrite !vec_at_nat, Hk, Hv in Hbody. discriminate.
Qed.

(** A node that has been processed has left an entry for each of its
    inputs and outputs. *)
Lemma shapeOnNode_Value_entries (node : Node) (st st' : State) :
  shapeOnNode node st = (Value tt, st') →
  ∀ k, k ∈ inputs node ∨ k ∈ outputs node → is_Some (shapeMap_ st' !! k).
Proof.
  intros H k [Hk|Hk].
  - apply (preserves_entry_shapeOnNode k node st (Value tt) st'); [|done].
    unfold shapeOnNode in H.
    apply pass_bind_Value in H as (metas & st0 & Hin & _).
    unfold getNodeInputShape in Hin. injection Hin as Hin _.
    apply getNodeInputShape_lookup in Hin.
    apply list_elem_of_lookup_1 in Hk as [i Hi].
    destruct (Forall2_lookup_l _ _ _ _ _ Hin Hi) as (m & _ & Hm).
    by rewrite Hm.
  - unfold shapeOnNode in H.
    apply pass_bind_Value in H as (metas & st0 & _ & H).
    apply pass_bind_Value in H as (outs & st1 & _ & H).
    clear st st0 metas. rename st1 into st.
    unfold shapeOnNode_store in H.
    destruct (kind node);
      try (by apply (shapeOnNode_store_loop_entries _ _ _ _ H)).
    unfold mbind, Pass_bind, lift, set_shape, set_intValue in H.
    unfold node_output in H.
    destruct (outputs node) as [|o [|]]; [done| |done].
    apply list_elem_of_singleton in Hk as ->.
    destruct (output_type node); destruct (vec_at outs 0) as [v| |];
      try done; injection H as <-; cbn [shapeMap_];
      rewrite lookup_insert_eq; eauto.
Qed.

Lemma pass_each_shapeOnNode_entries (nodes : list Node) (st st' : State) :
  pass_each shapeOnNode nodes st = (Value tt, st') →
  ∀ node k, node ∈ nodes → k ∈ inputs node ∨ k ∈ outputs node →
            is_Some (shapeMap_ st' !! k).
Proof.
  revert st. induction nodes as [|n0 nodes IH]; intros st H node k Hnode Hk.
  - by apply elem_of_nil in Hnode.
  - cbn [pass_each] in H.
    apply pass_bind_Value in H as ([] & st1 & H0 & H).
    apply elem_of_cons in Hnode as [->|Hnode].
    + apply (preserves_pass_each (λ st, is_Some (shapeMap_ st !! k))
               shapeOnNode nodes
               (λ x _, preserves_entry_shapeOnNode k x) st1 (Value tt) st');
        [|done].
      by apply (shapeOnNode_Value_entries n0 st st1).
    + by apply (IH st1 H node).
Qed.

(** X16: after a pass that succeeds the store has an entry for every
    input of the graph and for every input and every output of every node
    of the graph. *)
Theorem run_entries (graph_ : Graph) (inputs_ : list IValue) (st st' : State) :
  run graph_ inputs_ st = (Value tt, st') →
  (∀ k, k ∈ g_inputs graph_ → is_Some (shapeMap_ st' !! k)) ∧
  (∀ node k, node ∈ g_nodes graph_ → k ∈ inputs node ∨ k ∈ outputs node →
             is_Some (shapeMap_ st' !! k)).
Proof.
  unfold run. case_bool_decide as Harity; [discriminate|].
  intros H.
  apply pass_bind_Value in H as ([] & st1 & Hin & H).
  apply pass_bind_Value in H as ([] & st2 & Hnodes & H).
  apply generateGraphOutputShape_shapeMap in H. rewrite H. clear H st'.
  split.
  - intros k Hk.
    apply (preserves_pass_each (λ st, is_Some (shapeMap_ st !! k))
             shapeOnNode (g_nodes graph_)
             (λ x _, preserves_entry_shapeOnNode k x) st1 (Value tt) st2);
      [|done].
    apply list_elem_of_lookup_1 in Hk as [j Hj].
    apply lookup_lt_Some in Hj as Hlt.
    apply (getGraphIntputShape_entries _ _ _ _ Hin j); [|done].
    unfold vec_size in Harity. lia.
  - intros node k Hnode Hk.
    by apply (pass_each_shapeOnNode_entries _ _ _ Hnodes node).
Qed.

Lemma run_entries_witness :
  let g := mkGraph [0%nat]
             [mkNode aten_relu [0%nat] [1%nat] TensorType None None None]
             [1%nat] in
  is_Some (shapeMap_ (run g [IVTensor [2; 3]] init).2 !! 0%nat) ∧
  is_Some (shapeMap_ (run g [IVTensor [2; 3]] init).2 !! 1%nat).
Proof.
  cbv zeta.
  set (g := mkGraph [0%nat]
             [mkNode aten_relu [0%nat] [1%nat] TensorType None None None]
             [1%nat]).
  destruct (run g [IVTensor [2; 3]] init) as [r st'] eqn:Hrun.
  assert (Hr : r = Value tt).
  { apply (f_equal fst) in Hrun. vm_compute in Hrun. congruence. }
  subst r. destruct (run_entries g [IVTensor [2; 3]] init st' Hrun)
    as [Hinputs Hnodes].
  split.
  - apply Hinputs. by left.
  - apply (Hnodes
      (mkNode aten_relu [0%nat] [1%nat] TensorType None None None)).
    + by left.
    + right. by left.
Defined.

End StoreEntries.

(** ** Splitting and concatenating back *)

Section SplitConcat.

(** The sums a split that succeeds has computed are within [int64_t]. *)
Lemma constantChunk_Value_ranges (m : VariableMeta) (chunks dim : Z)
    (outs : list (list Z)) :
  let t := shape m in
  let nd := normalize_dim dim (vec_size t) in
  vec_size t ≤ INT64_MAX → INT64_MIN ≤ dim ≤ INT64_MAX →
  constantChunk [m] chunks dim = Value outs →
  ∃ s, t !! Z.to_nat nd = Some s ∧
       s + chunks ≤ INT64_MAX ∧
       INT64_MIN ≤ Z.quot (s + chunks - 1) chunks * (chunks - 1) ≤ INT64_MAX.
Proof.
  cbv zeta. set (t := shape m). set (nd := normalize_dim dim (vec_size t)).
  intros Hrank Hdim H.
  rewrite constantChunk_one in H by done. fold t nd in H.
  case_bool_decide as Hnd; [|discriminate].
  apply bind_Value in H as (s & Hs & H).
  apply vec_at_Value in Hs; [|lia].
  apply bind_Value in H as (n1 & Hn1 & H). apply int64_Value in Hn1 as [-> Hn1].
  apply bind_Value in H as (n2 & Hn2 & H). apply int64_Value in Hn2 as [-> Hn2].
  apply bind_Value in H as (c & Hc & H).
  unfold div64 in Hc. case_bool_decide; [discriminate|].
  apply int64_Value in Hc as [-> Hc].
  apply bind_Value in H as (k & Hk & H). apply int64_Value in Hk as [-> Hk].
  apply bind_Value in H as (p & Hp & H). apply int64_Value in Hp as [-> Hp].
  exists s. split; [done|]. split; [lia|done].
Qed.

(** The loop over later inputs that all go with the first one adds up
    their sizes at the concat dimension, if no sum on the way leaves
    [int64_t]. *)
Lemma fusedConcat_outer_sum (t0 : list Z) (d : nat) (pre : MetaStack) :
  (d < length t0)%nat → Z.of_nat (length t0) ≤ INT_MAX →
  Forall (λ m, compatible t0 d (shape m)) pre →
  ∀ (front : MetaStack) (acc : Z),
    Z.of_nat (length (front ++ pre)) ≤ INT_MAX →
    (∀ k : nat, (1 ≤ k ≤ length pre)%nat →
       INT64_MIN ≤ acc + total_at d (shape <$> take k pre) ≤ INT64_MAX) →
    for_loop (fusedConcat_outer (front ++ pre) (Z.of_nat (length t0))
                                (Z.of_nat d))
             (Z.of_nat (length front)) (length pre) (<[d := acc]> t0) =
      Value (<[d := acc + total_at d (shape <$> pre)]> t0).
Proof.
  intros Hd Hrank Hcompat.
  induction pre as [|mi pre IH]; intros front acc Hlen Hsum.
  - simpl. do 2 f_equal. lia.
  - apply Forall_cons in Hcompat as [Hmi Hcompat].
    rewrite length_app in Hlen. cbn [length] in Hlen.
    cbn [length for_loop].
    pose proof (Hsum 1%nat ltac:(cbn [length]; lia)) as H1.
    rewrite firstn_cons, take_0 in H1.
    cbn [fmap list_fmap] in H1. rewrite total_at_cons in H1.
    change (total_at d []) with 0 in H1.
    destruct (fusedConcat_outer_step (front ++ mi :: pre) t0 d
                (Z.of_nat (length front)) mi acc) as (_ & -> & _); try done.
    + rewrite Nat2Z.id. rewrite lookup_app_r by lia.
      by rewrite Nat.sub_diag.
    + lia.
    + lia.
    + cbn [mbind Expected_bind].
      rewrite int_incr_ok by lia. cbn [mbind Expected_bind].
      specialize (IH Hcompat (front ++ [mi]) (acc + size_at d (shape mi))).
      rewrite <- !app_assoc in IH. cbn [app] in IH.
      replace (Z.of_nat (length (front ++ [mi])))
        with (Z.of_nat (length front) + 1) in IH
        by (rewrite length_app; cbn [length]; lia).
      rewrite IH.
      * cbn [fmap list_fmap]. rewrite total_at_cons. do 2 f_equal. lia.
      * rewrite !length_app. cbn [length]. lia.
      * intros k Hk.
        pose proof (Hsum (Datatypes.S k) ltac:(cbn [length]; lia)) as Hk'.
        rewrite firstn_cons in Hk'.
        cbn [fmap list_fmap] in Hk'. rewrite total_at_cons in Hk'. lia.
Qed.

Lemma compatible_insert (t : list Z) (d : nat) (x y : Z) :
  compatible (<[d := x]> t) d (<[d := y]> t).
Proof.
  split; [by rewrite !length_insert|].
  intros j Hj. by rewrite !list_lookup_insert_ne.
Qed.

(** X17: concatenating the chunks of a split at the dimension of the
    split gives back the shape that was split: whenever the split rule
    returns chunks for a chunk count of 1 or more, the concatenation rule
    on them, at the same [dim], returns the shape of the input of the
    split. *)
Theorem split_then_concat (m : VariableMeta) (chunks dim : Z)
    (outs : list (list Z)) :
  let t := shape m in
  let nd := normalize_dim dim (vec_size t) in
  vec_size t ≤ INT_MAX → INT64_MIN ≤ dim ≤ INT64_MAX → 1 ≤ chunks →
  INT64_MIN ≤ size_at (Z.to_nat nd) t →
  constantChunk [m] chunks dim = Value outs →
  fusedConcat (ofShape <$> outs) dim = Value t.
Proof.
  cbv zeta. set (t := shape m). set (nd := normalize_dim dim (vec_size t)).
  intros Hrank Hdim Hchunks Hmin H.
  assert (Hrank64 : vec_size t ≤ INT64_MAX)
    by (unfold INT_MAX, INT64_MAX in *; lia).
  destruct (constantChunk_Value_ranges m chunks dim outs Hrank64 Hdim H)
    as (s & Hs & Hsc & Hp).
  destruct (constantChunk_Value_inv m chunks dim outs Hrank64 Hdim Hchunks H)
    as (Hnd & Hmax & s' & Hs' & ->).
  fold t nd in Hs, Hs', Hnd. rewrite Hs in Hs'. injection Hs' as <-.
  unfold size_at in Hmin. rewrite Hs in Hmin.
  change (default 0 (Some s)) with s in Hmin.
  rewrite chunks_replicate by done. fold t. fold nd.
  set (d := Z.to_nat nd) in *.
  set (c := Z.quot (s + chunks - 1) chunks) in *.
  assert (Hd : (d < length t)%nat) by (unfold vec_size in *; lia).
  assert (Hid : ∀ x, <[d := s]> (<[d := x]> t) = t).
  { intros x. rewrite list_insert_insert_eq. by apply list_insert_id. }
  destruct (decide (chunks = 1)) as [->|Hne].
  - change (Z.to_nat (1 - 1)) with 0%nat. cbn [replicate app fmap list_fmap].
    replace (s - c * (1 - 1)) with s by lia.
    rewrite list_insert_id by done. reflexivity.
  - remember (Z.to_nat (chunks - 2)) as n eqn:Hn.
    replace (Z.to_nat (chunks - 1)) with (Datatypes.S n) by lia.
    cbn [replicate app]. rewrite fmap_cons, fmap_app, fmap_replicate.
    cbn [fmap list_fmap].
    set (A := <[d := c]> t). set (B := <[d := s - c * (chunks - 1)]> t).
    destruct (replicate n (ofShape A) ++ [ofShape B]) as [|m1 rest] eqn:Hpre;
      [by destruct n|].
    assert (HlenA : length A = length t) by (unfold A; by rewrite length_insert).
    assert (Hlen : length (m1 :: rest) = Datatypes.S n).
    { rewrite <- Hpre, length_app, length_replicate. cbn [length]. lia. }
    pose proof (fusedConcat_many (ofShape A) m1 rest dim) as Hmany.
    cbv zeta in Hmany. cbn [shape ofShape] in Hmany.
    unfold vec_size in Hmany. rewrite HlenA in Hmany.
    fold (vec_size t) in Hmany. fold nd in Hmany.
    rewrite Hmany by done. clear Hmany.
    rewrite bool_decide_eq_true_2 by done.
    pose proof (fusedConcat_outer_sum A d (m1 :: rest)) as Hsum.
    rewrite HlenA in Hsum.
    specialize (Hsum Hd ltac:(unfold vec_size in Hrank; lia)).
    assert (Hcompat : Forall (λ m, compatible A d (shape m)) (m1 :: rest)).
    { rewrite <- Hpre. apply Forall_app. split.
      - apply Forall_replicate. by split.
      - apply Forall_singleton. apply compatible_insert. }
    specialize (Hsum Hcompat [ofShape A] c).
    cbn [app length] in Hsum. change (Z.of_nat 1) with 1 in Hsum.
    assert (HidA : <[d := c]> A = A) by (unfold A; apply list_insert_insert_eq).
    rewrite HidA in Hsum.
    unfold vec_size. replace nd with (Z.of_nat d) by lia.
    assert (Htake : ∀ k : nat, (k ≤ n)%nat →
      total_at d (shape <$> take k (m1 :: rest)) = Z.of_nat k * c).
    { intros k Hk. rewrite <- Hpre.
      rewrite take_app_le by (rewrite length_replicate; lia).
      rewrite take_replicate, fmap_replicate, total_at_replicate.
      cbn [shape ofShape]. unfold A. rewrite size_at_insert by done.
      f_equal. lia. }
    assert (Hall : total_at d (shape <$> m1 :: rest)
                   = Z.of_nat n * c + (s - c * (chunks - 1))).
    { rewrite <- Hpre, fmap_app, total_at_app, fmap_replicate,
        total_at_replicate.
      cbn [fmap list_fmap shape ofShape]. rewrite total_at_cons.
      unfold A, B. rewrite !size_at_insert by done.
      change (total_at d []) with 0. lia. }
    rewrite Hsum.
    + rewrite Hall. unfold A. rewrite list_insert_insert_eq.
      replace (c + (Z.of_nat n * c + (s - c * (chunks - 1)))) with s.
      * by rewrite list_insert_id.
      * rewrite Hn, Z2Nat.id by lia. ring.
    + cbn [length] in Hlen. lia.
    + intros k Hk. cbn [length] in Hlen.
      destruct (decide (k ≤ n)%nat) as [Hkn|Hkn].
      * rewrite Htake by done.
        assert (Hbetween :
          (0 ≤ c + Z.of_nat k * c ≤ c * (chunks - 1)) ∨
          (c * (chunks - 1) ≤ c + Z.of_nat k * c ≤ 0)).
        { destruct (Z.le_gt_cases 0 c); [left|right]; nia. }
        unfold INT64_MIN, INT64_MAX in *. lia.
      * assert (k = length (m1 :: rest)) as -> by (cbn [length]; lia).
        rewrite firstn_all, Hall.
        replace (c + (Z.of_nat n * c + (s - c * (chunks - 1)))) with s.
        -- unfold INT64_MIN, INT64_MAX in *. lia.
        -- rewrite Hn, Z2Nat.id by lia. ring.
Qed.

Lemma split_then_concat_witness :
  fusedConcat (ofShape <$> [[4; 8]; [4; 8]; [2; 8]]) 0 = Value [10; 8].
Proof.
  apply (split_then_concat (ofShape [10; 8]) 3 0 [[4; 8]; [4; 8]; [2; 8]]);
    by vm_compute.
Defined.

End SplitConcat.

(** ** addmm with a bias vector *)

Section AddmmMore.

Lemma addmm_three (t0 t1 t2 : VariableMeta) (rest : MetaStack) :
  addmm (t0 :: t1 :: t2 :: rest) =
    t ← (if bool_decide (vec_size (shape t2) = 1) then Value t1
         else s ← mm [t1; t2]; Value (mkMeta s []));
    binaryOp [t0; t].
Proof.
  unfold addmm. rewrite bool_decide_eq_false_2.
  - by rewrite (vec_at_nat _ 0), (vec_at_nat _ 1), (vec_at_nat _ 2).
  - unfold vec_size. simpl length. lia.
Qed.

(** The binary rule on a vector and a matrix. *)
Lemma binaryOp_row (m0 m1 : VariableMeta) (q n p : Z) :
  shape m0 = [q] → shape m1 = [n; p] →
  binaryOp [m0; m1] = x ← pick_of (Some q) (Some p); Value [n; x].
Proof.
  intros H0 H1. pose proof (binaryOp_closed_form m0 m1) as H.
  cbv zeta in H. rewrite H0, H1 in H. rewrite H by (by vm_compute).
  rewrite bool_decide_eq_false_2 by (by vm_compute).
  change (seqZ 0 (Z.max (vec_size [q]) (vec_size [n; p]))) with [0; 1].
  cbn [mapM].
  change (from_end [q] 0) with (Some q).
  change (from_end [q] 1) with (@None Z).
  change (from_end [n; p] 0) with (Some p).
  change (from_end [n; p] 1) with (Some n).
  by destruct (pick_of (Some q) (Some p)).
Qed.

(** X18: [addmm] as a linear layer, on a bias vector of [q] elements,
    a matrix [n, k] and a matrix [k, p]: the result is [n, p] when the bias
    has [p] elements or one; a bias of another length against [p = 1]
    widens the result to [n, q], and against any other [p] the rule fails
    with ShapeMismatch on [q] and [p]; matrices whose inner sizes differ
    fail with ShapeMismatch on those, whatever the bias. *)
Theorem addmm_linear (bias mat1 mat2 : VariableMeta) (rest : MetaStack)
    (q n k k' p : Z) :
  shape bias = [q] → shape mat1 = [n; k] → shape mat2 = [k'; p] →
  let r := addmm (bias :: mat1 :: mat2 :: rest) in
  (k ≠ k' → r = Failure (MAKE_ERR ShapeMismatch [k; k'])) ∧
  (k = k' → q = p ∨ q = 1 → r = Value [n; p]) ∧
  (k = k' → q ≠ 1 → p = 1 → r = Value [n; q]) ∧
  (k = k' → q ≠ p → q ≠ 1 → p ≠ 1 →
   r = Failure (MAKE_ERR ShapeMismatch [q; p])).
Proof.
  intros Hb H1 H2. cbv zeta. rewrite addmm_three.
  rewrite bool_decide_eq_false_2 by (rewrite H2; by vm_compute).
  rewrite mm_two, H1, H2.
  rewrite bool_decide_eq_false_2 by (intros H; apply H; by vm_compute).
  change (vec_at [n; k] 1) with (Value k).
  change (vec_at [k'; p] 0) with (Value k').
  change (vec_at [n; k] 0) with (Value n).
  change (vec_at [k'; p] 1) with (Value p).
  cbn [mbind Expected_bind].
  split.
  { intros Hne. by rewrite bool_decide_eq_true_2. }
  assert (Hrow : k = k' →
    ((if bool_decide (k ≠ k') then Failure (MAKE_ERR ShapeMismatch [k; k'])
      else Value [n; p]) ≫= λ s, Value (mkMeta s []))
    ≫= (λ t, binaryOp [bias; t]) = x ← pick_of (Some q) (Some p); Value [n; x]).
  { intros Heq. rewrite bool_decide_eq_false_2 by (intros H; by apply H).
    cbn [mbind Expected_bind]. by apply binaryOp_row. }
  unfold pick_of in Hrow.
  repeat apply conj.
  - intros Heq [-> | ->]; rewrite Hrow by done.
    + destruct (decide (p = 1)) as [->|Hp1]; [reflexivity|].
      rewrite (bool_decide_eq_false_2 (p = 1)) by done.
      rewrite (bool_decide_eq_false_2 (p ≠ p)) by (intros H; by apply H).
      reflexivity.
    + reflexivity.
  - intros Heq Hq ->. rewrite Hrow by done.
    by rewrite (bool_decide_eq_false_2 (q = 1)).
  - intros Heq Hqp Hq Hp. rewrite Hrow by done.
    rewrite (bool_decide_eq_false_2 (q = 1)) by done.
    rewrite (bool_decide_eq_false_2 (p = 1)) by done.
    rewrite (bool_decide_eq_true_2 (p ≠ q)) by congruence.
    reflexivity.
Qed.

Lemma addmm_linear_witness :
  addmm [ofShape [5]; ofShape [2; 3]; ofShape [4; 5]]
    = Failure (MAKE_ERR ShapeMismatch [3; 4]) ∧
  addmm [ofShape [5]; ofShape [2; 3]; ofShape [3; 5]] = Value [2; 5] ∧
  addmm [ofShape [5]; ofShape [2; 3]; ofShape [3; 1]] = Value [2; 5] ∧
  addmm [ofShape [4]; ofShape [2; 3]; ofShape [3; 5]]
    = Failure (MAKE_ERR ShapeMismatch [4; 5]).
Proof.
  split; [|split; [|split]].
  - apply (addmm_linear (ofShape [5]) (ofShape [2; 3]) (ofShape [4; 5]) []
             5 2 3 4 5 eq_refl eq_refl eq_refl). lia.
  - destruct (addmm_linear (ofShape [5]) (ofShape [2; 3]) (ofShape [3; 5]) []
                5 2 3 3 5 eq_refl eq_refl eq_refl) as (_ & Hsame & _).
    apply Hsame; [reflexivity|by left].
  - destruct (addmm_linear (ofShape [5]) (ofShape [2; 3]) (ofShape [3; 1]) []
                5 2 3 3 1 eq_refl eq_refl eq_refl) as (_ & _ & Hwide & _).
    apply Hwide; [reflexivity|lia|reflexivity].
  - destruct (addmm_linear (ofShape [4]) (ofShape [2; 3]) (ofShape [3; 5]) []
                4 2 3 3 5 eq_refl eq_refl eq_refl) as (_ & _ & _ & Hfail).
    apply Hfail; [reflexivity|lia..].
Defined.

End AddmmMore.
